(** * Clebsch-Gordan combination and power spectrum of rascaline

    A shallow embedding of

    - [rascaline/utils/clebsch_gordan/_dispatch.py]
      ([_sparse_combine], [_dense_combine]), and
    - [rascaline/utils/power_spectrum.py]
      ([PowerSpectrum.__init__], [PowerSpectrum.compute],
      [_positions_gradients]),

    together with the part of numpy and equistore these functions call.

    Conventions.
    - A Python call either returns a value or raises: [result A].
    - A float64 is idealised as a real number ([R]); "equal up to
      round-off" is equality of these idealised values.
    - A numpy array is its shape and its elements in row-major (C) order.
    - Python integers that can be negative (angular channels, indices,
      requested dimensions) are [Z]; lengths and positions are [nat].
    - Exceptions keep their Python classes.  In the words of the
      specification, the [AssertionError] of the sample-count check is its
      ShapeMismatch, the [KeyError] of the coefficient lookup its
      UnsupportedChannel, and the [ValueError] of [__init__] on
      ['max_angular'] its ConfigMismatch. *)

From Stdlib Require Import String ZArith Reals Lra Lia Bool Arith List.
Import ListNotations.

Set Implicit Arguments.

(** ** Python: exceptions and results *)

Module Py.

Inductive exn : Type :=
| AssertionError
| KeyError
| IndexError
| ValueError (msg : string)
| TypeError (msg : string)
| NotImplementedError (msg : string)
| EquistoreError (msg : string).

Inductive result (A : Type) : Type :=
| Ok (a : A)
| Raise (e : exn).

Arguments Ok {A} a.
Arguments Raise {A} e.

Definition bind {A B : Type} (c : result A) (k : A -> result B) : result B :=
  match c with
  | Ok a => k a
  | Raise e => Raise e
  end.

(** [assert c] *)
Definition assert (c : bool) : result unit :=
  if c then Ok tt else Raise AssertionError.

(** [for x in xs: st = body x st], stopping at the first exception. *)
Fixpoint for_each {A S : Type} (xs : list A) (body : A -> S -> result S)
         (st : S) : result S :=
  match xs with
  | [] => Ok st
  | x :: xs' => bind (body x st) (for_each xs' body)
  end.

(** A [dict] in insertion order; keys are unique in a well-formed one. *)
Definition dict (K V : Type) : Type := list (K * V).

Fixpoint dict_get {K V : Type} (eqb : K -> K -> bool) (d : dict K V) (k : K)
  : result V :=
  match d with
  | [] => Raise KeyError
  | (k', v) :: d' => if eqb k' k then Ok v else dict_get eqb d' k
  end.

Definition dict_keys {K V : Type} (d : dict K V) : list K := map fst d.

(** Resolution of a sequence index: negative indices count from the end. *)
Definition normalize_index (i : Z) (n : nat) : result nat :=
  if ((0 <=? i) && (i <? Z.of_nat n))%Z then Ok (Z.to_nat i)
  else if ((- Z.of_nat n <=? i) && (i <? 0))%Z then Ok (Z.to_nat (i + Z.of_nat n))
  else Raise IndexError.

(** [seq[i]] on a Python list or tuple. *)
Definition list_get {A : Type} (l : list A) (i : Z) : result A :=
  bind (normalize_index i (length l))
       (fun k => match nth_error l k with
                 | Some x => Ok x
                 | None => Raise IndexError
                 end).

End Py.

Import Py.

Declare Scope py_scope.
Notation "x <- c ;; k" := (bind c (fun x => k))
  (at level 61, c at next level, right associativity) : py_scope.
Notation "c ;;; k" := (bind c (fun _ => k))
  (at level 61, right associativity) : py_scope.
Open Scope py_scope.

(** ** numpy: n-dimensional arrays *)

Module Np.

Record ndarray : Type := mk_ndarray { shape : list nat; data : list R }.

Definition size (sh : list nat) : nat := fold_right Nat.mul 1 sh.

Definition ndim (a : ndarray) : nat := length (shape a).

(** [a.shape[k]] *)
Definition shape_at (a : ndarray) (k : Z) : result nat := list_get (shape a) k.

(** Row-major offset of a multi-index, and its inverse. *)
Fixpoint ravel (sh idx : list nat) : nat :=
  match sh, idx with
  | _ :: sh', i :: idx' => i * size sh' + ravel sh' idx'
  | _, _ => 0
  end.

Fixpoint unravel (sh : list nat) (k : nat) : list nat :=
  match sh with
  | [] => []
  | _ :: sh' => k / size sh' :: unravel sh' (k mod size sh')
  end.

(** [a[i0, i1, ...]] for a full multi-index that is in range. *)
Definition item (a : ndarray) (idx : list nat) : R :=
  nth (ravel (shape a) idx) (data a) 0%R.

(** The array of shape [sh] whose element at [idx] is [f idx]. *)
Definition tabulate (sh : list nat) (f : list nat -> R) : ndarray :=
  mk_ndarray sh (map (fun k => f (unravel sh k)) (seq 0 (size sh))).

Definition in_range (sh idx : list nat) : Prop := Forall2 lt idx sh.

Definition wf (a : ndarray) : Prop := length (data a) = size (shape a).

(** [np.zeros(shape)] *)
Definition zeros (sh : list Z) : result ndarray :=
  if forallb (fun d => 0 <=? d)%Z sh
  then Ok (tabulate (map Z.to_nat sh) (fun _ => 0%R))
  else Raise (ValueError "negative dimensions are not allowed").

(** [a.reshape(new)]: a negative entry is the one dimension to infer. *)
Definition reshape (a : ndarray) (new : list Z) : result ndarray :=
  let total := size (shape a) in
  let known := size (map Z.to_nat (filter (fun d => 0 <=? d)%Z new)) in
  match length (filter (fun d => d <? 0)%Z new) with
  | 0 =>
      if known =? total
      then Ok (mk_ndarray (map Z.to_nat new) (data a))
      else Raise (ValueError "cannot reshape array")
  | 1 =>
      if (known =? 0) || negb (total mod known =? 0)
      then Raise (ValueError "cannot reshape array")
      else Ok (mk_ndarray
                 (map (fun d => if (d <? 0)%Z then total / known else Z.to_nat d) new)
                 (data a))
  | _ => Raise (ValueError "can only specify one unknown dimension")
  end.

(** Exchange of positions [i] and [j] of a tuple. *)
Definition swap (i j : nat) (l : list nat) : list nat :=
  map (fun k => nth (if k =? i then j else if k =? j then i else k) l 0)
      (seq 0 (length l)).

(** [a.swapaxes(i, j)] *)
Definition swapaxes (a : ndarray) (i j : nat) : result ndarray :=
  if (i <? ndim a) && (j <? ndim a)
  then Ok (tabulate (swap i j (shape a)) (fun idx => item a (swap i j idx)))
  else Raise (ValueError "axis is out of bounds").

(** Broadcasting of two shapes, aligned on their last dimensions. *)
Definition broadcast_dim (a b : nat) : result nat :=
  if a =? b then Ok a
  else if a =? 1 then Ok b
  else if b =? 1 then Ok a
  else Raise (ValueError "operands could not be broadcast together").

Fixpoint broadcast_rev (ra rb : list nat) : result (list nat) :=
  match ra, rb with
  | [], _ => Ok rb
  | _, [] => Ok ra
  | a :: ra', b :: rb' =>
      d <- broadcast_dim a b ;;
      r <- broadcast_rev ra' rb' ;;
      Ok (d :: r)
  end.

Definition broadcast_shapes (sa sb : list nat) : result (list nat) :=
  r <- broadcast_rev (rev sa) (rev sb) ;; Ok (rev r).

(** The index of the operand of shape [sh] that is read at the index
    [idx] of the broadcast result. *)
Definition bcast_index (sh idx : list nat) : list nat :=
  map (fun di => if fst di =? 1 then 0 else snd di)
      (combine sh (skipn (length idx - length sh) idx)).

(** [a * b], elementwise with broadcasting. *)
Definition mul (a b : ndarray) : result ndarray :=
  sh <- broadcast_shapes (shape a) (shape b) ;;
  Ok (tabulate sh (fun idx =>
        (item a (bcast_index (shape a) idx) * item b (bcast_index (shape b) idx))%R)).

(** [a + b], elementwise with broadcasting. *)
Definition add (a b : ndarray) : result ndarray :=
  sh <- broadcast_shapes (shape a) (shape b) ;;
  Ok (tabulate sh (fun idx =>
        (item a (bcast_index (shape a) idx) + item b (bcast_index (shape b) idx))%R)).

(** [a * c] and [c * a] for a Python float [c]. *)
Definition mul_scalar (a : ndarray) (c : R) : ndarray :=
  mk_ndarray (shape a) (map (fun x => (x * c)%R) (data a)).

Definition scalar_mul (c : R) (a : ndarray) : ndarray :=
  mk_ndarray (shape a) (map (fun x => (c * x)%R) (data a)).

(** [f 0 + f 1 + ... + f (n - 1)] *)
Definition sum_upto (n : nat) (f : nat -> R) : R :=
  fold_right (fun t acc => (f t + acc)%R) 0%R (seq 0 n).

(** [a @ b] for operands with at least two dimensions: the last two are
    the matrix dimensions, the leading ones are broadcast.  (The promotion
    of one-dimensional operands is not used by the code at hand; the model
    rejects such operands.) *)
Definition matmul (a b : ndarray) : result ndarray :=
  match rev (shape a), rev (shape b) with
  | k :: r :: ba, c :: k' :: bb =>
      if k =? k' then
        rbatch <- broadcast_rev ba bb ;;
        let batch := rev rbatch in
        let nb := length batch in
        Ok (tabulate (batch ++ [r; c]) (fun idx =>
              let bi := firstn nb idx in
              let i := nth nb idx 0 in
              let j := nth (S nb) idx 0 in
              sum_upto k (fun t =>
                (item a (bcast_index (rev ba) bi ++ [i; t])
                 * item b (bcast_index (rev bb) bi ++ [t; j]))%R)))
      else Raise (ValueError "matmul: mismatch in core dimension")
  | _, _ => Raise (ValueError "matmul: operand with fewer than 2 dimensions")
  end.

(** Basic indexing [a[item, item, ...]]. *)
Inductive index_item : Type :=
| All                (* [:] *)
| At (i : Z)         (* an integer *)
| NewAxis.           (* [None] / [np.newaxis] *)

Fixpoint index_shape (items : list index_item) (sh : list nat)
  : result (list nat) :=
  match items with
  | [] => Ok sh
  | NewAxis :: items' => r <- index_shape items' sh ;; Ok (1 :: r)
  | All :: items' =>
      match sh with
      | d :: sh' => r <- index_shape items' sh' ;; Ok (d :: r)
      | [] => Raise IndexError
      end
  | At i :: items' =>
      match sh with
      | d :: sh' => normalize_index i d ;;; index_shape items' sh'
      | [] => Raise IndexError
      end
  end.

(** The index of [a] read at the index [idx] of [a[items]]. *)
Fixpoint index_source (items : list index_item) (sh idx : list nat)
  : list nat :=
  match items with
  | [] => idx
  | NewAxis :: items' => index_source items' sh (tl idx)
  | All :: items' => hd 0 idx :: index_source items' (tl sh) (tl idx)
  | At i :: items' =>
      match normalize_index i (hd 0 sh) with
      | Ok k => k
      | Raise _ => 0
      end :: index_source items' (tl sh) idx
  end.

Definition getitem (a : ndarray) (items : list index_item) : result ndarray :=
  sh <- index_shape items (shape a) ;;
  Ok (tabulate sh (fun idx => item a (index_source items (shape a) idx))).

(** The index of [a[items]] at which the element [src] of [a] is seen,
    if it is seen at all. *)
Fixpoint index_view (items : list index_item) (sh src : list nat)
  : option (list nat) :=
  match items with
  | [] => Some src
  | NewAxis :: items' => option_map (cons 0) (index_view items' sh src)
  | All :: items' =>
      option_map (cons (hd 0 src)) (index_view items' (tl sh) (tl src))
  | At i :: items' =>
      match normalize_index i (hd 0 sh) with
      | Ok k => if hd 0 src =? k then index_view items' (tl sh) (tl src) else None
      | Raise _ => None
      end
  end.

(** [a[items] += v] with basic indexing: [v] is broadcast to the shape of
    the view. *)
Definition iadd_at (a : ndarray) (items : list index_item) (v : ndarray)
  : result ndarray :=
  sh <- index_shape items (shape a) ;;
  bsh <- broadcast_shapes (shape v) sh ;;
  if list_eq_dec Nat.eq_dec bsh sh
  then Ok (tabulate (shape a) (fun src =>
             match index_view items (shape a) src with
             | Some idx => (item a src + item v (bcast_index (shape v) idx))%R
             | None => item a src
             end))
  else Raise (ValueError "non-broadcastable output operand").

(** [a[idxs]] for a one-dimensional integer array [idxs]. *)
Fixpoint normalize_all (idxs : list Z) (n : nat) : result (list nat) :=
  match idxs with
  | [] => Ok []
  | i :: idxs' =>
      k <- normalize_index i n ;;
      ks <- normalize_all idxs' n ;;
      Ok (k :: ks)
  end.

Definition take (a : ndarray) (idxs : list Z) : result ndarray :=
  match shape a with
  | [] => Raise IndexError
  | d :: sh' =>
      ks <- normalize_all idxs d ;;
      Ok (tabulate (length ks :: sh')
            (fun idx => item a (nth (hd 0 idx) ks 0 :: tl idx)))
  end.

(** [a[k] = row] for each pair of [ks] and the rows of [rows], in order. *)
Definition put_rows (a : ndarray) (ks : list nat) (rows : ndarray) : ndarray :=
  fold_left
    (fun acc jk =>
       tabulate (shape a) (fun src =>
         if hd 0 src =? snd jk then item rows (fst jk :: tl src) else item acc src))
    (combine (seq 0 (length ks)) ks) a.

(** [a[idxs] += v] for a one-dimensional integer array [idxs]: the rows
    [a[idxs] + v] are computed first and then stored one by one, so that
    for a repeated index the last store wins. *)
Definition iadd_take (a : ndarray) (idxs : list Z) (v : ndarray)
  : result ndarray :=
  rows <- take a idxs ;;
  sum <- add rows v ;;
  if list_eq_dec Nat.eq_dec (shape sum) (shape rows)
  then ks <- normalize_all idxs (hd 0 (shape a)) ;; Ok (put_rows a ks sum)
  else Raise (ValueError "shape mismatch in indexed assignment").

End Np.

Import Np.

(** ** [rascaline/utils/clebsch_gordan/_dispatch.py] *)

Module Dispatch.

(** What the two entry points receive as [arr_1]: a numpy array, a torch
    tensor, or any other object. *)
Inductive array : Type :=
| NdArray (a : ndarray)
| TorchTensor (t : ndarray)
| Other.

Definition UNKNOWN_ARRAY_TYPE : string :=
  "unknown array type, only numpy arrays and torch tensors are supported".

Definition triple : Type := (Z * Z * Z)%type.

Definition triple_eqb (x y : triple) : bool :=
  let '(a, b, c) := x in
  let '(a', b', c') := y in
  ((a =? a') && (b =? b') && (c =? c'))%Z.

(** Modelled from the spec: the coefficient source [cg_cache], whose class
    is not part of the files at hand.  Its [coeffs] attribute is a
    dictionary from [(l1, l2, lam)] to a coefficient table; a table is a
    dictionary [(m1, m2, mu) -> float] for the sparse strategy and an array
    for the dense one. *)
Record cg_cache (T : Type) : Type := mk_cg_cache { coeffs : dict triple T }.

Definition sparse_table : Type := dict triple R.

(** [(n - 1) // 2] *)
Definition infer_l (n : nat) : Z := ((Z.of_nat n - 1) / 2)%Z.

(** One pass of the loop body of [_sparse_combine]:
    [arr_out[:, mu, :] += (arr_1[:, m1, :, None] * arr_2[:, m2, None, :]
                           * cg_coeffs[(m1, m2, mu)]).reshape(n_i, n_p * n_q)] *)
Definition sparse_step (arr_1 arr_2 : ndarray) (cg_coeffs : sparse_table)
           (n_i n_p n_q : nat) (key : triple) (arr_out : ndarray)
  : result ndarray :=
  let '(m1, m2, mu) := key in
  getitem arr_out [All; At mu; All] ;;;
  a <- getitem arr_1 [All; At m1; All; NewAxis] ;;
  b <- getitem arr_2 [All; At m2; NewAxis; All] ;;
  ab <- mul a b ;;
  c <- dict_get triple_eqb cg_coeffs (m1, m2, mu) ;;
  v <- reshape (mul_scalar ab c) [Z.of_nat n_i; Z.of_nat (n_p * n_q)] ;;
  iadd_at arr_out [All; At mu; All] v.

(** The function returns [None] where the Python function falls off its
    end.  The second operand is only ever used as a numpy array. *)
Definition _sparse_combine (arr_1 : array) (arr_2 : ndarray) (lam : Z)
           (cg_cache : cg_cache sparse_table) (return_empty_array : bool)
  : result (option ndarray) :=
  match arr_1 with
  | NdArray arr_1 =>
      (* Samples dimensions must be the same *)
      s1 <- shape_at arr_1 0 ;;
      s2 <- shape_at arr_2 0 ;;
      assert (s1 =? s2) ;;;
      (* Define other useful dimensions *)
      n_i <- shape_at arr_1 0 ;;
      n_p <- shape_at arr_1 2 ;;
      n_q <- shape_at arr_2 2 ;;
      (* Infer l1 and l2 from the length of axis 1 of each tensor *)
      c1 <- shape_at arr_1 1 ;;
      let l1 := infer_l c1 in
      c2 <- shape_at arr_2 1 ;;
      let l2 := infer_l c2 in
      (* Initialise output array *)
      arr_out <- zeros [Z.of_nat n_i; 2 * lam + 1; Z.of_nat (n_p * n_q)]%Z ;;
      if return_empty_array then Ok (Some arr_out)
      else
        (* Get the corresponding Clebsch-Gordan coefficients *)
        cg_coeffs <- dict_get triple_eqb (coeffs cg_cache) (l1, l2, lam) ;;
        (* Fill in each mu component of the output array in turn *)
        arr_out <- for_each (dict_keys cg_coeffs)
                      (sparse_step arr_1 arr_2 cg_coeffs n_i n_p n_q) arr_out ;;
        Ok (Some arr_out)
  | TorchTensor _ => Ok None
  | Other => Raise (TypeError UNKNOWN_ARRAY_TYPE)
  end.

Definition _dense_combine (arr_1 : array) (arr_2 : ndarray) (lam : Z)
           (cg_cache : cg_cache ndarray)
  : result (option ndarray) :=
  match arr_1 with
  | NdArray arr_1 =>
      (* Infer l1 and l2 from the length of axis 1 of each tensor *)
      c1 <- shape_at arr_1 1 ;;
      let l1 := infer_l c1 in
      c2 <- shape_at arr_2 1 ;;
      let l2 := infer_l c2 in
      cg_coeffs <- dict_get triple_eqb (coeffs cg_cache) (l1, l2, lam) ;;
      (* (samples None None l1_mu q) * (samples l2_mu p None None)
         -> (samples l2_mu p l1_mu q) *)
      a <- getitem arr_1 [All; NewAxis; NewAxis; All; All] ;;
      b <- getitem arr_2 [All; All; All; NewAxis; NewAxis] ;;
      arr_out <- mul a b ;;
      (* (samples l2_mu p l1_mu q) -> (samples q p l1_mu l2_mu) *)
      arr_out <- swapaxes arr_out 1 4 ;;
      (* samples (q p l1_mu l2_mu) -> (samples (q p) (l1_mu l2_mu)) *)
      q1 <- shape_at arr_1 2 ;;
      q2 <- shape_at arr_2 2 ;;
      k1 <- shape_at arr_1 1 ;;
      k2 <- shape_at arr_2 1 ;;
      arr_out <- reshape arr_out [-1; Z.of_nat (q1 * q2); Z.of_nat (k1 * k2)]%Z ;;
      (* (l1_mu l2_mu lam_mu) -> ((l1_mu l2_mu) lam_mu) *)
      cg_coeffs <- reshape cg_coeffs [-1; 2 * lam + 1]%Z ;;
      (* (samples (q p) (l1_mu l2_mu)) @ ((l1_mu l2_mu) lam_mu)
         -> samples (q p) lam_mu *)
      arr_out <- matmul arr_out cg_coeffs ;;
      (* (samples (q p) lam_mu) -> (samples lam_mu (q p)) *)
      r <- swapaxes arr_out 1 2 ;;
      Ok (Some r)
  | TorchTensor _ => Ok None
  | Other => Raise (TypeError UNKNOWN_ARRAY_TYPE)
  end.

End Dispatch.

Import Dispatch.

(** ** equistore: labels, blocks and tensor maps

    The classes of [equistore.core] are used by the power spectrum but are
    not part of the files at hand.  The constructor of a block checks the
    shape of the values against the labels, and every block satisfies that
    invariant; labels and tensor maps are plain records, the checks of
    their constructors are not modelled. *)

Module Labels.

(** [names] are the column names, [values] the rows of the 2-D integer
    array of the labels. *)
Record t : Type := mk { names : list string; values : list (list Z) }.

(** [len(labels)] *)
Definition len (l : t) : nat := length (values l).

(** [Labels.empty(names)] *)
Definition empty (names : list string) : t := mk names [].

Definition row_eqb (r r' : list Z) : bool :=
  if list_eq_dec Z.eq_dec r r' then true else false.

Definition names_eqb (n n' : list string) : bool :=
  if list_eq_dec string_dec n n' then true else false.

(** [labels == other] *)
Definition eqb (l l' : t) : bool :=
  names_eqb (names l) (names l')
  && (if list_eq_dec (list_eq_dec Z.eq_dec) (values l) (values l')
      then true else false).

Fixpoint position {A : Type} (eqb : A -> A -> bool) (x : A) (l : list A)
  : option nat :=
  match l with
  | [] => None
  | y :: l' => if eqb y x then Some 0 else option_map S (position eqb x l')
  end.

(** [labels[name]]: the column called [name]. *)
Definition column (l : t) (name : string) : result (list Z) :=
  match position String.eqb name (names l) with
  | Some c => Ok (map (fun row => nth c row 0%Z) (values l))
  | None => Raise (ValueError "no field of this name")
  end.

(** The rows of [rows] in order, each kept at its first occurrence. *)
Definition dedup (rows : list (list Z)) : list (list Z) :=
  fold_left
    (fun u r => if existsb (row_eqb r) u then u else u ++ [r])
    rows [].

Definition positions_in (u rows : list (list Z)) : list Z :=
  map (fun r => match position row_eqb r u with
                | Some k => Z.of_nat k
                | None => (-1)%Z
                end) rows.

(** Modelled from the spec: [Labels.union_and_mapping] of equistore, which
    is not part of the files at hand.  The union holds the rows of the
    first set in their order, then the rows of the second set that are not
    yet present, in their order; the two mappings give for each row of the
    first and of the second set its position in the union.  Both sets have
    to use the same names. *)
Definition union_and_mapping (s1 s2 : t) : result (t * list Z * list Z) :=
  if names_eqb (names s1) (names s2)
  then
    let u := dedup (values s1 ++ values s2) in
    Ok (mk (names s1) u, positions_in u (values s1), positions_in u (values s2))
  else Raise (EquistoreError "can not take the union of labels with different names").

End Labels.

Module TensorBlock.

(** The invariant of a block, which its constructor checks: the shape of
    the values is the number of samples, then the length of each
    component, then the number of properties. *)
Definition shape_matches (values : ndarray) (samples : Labels.t)
           (components : list Labels.t) (properties : Labels.t) : bool :=
  if list_eq_dec Nat.eq_dec (shape values)
       (Labels.len samples :: map Labels.len components ++ [Labels.len properties])
  then true else false.

(** A block; each gradient is itself a block (without gradients).  Every
    block went through the constructor, so that it satisfies the
    invariant. *)
#[local] Unset Elimination Schemes.
Inductive t : Type :=
  mk { values : ndarray;
       samples : Labels.t;
       components : list Labels.t;
       properties : Labels.t;
       gradients : list (string * t);
       shape_ok : shape_matches values samples components properties = true }.

(** [TensorBlock(values=..., samples=..., components=..., properties=...)];
    the constructor fails when the shape of the values does not match the
    labels. *)
Definition new (values : ndarray) (samples : Labels.t)
           (components : list Labels.t) (properties : Labels.t) : result t :=
  match bool_dec (shape_matches values samples components properties) true with
  | left ok => Ok (mk values samples components properties [] ok)
  | right _ =>
      Raise (EquistoreError "the shape of the values does not match the labels")
  end.

(** The block [b] with other gradients. *)
Definition with_gradients (b : t) (gradients : list (string * t)) : t :=
  mk (values b) (samples b) (components b) (properties b) gradients (shape_ok b).

(** [block.gradients_list()] *)
Definition gradients_list (b : t) : list string := map fst (gradients b).

(** [block.gradient(parameter)] *)
Definition gradient (b : t) (parameter : string) : result t :=
  match dict_get String.eqb (gradients b) parameter with
  | Ok g => Ok g
  | Raise _ => Raise (EquistoreError "can not find gradients with respect to this parameter")
  end.

(** [block.add_gradient(parameter, gradient)]; the block is updated in
    place, the model returns the updated block. *)
Definition add_gradient (b : t) (parameter : string) (g : t) : result t :=
  match dict_get String.eqb (gradients b) parameter with
  | Ok _ => Raise (EquistoreError "gradient with respect to this parameter already exists")
  | Raise _ =>
      Ok (with_gradients b (gradients b ++ [(parameter, g)]))
  end.

End TensorBlock.

Module TensorMap.

Record t : Type := mk { keys : Labels.t; blocks : list TensorBlock.t }.

(** [tensor.property_names] *)
Definition property_names (m : t) : list string :=
  match blocks m with
  | [] => []
  | b :: _ => Labels.names (TensorBlock.properties b)
  end.

(** [tensor.items()]: the keys with their blocks. *)
Definition items (m : t) : list (list Z * TensorBlock.t) :=
  combine (Labels.values (keys m)) (blocks m).

(** Does the key [key] carry the value [v] in the column called [name]? *)
Definition key_matches (names : list string) (key : list Z)
           (sel : string * Z) : bool :=
  match Labels.position String.eqb (fst sel) names with
  | Some c => (nth c key 0 =? snd sel)%Z
  | None => false
  end.

(** [tensor.blocks(name_1=v_1, name_2=v_2, ...)]: all blocks whose key
    matches the selection; the call fails when there is none. *)
Definition blocks_matching (m : t) (selection : list (string * Z))
  : result (list TensorBlock.t) :=
  if forallb (fun sel =>
                match Labels.position String.eqb (fst sel) (Labels.names (keys m)) with
                | Some _ => true
                | None => false
                end) selection
  then
    match filter (fun kb => forallb (key_matches (Labels.names (keys m)) (fst kb)) selection)
                 (items m) with
    | [] => Raise (ValueError "could not find any block matching the selection")
    | matching => Ok (map snd matching)
    end
  else Raise (EquistoreError "selection uses a name that is not part of the keys").

(** The argument of [keys_to_properties]: names or labels. *)
Inductive keys_to_move : Type :=
| ByName (name : string)
| ByLabels (l : Labels.t).

End TensorMap.

(** ** [rascaline/utils/power_spectrum.py] *)

Module PowerSpectrum.

(** [np.unique] of a one-dimensional integer array: the sorted distinct
    values. *)
Fixpoint insert_unique (x : Z) (l : list Z) : list Z :=
  match l with
  | [] => [x]
  | y :: l' =>
      if (x <? y)%Z then x :: l
      else if (x =? y)%Z then l
      else y :: insert_unique x l'
  end.

Definition np_unique (l : list Z) : list Z :=
  fold_right insert_unique [] l.

(** [1 / sqrt(2 * ell + 1)]; [math.sqrt] raises on a negative argument. *)
Definition inv_sqrt_factor (ell : Z) : result R :=
  if (2 * ell + 1 <? 0)%Z then Raise (ValueError "math domain error")
  else Ok (1 / sqrt (IZR (2 * ell + 1)))%R.

Section Compute.

(** The systems handed to the calculators, and
    [TensorMap.keys_to_properties] of equistore: both live outside the
    files at hand and are left abstract. *)
Variable Systems : Type.
Variable keys_to_properties :
  TensorMap.t -> TensorMap.keys_to_move -> result TensorMap.t.

(** A calculator ([CalculatorBase]): its name, its hyper-parameters (the
    JSON document [parameters], of which the integer entries are
    modelled, already parsed) and its [compute] method. *)
Record Calculator : Type :=
  mk_Calculator {
      c_name : string;
      parameters : dict string Z;
      calc_compute :
        Systems -> option (list string) -> bool -> result TensorMap.t }.

Record t : Type :=
  mk { calculator_1 : Calculator; calculator_2 : option Calculator }.

Definition supported_calculators : list string :=
  ["lode_spherical_expansion"; "spherical_expansion"]%string.

Definition is_supported (name : string) : bool :=
  existsb (String.eqb name) supported_calculators.

(** [PowerSpectrum.__init__] *)
Definition __init__ (calculator_1 : Calculator)
           (calculator_2 : option Calculator) : result t :=
  let self := mk calculator_1 calculator_2 in
  if negb (is_supported (c_name calculator_1)) then
    Raise (ValueError
             "Only lode_spherical_expansion,spherical_expansion are supported for calculator_1!")
  else
    match calculator_2 with
    | Some calculator_2 =>
        if negb (is_supported (c_name calculator_2)) then
          Raise (ValueError
                   "Only lode_spherical_expansion,spherical_expansion are supported for calculator_2!")
        else
          max_angular_1 <- dict_get String.eqb (parameters calculator_1) "max_angular"%string ;;
          max_angular_2 <- dict_get String.eqb (parameters calculator_2) "max_angular"%string ;;
          if negb (max_angular_1 =? max_angular_2)%Z then
            Raise (ValueError "'max_angular' of both calculators must be the same!")
          else Ok self
    | None => Ok self
    end.

(** [_positions_gradients(new_block, block_1, block_2, factor)]; the
    updated [new_block] is returned. *)
Definition _positions_gradients (new_block block_1 block_2 : TensorBlock.t)
           (factor : R) : result TensorBlock.t :=
  gradient_1 <- TensorBlock.gradient block_1 "positions" ;;
  gradient_2 <- TensorBlock.gradient block_2 "positions" ;;
  let n_properties := Z.of_nat (Labels.len (TensorBlock.properties new_block)) in
  sv <-
    (if (Labels.len (TensorBlock.samples gradient_1) =? 0)
        || (Labels.len (TensorBlock.samples gradient_2) =? 0)
     then
       let gradients_samples := Labels.empty ["sample"; "structure"; "atom"]%string in
       gradient_values <- reshape (mk_ndarray [0] []) [0; 1; n_properties]%Z ;;
       Ok (gradients_samples, gradient_values)
     else
       (* the new samples are the union of the two gradient samples *)
       u <- Labels.union_and_mapping (TensorBlock.samples gradient_1)
                                     (TensorBlock.samples gradient_2) ;;
       let '(gradients_samples, grad1_sample_idxs, grad2_sample_idxs) := u in
       gradient_values <-
         zeros [Z.of_nat (length (Labels.values gradients_samples)); 3; n_properties]%Z ;;
       (* this is equivalent to an einsum with: ixma, imb -> ixab *)
       g1 <- swapaxes (TensorBlock.values gradient_1) 2 3 ;;
       sample_1 <- Labels.column (TensorBlock.samples gradient_1) "sample" ;;
       b2 <- take (TensorBlock.values block_2) sample_1 ;;
       b2 <- getitem b2 [All; NewAxis] ;;
       m1 <- matmul g1 b2 ;;
       let gradient_1_values := scalar_mul factor m1 in
       take gradient_values grad1_sample_idxs ;;;
       r1 <- reshape gradient_1_values
               [Z.of_nat (length (Labels.values (TensorBlock.samples gradient_1))); 3; -1]%Z ;;
       gradient_values <- iadd_take gradient_values grad1_sample_idxs r1 ;;
       (* this is equivalent to an einsum with: ima, ixmb -> ixab *)
       sample_2 <- Labels.column (TensorBlock.samples gradient_2) "sample" ;;
       b1 <- take (TensorBlock.values block_1) sample_2 ;;
       b1 <- getitem b1 [All; NewAxis] ;;
       b1 <- swapaxes b1 2 3 ;;
       m2 <- matmul b1 (TensorBlock.values gradient_2) ;;
       let gradient_values_2 := scalar_mul factor m2 in
       take gradient_values grad2_sample_idxs ;;;
       r2 <- reshape gradient_values_2
               [Z.of_nat (length (Labels.values (TensorBlock.samples gradient_2))); 3; -1]%Z ;;
       gradient_values <- iadd_take gradient_values grad2_sample_idxs r2 ;;
       Ok (gradients_samples, gradient_values)) ;;
  let '(gradients_samples, gradient_values) := sv in
  component <- list_get (TensorBlock.components gradient_1) 0 ;;
  gradient <- TensorBlock.new gradient_values gradients_samples [component]
                              (TensorBlock.properties new_block) ;;
  TensorBlock.add_gradient new_block "positions" gradient.

(** The rows of the output properties:
    [[properties_1.tolist() + properties_2.tolist()
      for properties_1 in block_1.properties.values
      for properties_2 in block_2.properties.values]] *)
Definition product_rows (rows_1 rows_2 : list (list Z)) : list (list Z) :=
  flat_map (fun properties_1 =>
              map (fun properties_2 => properties_1 ++ properties_2) rows_2)
           rows_1.

(** The first part of the body of the inner loop of [compute]: the block
    built from [block_1] and [block_2], before its gradients. *)
Definition invariant_block (factor : R) (block_1 block_2 : TensorBlock.t)
  : result TensorBlock.t :=
  (* Make sure that samples are the same. This should not happen. *)
  assert (Labels.eqb (TensorBlock.samples block_1) (TensorBlock.samples block_2)) ;;;
  let properties :=
    Labels.mk ["species_neighbor_1"; "n1"; "species_neighbor_2"; "n2"]%string
              (product_rows (Labels.values (TensorBlock.properties block_1))
                            (Labels.values (TensorBlock.properties block_2))) in
  (* Compute the invariants by summation and store the results; this is
     equivalent to an einsum with: ima, imb -> iab *)
  v1 <- swapaxes (TensorBlock.values block_1) 1 2 ;;
  m <- matmul v1 (TensorBlock.values block_2) ;;
  let data := scalar_mul factor m in
  n <- shape_at data 0 ;;
  values <- reshape data [Z.of_nat n; -1]%Z ;;
  TensorBlock.new values (TensorBlock.samples block_1) [] properties.

(** The body of the inner loop of [compute]: the new block with the
    gradients that [block_1] carries. *)
Definition combine_blocks (factor : R) (block_1 block_2 : TensorBlock.t)
  : result TensorBlock.t :=
  new_block <- invariant_block factor block_1 block_2 ;;
  for_each (TensorBlock.gradients_list block_1)
    (fun parameter new_block =>
       if String.eqb parameter "positions"
       then _positions_gradients new_block block_1 block_2 factor
       else Ok new_block)
    new_block.

Definition expected_key_names : list string :=
  ["spherical_harmonics_l"; "species_center"; "species_neighbor"]%string.

(** The first part of [compute] for one calculator: run it, check the
    names, move [species_neighbor] from the keys to the properties. *)
Definition spherical_expansion (calculator : Calculator) (systems : Systems)
           (gradients : option (list string)) (use_native_system : bool)
  : result TensorMap.t :=
  expansion <- calc_compute calculator systems gradients use_native_system ;;
  assert (Labels.names_eqb (Labels.names (TensorMap.keys expansion)) expected_key_names) ;;;
  assert (Labels.names_eqb (TensorMap.property_names expansion) ["n"]%string) ;;;
  species_neighbor <- Labels.column (TensorMap.keys expansion) "species_neighbor" ;;
  let keys_to_move :=
    Labels.mk ["species_neighbor"]%string
              (map (fun v => [v]) (np_unique species_neighbor)) in
  keys_to_properties expansion (TensorMap.ByLabels keys_to_move).

(** [PowerSpectrum.compute] *)
Definition compute (self : t) (systems : Systems)
           (gradients : option (list string)) (use_native_system : bool)
  : result TensorMap.t :=
  match gradients with
  | Some gradients =>
      for_each gradients
        (fun parameter _ =>
           if negb (String.eqb parameter "positions")
           then Raise (NotImplementedError
                  "PowerSpectrum currently only supports gradients w.r.t. to positions")
           else Ok tt) tt
  | None => Ok tt
  end ;;;
  spherical_expansion_1 <-
    spherical_expansion (calculator_1 self) systems gradients use_native_system ;;
  spherical_expansion_2 <-
    match calculator_2 self with
    | None => Ok spherical_expansion_1
    | Some calculator_2 =>
        spherical_expansion calculator_2 systems gradients use_native_system
    end ;;
  kb <- for_each (TensorMap.items spherical_expansion_1)
          (fun item kb =>
             let '(key, block_1) := item in
             match key with
             | [ell; species_center] =>
                 factor <- inv_sqrt_factor ell ;;
                 (* the blocks with the same spherical_harmonics_l and
                    species_center *)
                 blocks_2 <- TensorMap.blocks_matching spherical_expansion_2
                               [("spherical_harmonics_l"%string, ell);
                                ("species_center"%string, species_center)] ;;
                 for_each blocks_2
                   (fun block_2 kb =>
                      new_block <- combine_blocks factor block_1 block_2 ;;
                      Ok (fst kb ++ [[ell; species_center]], snd kb ++ [new_block]))
                   kb
             | _ => Raise (ValueError "wrong number of values to unpack")
             end)
          ([], []) ;;
  let keys := Labels.mk ["l"; "species_center"]%string (fst kb) in
  keys_to_properties (TensorMap.mk keys (snd kb)) (TensorMap.ByName "l").

End Compute.

End PowerSpectrum.


(** ** Vocabulary of the statements *)

(** The coefficient a sparse table holds for a key, zero for an absent key. *)
Definition coeff (S : sparse_table) (k : triple) : R :=
  match dict_get triple_eqb S k with
  | Ok c => c
  | Raise _ => 0%R
  end.

(** The keys [(m1, m2, mu)] of a sparse table are positions on the component
    axes of the two inputs and of the output. *)
Definition key_in_range (M1 M2 L : nat) (k : triple) : Prop :=
  let '(m1, m2, mu) := k in
  (0 <= m1 < Z.of_nat M1)%Z /\ (0 <= m2 < Z.of_nat M2)%Z
  /\ (0 <= mu < Z.of_nat L)%Z.

(** What the key [k] of the table [S] adds to the output element
    [(i, mu, (p, q))]. *)
Definition sparse_term (arr_1 arr_2 : ndarray) (S : sparse_table)
           (i mu p q : nat) (k : triple) : R :=
  let '(m1, m2, mu') := k in
  if mu =? Z.to_nat mu'
  then (item arr_1 [i; Z.to_nat m1; p] * item arr_2 [i; Z.to_nat m2; q] * coeff S k)%R
  else 0%R.

Definition sum_list (l : list R) : R := fold_right Rplus 0%R l.

(** The dense table [D] holds the coefficients of the sparse table [S], and
    zero where [S] has no entry; [D] is read in row-major order over
    [(m1, m2, mu)]. *)
Definition tables_agree (M1 M2 L : nat) (S : sparse_table) (D : ndarray) : Prop :=
  NoDup (dict_keys S)
  /\ Forall (key_in_range M1 M2 L) (dict_keys S)
  /\ size (shape D) = M1 * M2 * L
  /\ forall m1 m2 mu, m1 < M1 -> m2 < M2 -> mu < L ->
       nth ((m1 * M2 + m2) * L + mu) (data D) 0%R
       = coeff S (Z.of_nat m1, Z.of_nat m2, Z.of_nat mu).

(** The calculator [c] with other hyper-parameters. *)
Definition with_parameters {Systems : Type}
           (c : PowerSpectrum.Calculator Systems) (p : dict string Z)
  : PowerSpectrum.Calculator Systems :=
  PowerSpectrum.mk_Calculator (PowerSpectrum.c_name c) p
                              (PowerSpectrum.calc_compute c).

(** The parent sample a row of gradient samples refers to: the entry of the
    column ["sample"] at the row [g]. *)
Definition sample_of (column : list Z) (g : nat) : nat :=
  Z.to_nat (nth g column 0%Z).

(** The two terms of the product rule at the gradient rows [g] of the first
    and of the second block, direction [x], properties [(p1, p2)]:
    [factor * sum_m d arr_1[g, x, m, p1] * arr_2[sample, m, p2]] and
    [factor * sum_m arr_1[sample, m, p1] * d arr_2[g, x, m, p2]]. *)
Definition gradient_term_1 (factor : R) (M : nat) (d_arr_1 arr_2 : ndarray)
           (sample_1 : list Z) (g x p1 p2 : nat) : R :=
  (factor * sum_upto M (fun m =>
              item d_arr_1 [g; x; m; p1]
              * item arr_2 [sample_of sample_1 g; m; p2]))%R.

Definition gradient_term_2 (factor : R) (M : nat) (arr_1 d_arr_2 : ndarray)
           (sample_2 : list Z) (g x p1 p2 : nat) : R :=
  (factor * sum_upto M (fun m =>
              item arr_1 [sample_of sample_2 g; m; p1]
              * item d_arr_2 [g; x; m; p2]))%R.

(** The contribution of a term to the row [row] of the union: the term at
    the position of [row] in [rows], nothing if [row] is not one of them. *)
Definition term_at (rows : list (list Z)) (row : list Z) (term : nat -> R) : R :=
  match Labels.position Labels.row_eqb row rows with
  | Some g => term g
  | None => 0%R
  end.

(** ** Concrete inputs *)

Module Examples.

(** [np.arange(6.).reshape(2, 3)] *)
Definition arange_2_3 : ndarray := mk_ndarray [2; 3] [0; 1; 2; 3; 4; 5]%R.

(** Two samples, [l1 = 1], two properties. *)
Definition arr_1 : ndarray :=
  mk_ndarray [2; 3; 2] [1; 2; 3; 4; 5; 6; 7; 8; 9; 10; 11; 12]%R.

(** Two samples, [l2 = 0], one property. *)
Definition arr_2 : ndarray := mk_ndarray [2; 1; 1] [2; 3]%R.

(** The coupling of [l1 = 1] with [l2 = 0] to [lam = 1], as a sparse
    table and as a dense array. *)
Definition sparse_110 : sparse_table :=
  [((0, 0, 0)%Z, 1%R); ((1, 0, 1)%Z, 1%R); ((2, 0, 2)%Z, 1%R)].

Definition dense_110 : ndarray :=
  mk_ndarray [3; 1; 3] [1; 0; 0; 0; 1; 0; 0; 0; 1]%R.

Definition sparse_cache : cg_cache sparse_table :=
  mk_cg_cache [((1, 0, 1)%Z, sparse_110)].

Definition dense_cache : cg_cache ndarray :=
  mk_cg_cache [((1, 0, 1)%Z, dense_110)].

(** Caches without any entry. *)
Definition no_sparse : cg_cache sparse_table := mk_cg_cache [].
Definition no_dense : cg_cache ndarray := mk_cg_cache [].

(** One sample against two samples, [l1 = l2 = lam = 0]. *)
Definition one_sample : ndarray := mk_ndarray [1; 1; 1] [5]%R.
Definition two_samples : ndarray := mk_ndarray [2; 1; 1] [2; 3]%R.

Definition sparse_000 : cg_cache sparse_table :=
  mk_cg_cache [((0, 0, 0)%Z, [((0, 0, 0)%Z, 1%R)])].

Definition dense_000 : cg_cache ndarray :=
  mk_cg_cache [((0, 0, 0)%Z, mk_ndarray [1; 1; 1] [1%R])].

End Examples.

(** Blocks of the channel [l = 1] for the power spectrum: two samples, two
    and one properties, and gradients with respect to the positions. *)
Module ExampleBlocks.

Definition samples : Labels.t :=
  Labels.mk ["structure"; "center"]%string [[0; 0]; [0; 1]]%Z.

Definition components_m : Labels.t :=
  Labels.mk ["spherical_harmonics_m"]%string [[-1]; [0]; [1]]%Z.

Definition direction : Labels.t :=
  Labels.mk ["direction"]%string [[0]; [1]; [2]]%Z.

Definition properties_1 : Labels.t :=
  Labels.mk ["species_neighbor"; "n"]%string [[1; 0]; [1; 1]]%Z.

Definition properties_2 : Labels.t :=
  Labels.mk ["species_neighbor"; "n"]%string [[8; 0]]%Z.

Definition gradient_names : list string := ["sample"; "structure"; "atom"]%string.

(** Gradient samples: (sample, structure, atom). *)
Definition gradient_1 : TensorBlock.t :=
  TensorBlock.mk
    (mk_ndarray [2; 3; 3; 2]
       [1; 0; 0; 1; 2; 0;   0; 1; 1; 0; 0; 2;   1; 1; 0; 0; 2; 1;
        0; 2; 1; 0; 1; 1;   2; 0; 0; 1; 1; 0;   1; 0; 2; 1; 0; 1]%R)
    (Labels.mk gradient_names [[0; 0; 0]; [1; 0; 1]]%Z)
    [direction; components_m] properties_1 [] eq_refl.

Definition gradient_2 : TensorBlock.t :=
  TensorBlock.mk
    (mk_ndarray [2; 3; 3; 1]
       [1; 0; 2;   0; 1; 0;   2; 1; 0;
        0; 1; 1;   1; 0; 0;   0; 2; 1]%R)
    (Labels.mk gradient_names [[0; 0; 0]; [0; 0; 1]]%Z)
    [direction; components_m] properties_2 [] eq_refl.

(** A gradient without any sample. *)
Definition gradient_empty : TensorBlock.t :=
  TensorBlock.mk (mk_ndarray [0; 3; 3; 1] [])
    (Labels.mk gradient_names []) [direction; components_m] properties_2
    [] eq_refl.

Definition values_1 : ndarray :=
  mk_ndarray [2; 3; 2] [1; 2; 3; 4; 5; 6; 7; 8; 9; 10; 11; 12]%R.

Definition values_2 : ndarray :=
  mk_ndarray [2; 3; 1] [1; 0; 2; 0; 1; 1]%R.

Definition block_1 : TensorBlock.t :=
  TensorBlock.mk values_1 samples [components_m] properties_1
                 [("positions"%string, gradient_1)] eq_refl.

Definition block_2 : TensorBlock.t :=
  TensorBlock.mk values_2 samples [components_m] properties_2
                 [("positions"%string, gradient_2)] eq_refl.

Definition block_2_empty_gradient : TensorBlock.t :=
  TensorBlock.mk values_2 samples [components_m] properties_2
                 [("positions"%string, gradient_empty)] eq_refl.

(** The same blocks without gradients. *)
Definition plain_1 : TensorBlock.t :=
  TensorBlock.mk values_1 samples [components_m] properties_1 [] eq_refl.

Definition plain_2 : TensorBlock.t :=
  TensorBlock.mk values_2 samples [components_m] properties_2 [] eq_refl.

End ExampleBlocks.

(** Two calculators that differ in ['max_angular'], over systems that are
    left out. *)
Module ExampleCalculators.

Definition no_blocks : TensorMap.t :=
  TensorMap.mk
    (Labels.mk ["spherical_harmonics_l"; "species_center"; "species_neighbor"]%string [])
    [].

Definition short_range : PowerSpectrum.Calculator unit :=
  PowerSpectrum.mk_Calculator "spherical_expansion"
    [("max_radial"%string, 6%Z); ("max_angular"%string, 2%Z)]
    (fun _ _ _ => Ok no_blocks).

Definition long_range : PowerSpectrum.Calculator unit :=
  PowerSpectrum.mk_Calculator "lode_spherical_expansion"
    [("max_radial"%string, 6%Z); ("max_angular"%string, 3%Z)]
    (fun _ _ _ => Ok no_blocks).

Definition keys_to_properties (m : TensorMap.t) (_ : TensorMap.keys_to_move)
  : result TensorMap.t := Ok m.

End ExampleCalculators.

(** ** Further vocabulary *)

(** The position that the Python index [i] addresses on an axis of length
    [n]: [i] itself, or [i + n] for a negative [i]. *)
Definition wrap_index (i : Z) (n : nat) : nat :=
  match normalize_index i n with
  | Ok k => k
  | Raise _ => 0
  end.

(** The Python index [i] is accepted on an axis of length [n]. *)
Definition index_ok (i : Z) (n : nat) : Prop :=
  (- Z.of_nat n <= i < Z.of_nat n)%Z.

(** The keys [(m1, m2, mu)] of a sparse table are accepted as indices on the
    component axes of the two inputs and of the output. *)
Definition key_ok (M1 M2 L : nat) (k : triple) : Prop :=
  let '(m1, m2, mu) := k in
  index_ok m1 M1 /\ index_ok m2 M2 /\ index_ok mu L.

(** What the key [k] of the table [S] adds to the output element
    [(i, mu, (p, q))], negative entries of the key counting from the end of
    their axis. *)
Definition sparse_term_wrapped (M1 M2 L : nat) (arr_1 arr_2 : ndarray)
           (S : sparse_table) (i mu p q : nat) (k : triple) : R :=
  let '(m1, m2, mu') := k in
  if mu =? wrap_index mu' L
  then (item arr_1 [i; wrap_index m1 M1; p]
        * item arr_2 [i; wrap_index m2 M2; q] * coeff S k)%R
  else 0%R.

(** The array of shape [sh] filled with zeros. *)
Definition zero_array (sh : list nat) : ndarray :=
  mk_ndarray sh (repeat 0%R (size sh)).

Module MoreExamples.

(** The table of [Examples.sparse_110] with its keys counted from the end
    of each axis. *)
Definition sparse_110_negative : sparse_table :=
  [((-3, -1, -3)%Z, 1%R); ((-2, 0, 1)%Z, 1%R); ((2, -1, -1)%Z, 1%R)].

Definition sparse_cache_negative : cg_cache sparse_table :=
  mk_cg_cache [((1, 0, 1)%Z, sparse_110_negative)].

(** A table with a key beyond the component axis of the output. *)
Definition sparse_110_beyond : sparse_table :=
  [((0, 0, 0)%Z, 1%R); ((1, 0, 3)%Z, 1%R)].

Definition sparse_cache_beyond : cg_cache sparse_table :=
  mk_cg_cache [((1, 0, 1)%Z, sparse_110_beyond)].

(** A table without any coefficient. *)
Definition sparse_cache_no_coefficient : cg_cache sparse_table :=
  mk_cg_cache [((1, 0, 1)%Z, [])].

(** A dense table that is too small for [l1 = 1], [l2 = 0], [lam = 1]. *)
Definition dense_cache_too_small : cg_cache ndarray :=
  mk_cg_cache [((1, 0, 1)%Z, mk_ndarray [2; 1; 3] [1; 0; 0; 0; 1; 0]%R)].

(** One sample with [l1 = 1] and two properties. *)
Definition single_sample : ndarray :=
  mk_ndarray [1; 3; 2] [1; 2; 3; 4; 5; 6]%R.

(** Three samples with [l2 = 0] and one property. *)
Definition three_samples : ndarray := mk_ndarray [3; 1; 1] [2; 3; 4]%R.

(** Two samples, [l1 = 1], no property. *)
Definition no_property : ndarray := mk_ndarray [2; 3; 0] [].

(** Two samples, [l2 = 0], no property. *)
Definition scalar_without_property : ndarray := mk_ndarray [2; 1; 0] [].

End MoreExamples.

(** The names [__init__] accepts for a calculator. *)
Definition supported_name (name : string) : Prop :=
  name = "lode_spherical_expansion"%string \/ name = "spherical_expansion"%string.

Definition is_positions (parameter : string) : bool :=
  String.eqb parameter "positions".

(** The names of the properties of an output block. *)
Definition power_spectrum_property_names : list string :=
  ["species_neighbor_1"; "n1"; "species_neighbor_2"; "n2"]%string.

(** The keys that [tensor.items()] runs over. *)
Definition item_keys (m : TensorMap.t) : list (list Z) :=
  map fst (TensorMap.items m).

(** Strictly increasing lists of integers. *)
Fixpoint increasing (l : list Z) : Prop :=
  match l with
  | [] => True
  | x :: l' => Forall (Z.lt x) l' /\ increasing l'
  end.

(** Further blocks and calculators for the power spectrum. *)
Module MoreBlocks.

(** Blocks without any sample. *)
Definition no_samples : Labels.t :=
  Labels.mk ["structure"; "center"]%string [].

Definition empty_1 : TensorBlock.t :=
  TensorBlock.mk (mk_ndarray [0; 3; 2] []) no_samples
                 [ExampleBlocks.components_m] ExampleBlocks.properties_1 [] eq_refl.

Definition empty_2 : TensorBlock.t :=
  TensorBlock.mk (mk_ndarray [0; 3; 1] []) no_samples
                 [ExampleBlocks.components_m] ExampleBlocks.properties_2 [] eq_refl.

(** The second block of [ExampleBlocks] on other samples. *)
Definition other_samples : Labels.t :=
  Labels.mk ["structure"; "center"]%string [[0; 0]; [1; 0]]%Z.

Definition plain_2_elsewhere : TensorBlock.t :=
  TensorBlock.mk ExampleBlocks.values_2 other_samples
                 [ExampleBlocks.components_m] ExampleBlocks.properties_2 [] eq_refl.

(** Blocks whose gradients are taken along a single direction; the second
    one has no gradient sample. *)
Definition one_direction : Labels.t := Labels.mk ["direction"]%string [[0]]%Z.

Definition gradient_1_one_direction : TensorBlock.t :=
  TensorBlock.mk
    (mk_ndarray [2; 1; 3; 2] [1; 0; 0; 1; 2; 0;   0; 2; 1; 0; 1; 1]%R)
    (Labels.mk ExampleBlocks.gradient_names [[0; 0; 0]; [1; 0; 1]]%Z)
    [one_direction; ExampleBlocks.components_m] ExampleBlocks.properties_1
    [] eq_refl.

Definition gradient_empty_one_direction : TensorBlock.t :=
  TensorBlock.mk (mk_ndarray [0; 1; 3; 1] [])
    (Labels.mk ExampleBlocks.gradient_names [])
    [one_direction; ExampleBlocks.components_m] ExampleBlocks.properties_2
    [] eq_refl.

Definition block_1_one_direction : TensorBlock.t :=
  TensorBlock.mk ExampleBlocks.values_1 ExampleBlocks.samples
                 [ExampleBlocks.components_m] ExampleBlocks.properties_1
                 [("positions"%string, gradient_1_one_direction)] eq_refl.

Definition block_2_one_direction : TensorBlock.t :=
  TensorBlock.mk ExampleBlocks.values_2 ExampleBlocks.samples
                 [ExampleBlocks.components_m] ExampleBlocks.properties_2
                 [("positions"%string, gradient_empty_one_direction)] eq_refl.

(** A spherical expansion with one block: [l = 1], center species 6,
    neighbor species 1, two radial functions. *)
Definition radial : Labels.t := Labels.mk ["n"]%string [[0]; [1]]%Z.

Definition expansion : TensorMap.t :=
  TensorMap.mk
    (Labels.mk ["spherical_harmonics_l"; "species_center"; "species_neighbor"]%string
               [[1; 6; 1]]%Z)
    [TensorBlock.mk ExampleBlocks.values_1 ExampleBlocks.samples
                    [ExampleBlocks.components_m] radial [] eq_refl].

Definition calculator : PowerSpectrum.Calculator unit :=
  PowerSpectrum.mk_Calculator "spherical_expansion"
    [("max_radial"%string, 2%Z); ("max_angular"%string, 1%Z)]
    (fun _ _ _ => Ok expansion).

(** An expansion whose keys lack the neighbor species. *)
Definition expansion_without_neighbor : TensorMap.t :=
  TensorMap.mk
    (Labels.mk ["spherical_harmonics_l"; "species_center"]%string [[1; 6]]%Z)
    [TensorBlock.mk ExampleBlocks.values_1 ExampleBlocks.samples
                    [ExampleBlocks.components_m] radial [] eq_refl].

Definition calculator_without_neighbor : PowerSpectrum.Calculator unit :=
  PowerSpectrum.mk_Calculator "spherical_expansion"
    [("max_radial"%string, 2%Z); ("max_angular"%string, 1%Z)]
    (fun _ _ _ => Ok expansion_without_neighbor).

(** The block [b] with one more property column, [name], of value [v]. *)
Definition prepend_property (name : string) (v : Z) (b : TensorBlock.t)
  : result TensorBlock.t :=
  TensorBlock.new (TensorBlock.values b) (TensorBlock.samples b)
                  (TensorBlock.components b)
                  (Labels.mk (name :: Labels.names (TensorBlock.properties b))
                             (map (cons v) (Labels.values (TensorBlock.properties b)))).

(** [keys_to_properties] on the maps with a single block without
    gradients, where nothing is merged: the moved key (the last one for
    labels, the first one for a name) becomes the first property of the
    block.  Other maps are left out. *)
Definition keys_to_properties (m : TensorMap.t) (move : TensorMap.keys_to_move)
  : result TensorMap.t :=
  match Labels.values (TensorMap.keys m), TensorMap.blocks m, move with
  | [[l; center; neighbor]], [b], TensorMap.ByLabels (Labels.mk [name] [[v]]) =>
      if (v =? neighbor)%Z
      then
        b' <- prepend_property name neighbor b ;;
        Ok (TensorMap.mk
              (Labels.mk (removelast (Labels.names (TensorMap.keys m))) [[l; center]])
              [b'])
      else Raise (EquistoreError "left out")
  | [[l; center]], [b], TensorMap.ByName name =>
      b' <- prepend_property name l b ;;
      Ok (TensorMap.mk
            (Labels.mk (tl (Labels.names (TensorMap.keys m))) [[center]])
            [b'])
  | _, _, _ => Raise (EquistoreError "left out")
  end.

End MoreBlocks.
(** * Properties *)

Unset Implicit Arguments.

(** ** Python values *)

Lemma normalize_index_in_range (i : Z) (n : nat) :
  (0 <= i < Z.of_nat n)%Z -> normalize_index i n = Ok (Z.to_nat i).
Proof.
  intros H. unfold normalize_index.
  replace (0 <=? i)%Z with true by (symmetry; apply Z.leb_le; lia).
  replace (i <? Z.of_nat n)%Z with true by (symmetry; apply Z.ltb_lt; lia).
  reflexivity.
Qed.

Lemma normalize_index_of_nat (k n : nat) :
  k < n -> normalize_index (Z.of_nat k) n = Ok k.
Proof.
  intros H. rewrite normalize_index_in_range by lia. now rewrite Nat2Z.id.
Qed.


(** ** Multi-indices *)

Lemma size_cons (d : nat) (sh : list nat) : size (d :: sh) = d * size sh.
Proof. reflexivity. Qed.

Lemma in_range_length (sh idx : list nat) :
  in_range sh idx -> length idx = length sh.
Proof. apply Forall2_length. Qed.

Lemma ravel_lt (sh idx : list nat) :
  in_range sh idx -> ravel sh idx < size sh.
Proof.
  intros H. induction H as [|i d idx sh Hid _ IH]; simpl.
  - lia.
  - nia.
Qed.

Lemma unravel_ravel (sh idx : list nat) :
  in_range sh idx -> unravel sh (ravel sh idx) = idx.
Proof.
  intros H. induction H as [|i d idx sh Hid Hr IH]; simpl.
  - reflexivity.
  - pose proof (ravel_lt _ _ Hr) as Hlt.
    assert (Hq : (i * size sh + ravel sh idx) / size sh = i).
    { rewrite Nat.add_comm, Nat.div_add by lia.
      rewrite Nat.div_small by lia. reflexivity. }
    assert (Hm : (i * size sh + ravel sh idx) mod size sh = ravel sh idx).
    { rewrite Nat.add_comm, Nat.Div0.mod_add.
      apply Nat.mod_small. lia. }
    rewrite Hq, Hm, IH. reflexivity.
Qed.

Lemma unravel_in_range (sh : list nat) (k : nat) :
  k < size sh -> in_range sh (unravel sh k).
Proof.
  revert k. induction sh as [|d sh IH]; intros k Hk; simpl.
  - constructor.
  - rewrite size_cons in Hk.
    assert (Hpos : 0 < size sh) by nia.
    constructor.
    + apply Nat.Div0.div_lt_upper_bound. nia.
    + apply IH. apply Nat.mod_upper_bound. lia.
Qed.

Lemma ravel_unravel (sh : list nat) (k : nat) :
  k < size sh -> ravel sh (unravel sh k) = k.
Proof.
  revert k. induction sh as [|d sh IH]; intros k Hk; simpl.
  - simpl in Hk. lia.
  - rewrite size_cons in Hk.
    assert (Hpos : 0 < size sh) by nia.
    rewrite IH by (apply Nat.mod_upper_bound; lia).
    pose proof (Nat.div_mod_eq k (size sh)). nia.
Qed.

(** ** Arrays: elements of [tabulate], extensionality *)

Lemma wf_tabulate (sh : list nat) (f : list nat -> R) : wf (tabulate sh f).
Proof. unfold wf, tabulate; simpl. now rewrite length_map, length_seq. Qed.

Lemma item_tabulate (sh : list nat) (f : list nat -> R) (idx : list nat) :
  in_range sh idx -> item (tabulate sh f) idx = f idx.
Proof.
  intros H. unfold item, tabulate; simpl.
  pose proof (ravel_lt _ _ H) as Hlt.
  rewrite (nth_indep _ 0%R (f (unravel sh 0))) by now rewrite length_map, length_seq.
  rewrite (map_nth (fun k => f (unravel sh k)) (seq 0 (size sh)) 0).
  rewrite seq_nth by assumption. simpl.
  now rewrite unravel_ravel.
Qed.

Lemma ndarray_ext (a b : ndarray) :
  wf a -> wf b -> shape a = shape b ->
  (forall idx, in_range (shape a) idx -> item a idx = item b idx) ->
  a = b.
Proof.
  destruct a as [sa da], b as [sb db]. unfold wf, item; simpl.
  intros Ha Hb Hs Hi. subst sb. f_equal.
  apply (nth_ext _ _ 0%R 0%R); [congruence|].
  intros k Hk. rewrite Ha in Hk.
  specialize (Hi (unravel sa k) (unravel_in_range _ _ Hk)).
  now rewrite ravel_unravel in Hi.
Qed.

Lemma item_mul_scalar (a : ndarray) (c : R) (idx : list nat) :
  item (mul_scalar a c) idx = (item a idx * c)%R.
Proof.
  unfold item, mul_scalar; simpl.
  rewrite <- (Rmult_0_l c) at 1.
  apply (map_nth (fun x => (x * c)%R)).
Qed.

Lemma item_scalar_mul (c : R) (a : ndarray) (idx : list nat) :
  item (scalar_mul c a) idx = (c * item a idx)%R.
Proof.
  unfold item, scalar_mul; simpl.
  rewrite <- (Rmult_0_r c) at 1.
  apply (map_nth (fun x => (c * x)%R)).
Qed.

(** ** Broadcasting *)

Lemma broadcast_dim_same (d : nat) : broadcast_dim d d = Ok d.
Proof. unfold broadcast_dim. now rewrite Nat.eqb_refl. Qed.

Lemma broadcast_dim_1_l (d : nat) : broadcast_dim 1 d = Ok d.
Proof.
  unfold broadcast_dim. destruct (1 =? d) eqn:E.
  - apply Nat.eqb_eq in E. now subst.
  - reflexivity.
Qed.

Lemma broadcast_dim_1_r (d : nat) : broadcast_dim d 1 = Ok d.
Proof.
  unfold broadcast_dim. destruct (d =? 1) eqn:E.
  - reflexivity.
  - reflexivity.
Qed.

Lemma bcoord_lt (d i : nat) : i < d -> (if d =? 1 then 0 else i) = i.
Proof.
  intros H. destruct (d =? 1) eqn:E; [|reflexivity].
  apply Nat.eqb_eq in E. lia.
Qed.

(** ** Sums *)

Lemma sum_upto_S (n : nat) (f : nat -> R) :
  sum_upto (S n) f = (sum_upto n f + f n)%R.
Proof.
  unfold sum_upto. rewrite seq_S, fold_right_app. simpl.
  generalize (seq 0 n) as l. induction l as [|x l IH]; simpl.
  - ring.
  - rewrite IH. ring.
Qed.

Lemma sum_upto_ext (n : nat) (f g : nat -> R) :
  (forall t, t < n -> f t = g t) -> sum_upto n f = sum_upto n g.
Proof.
  induction n as [|n IH]; intros H; [reflexivity|].
  rewrite !sum_upto_S, IH, H by auto. reflexivity.
Qed.

Lemma sum_upto_0 (n : nat) : sum_upto n (fun _ => 0%R) = 0%R.
Proof.
  induction n as [|n IH]; [reflexivity|]. rewrite sum_upto_S, IH. ring.
Qed.

Lemma sum_upto_plus (n : nat) (f g : nat -> R) :
  sum_upto n (fun t => (f t + g t)%R) = (sum_upto n f + sum_upto n g)%R.
Proof.
  induction n as [|n IH]; [unfold sum_upto; simpl; ring|].
  rewrite !sum_upto_S, IH. ring.
Qed.

(** A sum with a single non-zero term. *)
Lemma sum_upto_single (n k : nat) (x : R) :
  k < n -> sum_upto n (fun t => if t =? k then x else 0%R) = x.
Proof.
  induction n as [|n IH]; intros H; [lia|].
  rewrite sum_upto_S. destruct (Nat.eq_dec k n) as [->|Hne].
  - rewrite Nat.eqb_refl.
    rewrite (sum_upto_ext n _ (fun _ => 0%R)).
    + rewrite sum_upto_0. ring.
    + intros t Ht. destruct (t =? n) eqn:E; [|reflexivity].
      apply Nat.eqb_eq in E. lia.
  - rewrite IH by lia. destruct (n =? k) eqn:E.
    + apply Nat.eqb_eq in E. congruence.
    + ring.
Qed.

Lemma sum_upto_add (s b : nat) (f : nat -> R) :
  sum_upto (s + b) f = (sum_upto s f + sum_upto b (fun j => f (s + j)%nat))%R.
Proof.
  induction b as [|b IHb].
  - rewrite Nat.add_0_r. unfold sum_upto at 3. simpl. ring.
  - replace (s + S b) with (S (s + b)) by lia.
    rewrite !sum_upto_S, IHb. ring.
Qed.

(** A sum over a flattened pair of indices is the double sum. *)
Lemma sum_upto_flatten (a b : nat) (f : nat -> R) :
  sum_upto (a * b) f
  = sum_upto a (fun i => sum_upto b (fun j => f (i * b + j))).
Proof.
  induction a as [|a IH].
  - reflexivity.
  - rewrite sum_upto_S, <- IH.
    replace (S a * b) with (a * b + b) by lia.
    apply sum_upto_add.
Qed.

(** ** Reshaping *)

Lemma filter_neg_of_nat (sh : list nat) :
  filter (fun d => d <? 0)%Z (map Z.of_nat sh) = [].
Proof.
  induction sh as [|d sh IH]; simpl; [reflexivity|].
  replace (Z.of_nat d <? 0)%Z with false by (symmetry; apply Z.ltb_ge; lia).
  exact IH.
Qed.

Lemma filter_nonneg_of_nat (sh : list nat) :
  filter (fun d => 0 <=? d)%Z (map Z.of_nat sh) = map Z.of_nat sh.
Proof.
  induction sh as [|d sh IH]; simpl; [reflexivity|].
  replace (0 <=? Z.of_nat d)%Z with true by (symmetry; apply Z.leb_le; lia).
  now rewrite IH.
Qed.

Lemma map_to_nat_of_nat (sh : list nat) : map Z.to_nat (map Z.of_nat sh) = sh.
Proof.
  induction sh as [|d sh IH]; simpl; [reflexivity|].
  now rewrite Nat2Z.id, IH.
Qed.


Lemma map_infer_of_nat (x : nat) (sh : list nat) :
  map (fun d => if (d <? 0)%Z then x else Z.to_nat d) (map Z.of_nat sh) = sh.
Proof.
  induction sh as [|d sh IH]; simpl; [reflexivity|].
  replace (Z.of_nat d <? 0)%Z with false by (symmetry; apply Z.ltb_ge; lia).
  now rewrite Nat2Z.id, IH.
Qed.

(** A reshape to fully given dimensions. *)
Lemma reshape_given (a : ndarray) (sh : list nat) :
  size sh = size (shape a) ->
  reshape a (map Z.of_nat sh) = Ok (mk_ndarray sh (data a)).
Proof.
  intros H. unfold reshape.
  rewrite filter_neg_of_nat, filter_nonneg_of_nat, map_to_nat_of_nat. simpl.
  rewrite H, Nat.eqb_refl. reflexivity.
Qed.

(** A reshape with one dimension to infer. *)
Lemma reshape_infer (a : ndarray) (pre post : list nat) (u : Z) :
  (u < 0)%Z ->
  size (pre ++ post) <> 0 ->
  size (shape a) mod size (pre ++ post) = 0 ->
  reshape a (map Z.of_nat pre ++ u :: map Z.of_nat post)
  = Ok (mk_ndarray (pre ++ size (shape a) / size (pre ++ post) :: post) (data a)).
Proof.
  intros Hu Hk Hm. unfold reshape.
  rewrite !filter_app. simpl.
  replace (u <? 0)%Z with true by (symmetry; apply Z.ltb_lt; lia).
  replace (0 <=? u)%Z with false by (symmetry; apply Z.leb_gt; lia).
  rewrite !filter_neg_of_nat, !filter_nonneg_of_nat. simpl.
  rewrite <- map_app, map_to_nat_of_nat.
  destruct (size (pre ++ post) =? 0) eqn:E.
  - apply Nat.eqb_eq in E. contradiction.
  - rewrite Hm. simpl. f_equal. f_equal.
    rewrite map_app. simpl.
    replace (u <? 0)%Z with true by (symmetry; apply Z.ltb_lt; lia).
    now rewrite !map_infer_of_nat.
Qed.

(** A reshape cannot infer a dimension next to an empty one. *)
Lemma reshape_infer_empty (a : ndarray) (pre post : list nat) (u : Z) :
  (u < 0)%Z ->
  size (pre ++ post) = 0 ->
  reshape a (map Z.of_nat pre ++ u :: map Z.of_nat post)
  = Raise (ValueError "cannot reshape array").
Proof.
  intros Hu Hk. unfold reshape.
  rewrite !filter_app. simpl.
  replace (u <? 0)%Z with true by (symmetry; apply Z.ltb_lt; lia).
  replace (0 <=? u)%Z with false by (symmetry; apply Z.leb_gt; lia).
  rewrite !filter_neg_of_nat, !filter_nonneg_of_nat. simpl.
  rewrite <- map_app, map_to_nat_of_nat, Hk. reflexivity.
Qed.

(** ** The array operations: shape and elements of the result *)

Lemma item_reshape_eq (x : ndarray) (sh' idx idx' : list nat) :
  ravel sh' idx' = ravel (shape x) idx ->
  item (mk_ndarray sh' (data x)) idx' = item x idx.
Proof. intros H. unfold item; simpl. now rewrite H. Qed.

Lemma zeros_spec (sh : list nat) :
  exists z, zeros (map Z.of_nat sh) = Ok z /\ wf z /\ shape z = sh
            /\ forall idx, in_range sh idx -> item z idx = 0%R.
Proof.
  unfold zeros.
  assert (H : forallb (fun d => 0 <=? d)%Z (map Z.of_nat sh) = true).
  { apply forallb_forall. intros d Hd. apply in_map_iff in Hd as (k & <- & _).
    apply Z.leb_le. lia. }
  rewrite H, map_to_nat_of_nat. eexists. split; [reflexivity|].
  split; [apply wf_tabulate|]. split; [reflexivity|].
  intros idx Hidx. now rewrite item_tabulate.
Qed.

Lemma getitem_spec (a : ndarray) (items : list index_item) (sh : list nat) :
  index_shape items (shape a) = Ok sh ->
  exists c, getitem a items = Ok c /\ wf c /\ shape c = sh
            /\ forall idx, in_range sh idx ->
                 item c idx = item a (index_source items (shape a) idx).
Proof.
  intros H. unfold getitem. rewrite H. cbn [bind].
  eexists. split; [reflexivity|]. split; [apply wf_tabulate|].
  split; [reflexivity|]. intros idx Hidx. now rewrite item_tabulate.
Qed.

Lemma mul_spec (a b : ndarray) (sh : list nat) :
  broadcast_shapes (shape a) (shape b) = Ok sh ->
  exists c, mul a b = Ok c /\ wf c /\ shape c = sh
            /\ forall idx, in_range sh idx ->
                 item c idx = (item a (bcast_index (shape a) idx)
                               * item b (bcast_index (shape b) idx))%R.
Proof.
  intros H. unfold mul. rewrite H. cbn [bind].
  eexists. split; [reflexivity|]. split; [apply wf_tabulate|].
  split; [reflexivity|]. intros idx Hidx. now rewrite item_tabulate.
Qed.

Lemma add_spec (a b : ndarray) (sh : list nat) :
  broadcast_shapes (shape a) (shape b) = Ok sh ->
  exists c, add a b = Ok c /\ wf c /\ shape c = sh
            /\ forall idx, in_range sh idx ->
                 item c idx = (item a (bcast_index (shape a) idx)
                               + item b (bcast_index (shape b) idx))%R.
Proof.
  intros H. unfold add. rewrite H. cbn [bind].
  eexists. split; [reflexivity|]. split; [apply wf_tabulate|].
  split; [reflexivity|]. intros idx Hidx. now rewrite item_tabulate.
Qed.

Lemma swapaxes_spec (a : ndarray) (i j : nat) :
  i < ndim a -> j < ndim a ->
  exists c, swapaxes a i j = Ok c /\ wf c /\ shape c = swap i j (shape a)
            /\ forall idx, in_range (swap i j (shape a)) idx ->
                 item c idx = item a (swap i j idx).
Proof.
  intros Hi Hj. unfold swapaxes.
  apply Nat.ltb_lt in Hi, Hj. rewrite Hi, Hj. cbn [andb].
  eexists. split; [reflexivity|]. split; [apply wf_tabulate|].
  split; [reflexivity|]. intros idx Hidx. now rewrite item_tabulate.
Qed.

Lemma matmul_spec (a b : ndarray) (k r c : nat) (ba bb rbatch : list nat) :
  rev (shape a) = k :: r :: ba ->
  rev (shape b) = c :: k :: bb ->
  broadcast_rev ba bb = Ok rbatch ->
  exists m, matmul a b = Ok m /\ wf m /\ shape m = rev rbatch ++ [r; c]
            /\ forall idx, in_range (rev rbatch ++ [r; c]) idx ->
                 item m idx
                 = sum_upto k (fun t =>
                     (item a (bcast_index (rev ba) (firstn (length (rev rbatch)) idx)
                              ++ [nth (length (rev rbatch)) idx 0%nat; t])
                      * item b (bcast_index (rev bb) (firstn (length (rev rbatch)) idx)
                                ++ [t; nth (S (length (rev rbatch))) idx 0%nat]))%R).
Proof.
  intros Ha Hb Hbc. unfold matmul. rewrite Ha, Hb, Nat.eqb_refl, Hbc. cbn [bind].
  eexists. split; [reflexivity|]. split; [apply wf_tabulate|].
  split; [reflexivity|]. intros idx Hidx. now rewrite item_tabulate.
Qed.

(** ** [_dispatch.py]: what the two strategies compute *)

Lemma infer_l_odd (l : nat) : infer_l (2 * l + 1) = Z.of_nat l.
Proof.
  unfold infer_l.
  replace (Z.of_nat (2 * l + 1) - 1)%Z with (Z.of_nat l * 2)%Z by lia.
  apply Z.div_mul. lia.
Qed.

Lemma list_get_of_nat {A : Type} (l : list A) (k : nat) (x : A) :
  nth_error l k = Some x -> list_get l (Z.of_nat k) = Ok x.
Proof.
  intros H. unfold list_get.
  assert (Hk : k < length l) by (apply nth_error_Some; congruence).
  rewrite normalize_index_of_nat by assumption. simpl. now rewrite H.
Qed.

Lemma shape_at_0 (a : ndarray) (d : nat) (sh : list nat) :
  shape a = d :: sh -> shape_at a 0 = Ok d.
Proof. intros H. unfold shape_at. rewrite H. now apply (list_get_of_nat _ 0). Qed.

Lemma shape_at_1 (a : ndarray) (d0 d : nat) (sh : list nat) :
  shape a = d0 :: d :: sh -> shape_at a 1 = Ok d.
Proof. intros H. unfold shape_at. rewrite H. now apply (list_get_of_nat _ 1). Qed.

Lemma shape_at_2 (a : ndarray) (d0 d1 d : nat) (sh : list nat) :
  shape a = d0 :: d1 :: d :: sh -> shape_at a 2 = Ok d.
Proof. intros H. unfold shape_at. rewrite H. now apply (list_get_of_nat _ 2). Qed.

Ltac bcast_dims :=
  repeat first [ rewrite broadcast_dim_same
               | rewrite broadcast_dim_1_r
               | rewrite broadcast_dim_1_l ];
  cbn [bind rev app].

Ltac in_range_tac :=
  unfold in_range; repeat (constructor; try lia); try assumption.

Lemma dense_combine_items (n M1 M2 P1 P2 L : nat) (arr_1 arr_2 D : ndarray)
      (lam : Z) (cache : cg_cache ndarray) :
  shape arr_1 = [n; M1; P1] -> shape arr_2 = [n; M2; P2] ->
  0 < M1 -> 0 < M2 -> 0 < P1 -> 0 < P2 -> 0 < L ->
  (2 * lam + 1)%Z = Z.of_nat L ->
  dict_get triple_eqb (coeffs cache) (infer_l M1, infer_l M2, lam) = Ok D ->
  size (shape D) = M1 * M2 * L ->
  exists out,
    _dense_combine (NdArray arr_1) arr_2 lam cache = Ok (Some out)
    /\ wf out
    /\ shape out = [n; L; P1 * P2]
    /\ forall i mu p q, i < n -> mu < L -> p < P1 -> q < P2 ->
         item out [i; mu; p * P2 + q]
         = sum_upto M1 (fun m1 => sum_upto M2 (fun m2 =>
             (item arr_1 [i; m1; p] * item arr_2 [i; m2; q]
              * nth ((m1 * M2 + m2) * L + mu) (data D) 0)%R)).
Proof.
  intros H1 H2 HM1 HM2 HP1 HP2 HL Hlam HD HsD.
  unfold _dense_combine.
  rewrite (shape_at_1 _ _ _ _ H1), (shape_at_1 _ _ _ _ H2).
  rewrite (shape_at_2 _ _ _ _ _ H1), (shape_at_2 _ _ _ _ _ H2).
  cbn [bind]. rewrite HD. cbn [bind].
  destruct (getitem_spec arr_1 [All; NewAxis; NewAxis; All; All] [n; 1; 1; M1; P1])
    as (a & -> & _ & Ha_sh & Ha_it); [now rewrite H1|].
  destruct (getitem_spec arr_2 [All; All; All; NewAxis; NewAxis] [n; M2; P2; 1; 1])
    as (b & -> & _ & Hb_sh & Hb_it); [now rewrite H2|].
  cbn [bind].
  destruct (mul_spec a b [n; M2; P2; M1; P1]) as (ab & -> & _ & Hab_sh & Hab_it).
  { rewrite Ha_sh, Hb_sh. unfold broadcast_shapes. cbn [rev app broadcast_rev].
    bcast_dims. reflexivity. }
  cbn [bind].
  destruct (swapaxes_spec ab 1 4) as (sw & -> & _ & Hsw_sh & Hsw_it);
    [unfold ndim; rewrite Hab_sh; simpl; lia ..|].
  rewrite Hab_sh in Hsw_sh, Hsw_it.
  change (swap 1 4 [n; M2; P2; M1; P1]) with [n; P1; P2; M1; M2] in Hsw_sh, Hsw_it.
  cbn [bind].
  change [(-1)%Z; Z.of_nat (P1 * P2); Z.of_nat (M1 * M2)]
    with (map Z.of_nat [] ++ (-1)%Z :: map Z.of_nat [P1 * P2; M1 * M2]).
  assert (Htot : size (shape sw) = n * size [P1 * P2; M1 * M2]).
  { rewrite Hsw_sh. cbn [size fold_right]. ring. }
  rewrite reshape_infer; cbn [app]; rewrite ?Htot;
    [ | lia | cbn [size fold_right]; nia | apply Nat.Div0.mod_mul ].
  rewrite Nat.div_mul by (cbn [size fold_right]; nia).
  cbn [bind].
  rewrite Hlam.
  change [(-1)%Z; Z.of_nat L]
    with (map Z.of_nat [] ++ (-1)%Z :: map Z.of_nat [L]).
  assert (HtotD : size (shape D) = (M1 * M2) * size [L]).
  { rewrite HsD. cbn [size fold_right]. ring. }
  rewrite reshape_infer; cbn [app]; rewrite ?HtotD;
    [ | lia | cbn [size fold_right]; nia | apply Nat.Div0.mod_mul ].
  rewrite Nat.div_mul by (cbn [size fold_right]; nia).
  cbn [bind].
  destruct (matmul_spec (mk_ndarray [n; P1 * P2; M1 * M2] (data sw))
                        (mk_ndarray [M1 * M2; L] (data D))
                        (M1 * M2) (P1 * P2) L [n] [] [n])
    as (mm & -> & _ & Hmm_sh & Hmm_it); [reflexivity ..|].
  cbn [rev app length] in Hmm_sh, Hmm_it.
  cbn [bind].
  destruct (swapaxes_spec mm 1 2) as (out & -> & Hout_wf & Hout_sh & Hout_it);
    [unfold ndim; rewrite Hmm_sh; simpl; lia ..|].
  rewrite Hmm_sh in Hout_sh, Hout_it.
  change (swap 1 2 [n; P1 * P2; L]) with [n; L; P1 * P2] in Hout_sh, Hout_it.
  cbn [bind].
  exists out. split; [reflexivity|]. split; [assumption|]. split; [assumption|].
  intros i mu p q Hi Hmu Hp Hq.
  assert (Hpq : p * P2 + q < P1 * P2) by nia.
  rewrite Hout_it by in_range_tac.
  change (swap 1 2 [i; mu; p * P2 + q]) with [i; p * P2 + q; mu].
  rewrite Hmm_it by in_range_tac.
  cbn [firstn nth bcast_index length skipn combine map Nat.sub fst snd app].
  rewrite sum_upto_flatten.
  apply sum_upto_ext. intros m1 Hm1. apply sum_upto_ext. intros m2 Hm2.
  rewrite (bcoord_lt n i) by lia.
  rewrite (item_reshape_eq sw _ [i; p; q; m1; m2]).
  2:{ rewrite Hsw_sh. cbn [ravel size fold_right]. ring. }
  rewrite Hsw_it by in_range_tac.
  change (swap 1 4 [i; p; q; m1; m2]) with [i; m2; q; m1; p].
  rewrite Hab_it by in_range_tac.
  rewrite Ha_sh, Hb_sh.
  cbn [bcast_index length skipn combine map Nat.sub fst snd Nat.eqb].
  rewrite !bcoord_lt by lia.
  rewrite Ha_it, Hb_it by in_range_tac.
  rewrite H1, H2. cbn [index_source hd tl].
  f_equal. unfold item. cbn [shape data ravel size fold_right].
  f_equal. ring.
Qed.

Lemma iadd_at_spec (a v : ndarray) (items : list index_item) (sh : list nat) :
  index_shape items (shape a) = Ok sh ->
  broadcast_shapes (shape v) sh = Ok sh ->
  exists c, iadd_at a items v = Ok c /\ wf c /\ shape c = shape a
            /\ forall src, in_range (shape a) src ->
                 item c src
                 = match index_view items (shape a) src with
                   | Some idx => (item a src + item v (bcast_index (shape v) idx))%R
                   | None => item a src
                   end.
Proof.
  intros Hs Hb. unfold iadd_at. rewrite Hs. cbn [bind]. rewrite Hb. cbn [bind].
  destruct (list_eq_dec Nat.eq_dec sh sh) as [_|Hne]; [|contradiction].
  eexists. split; [reflexivity|]. split; [apply wf_tabulate|].
  split; [reflexivity|]. intros src Hsrc. now rewrite item_tabulate.
Qed.

Lemma sparse_step_spec (n M1 M2 P1 P2 L : nat) (arr_1 arr_2 : ndarray)
      (S : sparse_table) (m1 m2 mu : Z) (c : R) (arr_out : ndarray) :
  shape arr_1 = [n; M1; P1] -> shape arr_2 = [n; M2; P2] ->
  shape arr_out = [n; L; P1 * P2] ->
  (0 <= m1 < Z.of_nat M1)%Z -> (0 <= m2 < Z.of_nat M2)%Z ->
  (0 <= mu < Z.of_nat L)%Z ->
  dict_get triple_eqb S (m1, m2, mu) = Ok c ->
  exists out',
    sparse_step arr_1 arr_2 S n P1 P2 (m1, m2, mu) arr_out = Ok out'
    /\ wf out'
    /\ shape out' = [n; L; P1 * P2]
    /\ forall i k p q, i < n -> k < L -> p < P1 -> q < P2 ->
         item out' [i; k; p * P2 + q]
         = (item arr_out [i; k; (p * P2 + q)%nat]
            + (if k =? Z.to_nat mu
               then item arr_1 [i; Z.to_nat m1; p] * item arr_2 [i; Z.to_nat m2; q] * c
               else 0))%R.
Proof.
  intros H1 H2 Ho Hm1 Hm2 Hmu Hc.
  unfold sparse_step.
  destruct (getitem_spec arr_out [All; At mu; All] [n; P1 * P2])
    as (view & -> & _ & _ & _).
  { rewrite Ho. cbn [index_shape]. rewrite normalize_index_in_range by lia. reflexivity. }
  cbn [bind].
  destruct (getitem_spec arr_1 [All; At m1; All; NewAxis] [n; P1; 1])
    as (a & -> & _ & Ha_sh & Ha_it).
  { rewrite H1. cbn [index_shape]. rewrite normalize_index_in_range by lia. reflexivity. }
  destruct (getitem_spec arr_2 [All; At m2; NewAxis; All] [n; 1; P2])
    as (b & -> & _ & Hb_sh & Hb_it).
  { rewrite H2. cbn [index_shape]. rewrite normalize_index_in_range by lia. reflexivity. }
  cbn [bind].
  destruct (mul_spec a b [n; P1; P2]) as (ab & -> & Hab_wf & Hab_sh & Hab_it).
  { rewrite Ha_sh, Hb_sh. unfold broadcast_shapes. cbn [rev app broadcast_rev].
    bcast_dims. reflexivity. }
  cbn [bind]. rewrite Hc. cbn [bind].
  change [Z.of_nat n; Z.of_nat (P1 * P2)] with (map Z.of_nat [n; P1 * P2]).
  rewrite reshape_given.
  2:{ cbn [shape mul_scalar]. rewrite Hab_sh. cbn [size fold_right]. ring. }
  cbn [bind].
  destruct (iadd_at_spec arr_out
              (mk_ndarray [n; P1 * P2] (data (mul_scalar ab c)))
              [All; At mu; All] [n; P1 * P2])
    as (out' & -> & Hwf & Hsh & Hit).
  { rewrite Ho. cbn [index_shape]. rewrite normalize_index_in_range by lia. reflexivity. }
  { cbn [shape]. unfold broadcast_shapes. cbn [rev app broadcast_rev].
    bcast_dims. reflexivity. }
  exists out'. split; [reflexivity|]. split; [assumption|].
  split; [congruence|].
  intros i k p q Hi Hk Hp Hq.
  assert (Hpq : p * P2 + q < P1 * P2) by nia.
  rewrite Hit by (rewrite Ho; in_range_tac).
  rewrite Ho. cbn [index_view hd tl option_map].
  rewrite normalize_index_in_range by lia.
  destruct (k =? Z.to_nat mu); cbn [option_map]; [|ring].
  f_equal.
  cbn [shape bcast_index length skipn combine map Nat.sub fst snd].
  rewrite !bcoord_lt by lia.
  rewrite (item_reshape_eq (mul_scalar ab c) _ [i; p; q]).
  2:{ cbn [shape mul_scalar]. rewrite Hab_sh. cbn [ravel size fold_right]. ring. }
  rewrite item_mul_scalar. f_equal.
  rewrite Hab_it by in_range_tac.
  rewrite Ha_sh, Hb_sh.
  cbn [bcast_index length skipn combine map Nat.sub fst snd Nat.eqb].
  rewrite !bcoord_lt by lia.
  rewrite Ha_it, Hb_it by in_range_tac.
  rewrite H1, H2. cbn [index_source hd tl].
  rewrite !normalize_index_in_range by lia.
  reflexivity.
Qed.

Lemma triple_eqb_eq (x y : triple) : triple_eqb x y = true <-> x = y.
Proof.
  destruct x as [[a b] c], y as [[a' b'] c']. unfold triple_eqb.
  rewrite !andb_true_iff, !Z.eqb_eq. split.
  - intros [[-> ->] ->]. reflexivity.
  - intros [= -> -> ->]. auto.
Qed.

Lemma triple_eqb_refl (x : triple) : triple_eqb x x = true.
Proof. now apply triple_eqb_eq. Qed.

Lemma dict_get_in_keys {V : Type} (S : dict triple V) (k : triple) :
  In k (dict_keys S) -> exists c, dict_get triple_eqb S k = Ok c.
Proof.
  induction S as [|[k' v] S IH]; simpl; [contradiction|].
  intros [->|H].
  - rewrite triple_eqb_refl. eauto.
  - destruct (triple_eqb k' k); eauto.
Qed.

Lemma dict_get_not_in_keys {V : Type} (S : dict triple V) (k : triple) :
  ~ In k (dict_keys S) -> dict_get triple_eqb S k = Raise KeyError.
Proof.
  induction S as [|[k' v] S IH]; simpl; [reflexivity|].
  intros H. destruct (triple_eqb k' k) eqn:E.
  - apply triple_eqb_eq in E. tauto.
  - apply IH. tauto.
Qed.

Lemma sparse_loop_spec (n M1 M2 P1 P2 L : nat) (arr_1 arr_2 : ndarray)
      (S : sparse_table) (ks : list triple) :
  shape arr_1 = [n; M1; P1] -> shape arr_2 = [n; M2; P2] ->
  Forall (key_in_range M1 M2 L) ks ->
  (forall k, In k ks -> In k (dict_keys S)) ->
  forall arr_out,
    shape arr_out = [n; L; P1 * P2] -> wf arr_out ->
    exists out',
      for_each ks (sparse_step arr_1 arr_2 S n P1 P2) arr_out = Ok out'
      /\ wf out'
      /\ shape out' = [n; L; P1 * P2]
      /\ forall i mu p q, i < n -> mu < L -> p < P1 -> q < P2 ->
           item out' [i; mu; p * P2 + q]
           = (item arr_out [i; mu; (p * P2 + q)%nat]
              + sum_list (map (sparse_term arr_1 arr_2 S i mu p q) ks))%R.
Proof.
  intros H1 H2 Hks. induction Hks as [|[[m1 m2] mu'] ks Hk Hks IH];
    intros Hin arr_out Ho Hwf.
  - exists arr_out. split; [reflexivity|]. split; [assumption|].
    split; [assumption|]. intros. simpl. ring.
  - destruct Hk as (Hm1 & Hm2 & Hmu).
    destruct (dict_get_in_keys S (m1, m2, mu')) as [c Hc]; [apply Hin; now left|].
    destruct (sparse_step_spec n M1 M2 P1 P2 L arr_1 arr_2 S m1 m2 mu' c arr_out
                H1 H2 Ho Hm1 Hm2 Hmu Hc) as (o1 & Hstep & Hwf1 & Hsh1 & Hit1).
    destruct (IH (fun k Hk => Hin k (or_intror Hk)) o1 Hsh1 Hwf1)
      as (out' & Hrest & Hwf' & Hsh' & Hit').
    exists out'. split; [cbn [for_each]; rewrite Hstep; exact Hrest|].
    split; [assumption|]. split; [assumption|].
    intros i mu p q Hi Hmu' Hp Hq.
    rewrite Hit', Hit1 by assumption.
    cbn [map sum_list fold_right]. unfold sparse_term at 2, coeff.
    rewrite Hc. fold (sum_list (map (sparse_term arr_1 arr_2 S i mu p q) ks)). ring.
Qed.

Lemma sparse_combine_items (n M1 M2 P1 P2 L : nat) (arr_1 arr_2 : ndarray)
      (lam : Z) (cache : cg_cache sparse_table) (S : sparse_table) :
  shape arr_1 = [n; M1; P1] -> shape arr_2 = [n; M2; P2] ->
  (2 * lam + 1)%Z = Z.of_nat L ->
  dict_get triple_eqb (coeffs cache) (infer_l M1, infer_l M2, lam) = Ok S ->
  Forall (key_in_range M1 M2 L) (dict_keys S) ->
  exists out,
    _sparse_combine (NdArray arr_1) arr_2 lam cache false = Ok (Some out)
    /\ wf out
    /\ shape out = [n; L; P1 * P2]
    /\ forall i mu p q, i < n -> mu < L -> p < P1 -> q < P2 ->
         item out [i; mu; p * P2 + q]
         = sum_list (map (sparse_term arr_1 arr_2 S i mu p q) (dict_keys S)).
Proof.
  intros H1 H2 Hlam HS Hks.
  unfold _sparse_combine.
  rewrite (shape_at_0 _ _ _ H1), (shape_at_0 _ _ _ H2).
  rewrite (shape_at_1 _ _ _ _ H1), (shape_at_1 _ _ _ _ H2).
  rewrite (shape_at_2 _ _ _ _ _ H1), (shape_at_2 _ _ _ _ _ H2).
  cbn [bind]. rewrite Nat.eqb_refl. cbn [assert bind].
  rewrite Hlam.
  change [Z.of_nat n; Z.of_nat L; Z.of_nat (P1 * P2)]
    with (map Z.of_nat [n; L; P1 * P2]).
  destruct (zeros_spec [n; L; P1 * P2]) as (z & -> & Hz_wf & Hz_sh & Hz_it).
  cbn [bind]. rewrite HS. cbn [bind].
  destruct (sparse_loop_spec n M1 M2 P1 P2 L arr_1 arr_2 S (dict_keys S)
              H1 H2 Hks (fun k Hk => Hk) z Hz_sh Hz_wf)
    as (out & -> & Hwf & Hsh & Hit).
  exists out. split; [reflexivity|]. split; [assumption|]. split; [assumption|].
  intros i mu p q Hi Hmu Hp Hq.
  rewrite Hit by assumption.
  rewrite Hz_it by (in_range_tac; nia). ring.
Qed.

(** ** The sum over the keys of a sparse table is the sum over all
       positions of the dense table *)

Lemma triple_eqb_of_nat (m1 m2 mu : nat) (a b g : Z) :
  (0 <= a)%Z -> (0 <= b)%Z -> (0 <= g)%Z ->
  triple_eqb (Z.of_nat m1, Z.of_nat m2, Z.of_nat mu) (a, b, g)
  = (m1 =? Z.to_nat a) && (m2 =? Z.to_nat b) && (mu =? Z.to_nat g).
Proof.
  intros Ha Hb Hg. unfold triple_eqb.
  assert (E : forall (x : nat) (y : Z), (0 <= y)%Z ->
                (Z.of_nat x =? y)%Z = (x =? Z.to_nat y)).
  { intros x y Hy. destruct (x =? Z.to_nat y) eqn:E.
    - apply Nat.eqb_eq in E. apply Z.eqb_eq. lia.
    - apply Nat.eqb_neq in E. apply Z.eqb_neq. lia. }
  now rewrite !E by assumption.
Qed.

Lemma sum_list_cons (x : R) (l : list R) :
  sum_list (x :: l) = (x + sum_list l)%R.
Proof. reflexivity. Qed.

Lemma sum_upto_pick (n k : nat) (f : nat -> R) :
  k < n -> sum_upto n (fun t => if t =? k then f t else 0%R) = f k.
Proof.
  intros H. rewrite <- (sum_upto_single n k (f k) H).
  apply sum_upto_ext. intros t _. destruct (t =? k) eqn:E; [|reflexivity].
  apply Nat.eqb_eq in E. now subst.
Qed.

Lemma double_sum_pick (M1 M2 a b : nat) (hit : bool) (F : nat -> nat -> R) (c : R) :
  a < M1 -> b < M2 ->
  sum_upto M1 (fun m1 => sum_upto M2 (fun m2 =>
    (F m1 m2 * (if (m1 =? a) && (m2 =? b) && hit then c else 0))%R))
  = if hit then (F a b * c)%R else 0%R.
Proof.
  intros Ha Hb. destruct hit.
  - rewrite (sum_upto_ext M1 _ (fun m1 => if m1 =? a then (F m1 b * c)%R else 0%R)).
    + now rewrite sum_upto_pick.
    + intros m1 _. destruct (m1 =? a); cbn [andb].
      * rewrite (sum_upto_ext M2 _ (fun m2 => if m2 =? b then (F m1 m2 * c)%R else 0%R)).
        -- now rewrite sum_upto_pick.
        -- intros m2 _. rewrite andb_true_r. destruct (m2 =? b); ring.
      * rewrite (sum_upto_ext M2 _ (fun _ => 0%R)); [apply sum_upto_0|].
        intros; ring.
  - rewrite (sum_upto_ext M1 _ (fun _ => 0%R)); [apply sum_upto_0|].
    intros m1 _. rewrite (sum_upto_ext M2 _ (fun _ => 0%R)); [apply sum_upto_0|].
    intros m2 _. rewrite andb_false_r. ring.
Qed.

Lemma sum_upto2_plus (M1 M2 : nat) (f g : nat -> nat -> R) :
  sum_upto M1 (fun m1 => sum_upto M2 (fun m2 => (f m1 m2 + g m1 m2)%R))
  = (sum_upto M1 (fun m1 => sum_upto M2 (f m1))
     + sum_upto M1 (fun m1 => sum_upto M2 (g m1)))%R.
Proof.
  rewrite <- sum_upto_plus. apply sum_upto_ext. intros m1 _.
  apply sum_upto_plus.
Qed.

Lemma keys_sum_dense_sum (M1 M2 L mu : nat) (c : triple -> R)
      (F : nat -> nat -> R) (ks : list triple) :
  NoDup ks -> Forall (key_in_range M1 M2 L) ks ->
  sum_list (map (fun k : triple =>
                   let '(m1, m2, mu') := k in
                   if mu =? Z.to_nat mu'
                   then (F (Z.to_nat m1) (Z.to_nat m2) * c k)%R
                   else 0%R) ks)
  = sum_upto M1 (fun m1 => sum_upto M2 (fun m2 =>
      (F m1 m2
       * (if existsb (triple_eqb (Z.of_nat m1, Z.of_nat m2, Z.of_nat mu)) ks
          then c (Z.of_nat m1, Z.of_nat m2, Z.of_nat mu) else 0))%R)).
Proof.
  intros Hnd Hks. induction Hks as [|[[a b] g] ks Hk Hks IH].
  - cbn [map sum_list fold_right existsb]. symmetry.
    rewrite (sum_upto_ext M1 _ (fun _ => 0%R)); [apply sum_upto_0|].
    intros m1 _. rewrite (sum_upto_ext M2 _ (fun _ => 0%R)); [apply sum_upto_0|].
    intros; ring.
  - inversion Hnd as [|? ? Hnotin Hnd']; subst.
    destruct Hk as (Ha & Hb & Hg).
    cbn [map]. rewrite sum_list_cons, (IH Hnd').
    rewrite <- (double_sum_pick M1 M2 (Z.to_nat a) (Z.to_nat b)
                  (mu =? Z.to_nat g) F (c (a, b, g))) by lia.
    rewrite <- sum_upto2_plus.
    apply sum_upto_ext. intros m1 Hm1. apply sum_upto_ext. intros m2 Hm2.
    cbn [existsb].
    rewrite triple_eqb_of_nat by lia.
    destruct ((m1 =? Z.to_nat a) && (m2 =? Z.to_nat b) && (mu =? Z.to_nat g)) eqn:E.
    + apply andb_prop in E as [E Eg]. apply andb_prop in E as [Ea Eb].
      apply Nat.eqb_eq in Ea, Eb, Eg.
      assert (Hkey : (Z.of_nat m1, Z.of_nat m2, Z.of_nat mu) = (a, b, g)).
      { f_equal; [f_equal|]; lia. }
      rewrite Hkey.
      replace (existsb (triple_eqb (a, b, g)) ks) with false.
      * cbn [orb]. ring.
      * symmetry. apply not_true_is_false. intros Hex.
        apply existsb_exists in Hex as (k & Hin & Heq).
        apply triple_eqb_eq in Heq. subst k. contradiction.
    + cbn [orb]. ring.
Qed.

Lemma coeff_absent (S : sparse_table) (k : triple) :
  existsb (triple_eqb k) (dict_keys S) = false -> coeff S k = 0%R.
Proof.
  intros H. unfold coeff. rewrite dict_get_not_in_keys; [reflexivity|].
  intros Hin. apply not_true_iff_false in H. apply H.
  apply existsb_exists. exists k. split; [assumption|apply triple_eqb_refl].
Qed.

Lemma sparse_terms_dense (M1 M2 L : nat) (arr_1 arr_2 : ndarray)
      (S : sparse_table) (i mu p q : nat) :
  NoDup (dict_keys S) -> Forall (key_in_range M1 M2 L) (dict_keys S) ->
  sum_list (map (sparse_term arr_1 arr_2 S i mu p q) (dict_keys S))
  = sum_upto M1 (fun m1 => sum_upto M2 (fun m2 =>
      (item arr_1 [i; m1; p] * item arr_2 [i; m2; q]
       * coeff S (Z.of_nat m1, Z.of_nat m2, Z.of_nat mu))%R)).
Proof.
  intros Hnd Hks.
  rewrite <- (sum_upto_ext M1
    (fun m1 => sum_upto M2 (fun m2 =>
       ((item arr_1 [i; m1; p] * item arr_2 [i; m2; q])
        * (if existsb (triple_eqb (Z.of_nat m1, Z.of_nat m2, Z.of_nat mu)) (dict_keys S)
           then coeff S (Z.of_nat m1, Z.of_nat m2, Z.of_nat mu) else 0))%R))).
  - rewrite <- (keys_sum_dense_sum M1 M2 L mu (coeff S)
                 (fun m1 m2 => (item arr_1 [i; m1; p] * item arr_2 [i; m2; q])%R)
                 (dict_keys S) Hnd Hks).
    reflexivity.
  - intros m1 _. apply sum_upto_ext. intros m2 _.
    destruct (existsb _ (dict_keys S)) eqn:E; [reflexivity|].
    rewrite (coeff_absent S _ E). ring.
Qed.

(** ** The array operations on small arrays *)

(** Equality of two lists of reals, element by element. *)
Ltac eq_reals :=
  repeat match goal with
         | |- (_ :: _) = (_ :: _) => apply (f_equal2 cons); [lra|]
         end;
  reflexivity.

Ltac eq_ndarray := vm_compute; apply (f_equal (mk_ndarray _)); eq_reals.

Ltac eq_result := vm_compute; apply f_equal; apply (f_equal (mk_ndarray _)); eq_reals.

Ltac eq_arrays :=
  vm_compute; do 2 apply f_equal; apply (f_equal (mk_ndarray _)); eq_reals.

Example swapaxes_example :
  swapaxes Examples.arange_2_3 0 1 = Ok (mk_ndarray [3; 2] [0; 3; 1; 4; 2; 5]%R).
Proof. eq_result. Qed.

Example reshape_infer_example :
  reshape Examples.arange_2_3 [3; -1]%Z = Ok (mk_ndarray [3; 2] [0; 1; 2; 3; 4; 5]%R).
Proof. reflexivity. Qed.

Example reshape_empty_example :
  reshape (mk_ndarray [0; 3] []) [0; -1]%Z = Raise (ValueError "cannot reshape array")
  /\ reshape (mk_ndarray [0; 3] []) [-1; 3]%Z = Ok (mk_ndarray [0; 3] []).
Proof. split; reflexivity. Qed.

Example getitem_example :
  getitem Examples.arange_2_3 [All; At (-1); NewAxis]
  = Ok (mk_ndarray [2; 1] [2; 5]%R).
Proof. eq_result. Qed.

Example matmul_example :
  matmul Examples.arange_2_3 (mk_ndarray [3; 2] [1; 0; 0; 1; 1; 1]%R)
  = Ok (mk_ndarray [2; 2] [2; 3; 8; 9]%R).
Proof. eq_result. Qed.

Example mul_broadcast_example :
  mul (mk_ndarray [2; 1] [1; 2]%R) (mk_ndarray [1; 3] [1; 10; 100]%R)
  = Ok (mk_ndarray [2; 3] [1; 10; 100; 2; 20; 200]%R).
Proof. eq_result. Qed.

(** With a repeated index, the last store wins. *)
Example iadd_take_example :
  iadd_take (mk_ndarray [3] [0; 0; 0]%R) [0; 0; 1]%Z (mk_ndarray [3] [1; 2; 3]%R)
  = Ok (mk_ndarray [3] [2; 3; 0]%R).
Proof. eq_result. Qed.

Example np_unique_example :
  PowerSpectrum.np_unique [8; 1; 6; 1; 8]%Z = [1; 6; 8]%Z.
Proof. reflexivity. Qed.

Example union_and_mapping_example :
  Labels.union_and_mapping
    (Labels.mk ["sample"; "atom"]%string [[0; 0]; [1; 1]]%Z)
    (Labels.mk ["sample"; "atom"]%string [[0; 1]; [1; 1]; [0; 0]]%Z)
  = Ok (Labels.mk ["sample"; "atom"]%string [[0; 0]; [1; 1]; [0; 1]]%Z,
        [0; 1]%Z, [2; 1; 0]%Z).
Proof. reflexivity. Qed.

(** ** Theorems on the two combination strategies *)

Lemma in_range_3 (d0 d1 d2 : nat) (idx : list nat) :
  in_range [d0; d1; d2] idx ->
  exists i j k, idx = [i; j; k] /\ i < d0 /\ j < d1 /\ k < d2.
Proof.
  intros H. inversion H as [|i ? idx1 ? Hi H1]; subst.
  inversion H1 as [|j ? idx2 ? Hj H2]; subst.
  inversion H2 as [|k ? idx3 ? Hk H3]; subst.
  inversion H3; subst. exists i, j, k. auto.
Qed.

Lemma split_flat_index (P2 pq P1 : nat) :
  pq < P1 * P2 ->
  pq = pq / P2 * P2 + pq mod P2 /\ pq / P2 < P1 /\ pq mod P2 < P2.
Proof.
  intros H. assert (HP2 : P2 <> 0) by nia.
  split; [|split].
  - pose proof (Nat.div_mod_eq pq P2). lia.
  - apply Nat.Div0.div_lt_upper_bound. lia.
  - now apply Nat.mod_upper_bound.
Qed.

(** X21. Cross-strategy equivalence on non-empty property axes: for
    inputs of shapes [n, 2 l1 + 1, P1] and [n, 2 l2 + 1, P2] with
    [P1, P2 > 0] and a channel [lam] for which both coefficient sources have
    an entry [(l1, l2, lam)], the entries holding the same coefficients, the
    sparse and the dense strategy return the same array. *)
Theorem sparse_dense_equivalence
        (n l1 l2 lam P1 P2 : nat) (arr_1 arr_2 : ndarray)
        (sparse_cache : cg_cache sparse_table) (dense_cache : cg_cache ndarray)
        (S : sparse_table) (D : ndarray) :
  shape arr_1 = [n; 2 * l1 + 1; P1] ->
  shape arr_2 = [n; 2 * l2 + 1; P2] ->
  0 < P1 -> 0 < P2 ->
  dict_get triple_eqb (coeffs sparse_cache)
           (Z.of_nat l1, Z.of_nat l2, Z.of_nat lam) = Ok S ->
  dict_get triple_eqb (coeffs dense_cache)
           (Z.of_nat l1, Z.of_nat l2, Z.of_nat lam) = Ok D ->
  tables_agree (2 * l1 + 1) (2 * l2 + 1) (2 * lam + 1) S D ->
  exists out,
    _sparse_combine (NdArray arr_1) arr_2 (Z.of_nat lam) sparse_cache false
    = Ok (Some out)
    /\ _dense_combine (NdArray arr_1) arr_2 (Z.of_nat lam) dense_cache
       = Ok (Some out).
Proof.
  intros H1 H2 HP1 HP2 HS HD (Hnd & Hks & HsD & Hco).
  assert (Hlam : (2 * Z.of_nat lam + 1)%Z = Z.of_nat (2 * lam + 1)) by lia.
  rewrite <- (infer_l_odd l1), <- (infer_l_odd l2) in HS, HD.
  destruct (sparse_combine_items n _ _ P1 P2 _ arr_1 arr_2 _ sparse_cache S
              H1 H2 Hlam HS Hks) as (out & Hsp & Hwf & Hsh & Hit).
  assert (HM1 : 0 < 2 * l1 + 1) by lia.
  assert (HM2 : 0 < 2 * l2 + 1) by lia.
  assert (HL : 0 < 2 * lam + 1) by lia.
  destruct (dense_combine_items n _ _ P1 P2 _ arr_1 arr_2 D _ dense_cache
              H1 H2 HM1 HM2 HP1 HP2 HL Hlam HD HsD)
    as (out' & Hde & Hwf' & Hsh' & Hit').
  exists out. split; [assumption|].
  rewrite Hde. do 2 f_equal.
  apply ndarray_ext; [assumption|assumption|congruence|].
  rewrite Hsh'. intros idx Hidx.
  apply in_range_3 in Hidx as (i & mu & pq & -> & Hi & Hmu & Hpq).
  destruct (split_flat_index P2 pq P1 Hpq) as (Epq & Hp & Hq).
  rewrite Epq.
  rewrite Hit, Hit' by assumption.
  rewrite (sparse_terms_dense _ _ _ arr_1 arr_2 S i mu _ _ Hnd Hks).
  apply sum_upto_ext. intros m1 Hm1. apply sum_upto_ext. intros m2 Hm2.
  now rewrite Hco.
Qed.

Lemma sparse_dense_equivalence_witness :
  exists out,
    _sparse_combine (NdArray Examples.arr_1) Examples.arr_2 1
                    Examples.sparse_cache false = Ok (Some out)
    /\ _dense_combine (NdArray Examples.arr_1) Examples.arr_2 1
                      Examples.dense_cache = Ok (Some out).
Proof.
  apply (sparse_dense_equivalence 2 1 0 1 2 1 Examples.arr_1 Examples.arr_2
           Examples.sparse_cache Examples.dense_cache
           Examples.sparse_110 Examples.dense_110);
    [reflexivity | reflexivity | lia | lia | reflexivity | reflexivity | ].
  split; [|split; [|split]].
  - repeat constructor; simpl; intuition discriminate.
  - repeat constructor; lia.
  - reflexivity.
  - intros m1 m2 mu Hm1 Hm2 Hmu.
    destruct m1 as [|[|[|m1]]]; [| | |lia];
      (destruct m2 as [|m2]; [|lia]);
      (destruct mu as [|[|[|mu]]]; [| | |lia]); reflexivity.
Defined.

Example sparse_combine_example :
  _sparse_combine (NdArray Examples.arr_1) Examples.arr_2 1
                  Examples.sparse_cache false
  = Ok (Some (mk_ndarray [2; 3; 2] [2; 4; 6; 8; 10; 12; 21; 24; 27; 30; 33; 36]%R)).
Proof. eq_arrays. Qed.

Example dense_combine_example :
  _dense_combine (NdArray Examples.arr_1) Examples.arr_2 1 Examples.dense_cache
  = Ok (Some (mk_ndarray [2; 3; 2] [2; 4; 6; 8; 10; 12; 21; 24; 27; 30; 33; 36]%R)).
Proof. eq_arrays. Qed.

(** X22. Shape of the output: for inputs of shapes [n, 2 l1 + 1, P1] and
    [n, 2 l2 + 1, P2] and a channel [lam] with available coefficients, the
    sparse strategy (also in its empty mode) returns an array of shape
    [n, 2 lam + 1, P1 * P2], and so does the dense strategy when
    [P1, P2 > 0].  Available coefficients are a sparse table whose keys are
    positions on the component axes, and a dense table with
    [(2 l1 + 1) (2 l2 + 1) (2 lam + 1)] elements. *)
Theorem combine_shape
        (n l1 l2 lam P1 P2 : nat) (arr_1 arr_2 : ndarray) :
  shape arr_1 = [n; 2 * l1 + 1; P1] ->
  shape arr_2 = [n; 2 * l2 + 1; P2] ->
  (forall (cache : cg_cache sparse_table) (S : sparse_table),
      dict_get triple_eqb (coeffs cache)
               (Z.of_nat l1, Z.of_nat l2, Z.of_nat lam) = Ok S ->
      Forall (key_in_range (2 * l1 + 1) (2 * l2 + 1) (2 * lam + 1)) (dict_keys S) ->
      exists out,
        _sparse_combine (NdArray arr_1) arr_2 (Z.of_nat lam) cache false
        = Ok (Some out)
        /\ shape out = [n; 2 * lam + 1; P1 * P2])
  /\ (forall cache : cg_cache sparse_table,
         exists out,
           _sparse_combine (NdArray arr_1) arr_2 (Z.of_nat lam) cache true
           = Ok (Some out)
           /\ shape out = [n; 2 * lam + 1; P1 * P2])
  /\ (forall (cache : cg_cache ndarray) (D : ndarray),
         0 < P1 -> 0 < P2 ->
         dict_get triple_eqb (coeffs cache)
                  (Z.of_nat l1, Z.of_nat l2, Z.of_nat lam) = Ok D ->
         size (shape D) = (2 * l1 + 1) * (2 * l2 + 1) * (2 * lam + 1) ->
         exists out,
           _dense_combine (NdArray arr_1) arr_2 (Z.of_nat lam) cache
           = Ok (Some out)
           /\ shape out = [n; 2 * lam + 1; P1 * P2]).
Proof.
  intros H1 H2.
  assert (Hlam : (2 * Z.of_nat lam + 1)%Z = Z.of_nat (2 * lam + 1)) by lia.
  split; [|split].
  - intros cache S HS Hks.
    rewrite <- (infer_l_odd l1), <- (infer_l_odd l2) in HS.
    destruct (sparse_combine_items n _ _ P1 P2 _ arr_1 arr_2 _ cache S
                H1 H2 Hlam HS Hks) as (out & Hsp & _ & Hsh & _).
    exists out. auto.
  - intros cache. unfold _sparse_combine.
    rewrite (shape_at_0 _ _ _ H1), (shape_at_0 _ _ _ H2).
    rewrite (shape_at_1 _ _ _ _ H1), (shape_at_1 _ _ _ _ H2).
    rewrite (shape_at_2 _ _ _ _ _ H1), (shape_at_2 _ _ _ _ _ H2).
    cbn [bind]. rewrite Nat.eqb_refl. cbn [assert bind].
    rewrite Hlam.
    change [Z.of_nat n; Z.of_nat (2 * lam + 1); Z.of_nat (P1 * P2)]
      with (map Z.of_nat [n; 2 * lam + 1; P1 * P2]).
    destruct (zeros_spec [n; 2 * lam + 1; P1 * P2]) as (z & -> & _ & Hz_sh & _).
    exists z. auto.
  - intros cache D HP1 HP2 HD HsD.
    rewrite <- (infer_l_odd l1), <- (infer_l_odd l2) in HD.
    assert (HM1 : 0 < 2 * l1 + 1) by lia.
    assert (HM2 : 0 < 2 * l2 + 1) by lia.
    assert (HL : 0 < 2 * lam + 1) by lia.
    destruct (dense_combine_items n _ _ P1 P2 _ arr_1 arr_2 D _ cache
                H1 H2 HM1 HM2 HP1 HP2 HL Hlam HD HsD)
      as (out & Hde & _ & Hsh & _).
    exists out. auto.
Qed.

Lemma combine_shape_witness :
  (exists out,
      _sparse_combine (NdArray Examples.arr_1) Examples.arr_2 1
                      Examples.sparse_cache false = Ok (Some out)
      /\ shape out = [2; 3; 2])
  /\ (exists out,
         _sparse_combine (NdArray Examples.arr_1) Examples.arr_2 1
                         Examples.no_sparse true = Ok (Some out)
         /\ shape out = [2; 3; 2])
  /\ (exists out,
         _dense_combine (NdArray Examples.arr_1) Examples.arr_2 1
                        Examples.dense_cache = Ok (Some out)
         /\ shape out = [2; 3; 2]).
Proof.
  destruct (combine_shape 2 1 0 1 2 1 Examples.arr_1 Examples.arr_2
              eq_refl eq_refl) as (Hsparse & Hempty & Hdense).
  split; [|split].
  - apply (Hsparse Examples.sparse_cache Examples.sparse_110); [reflexivity|].
    repeat constructor; lia.
  - apply (Hempty Examples.no_sparse).
  - apply (Hdense Examples.dense_cache Examples.dense_110);
      [lia | lia | reflexivity | reflexivity].
Defined.

(** The dense strategy does not return on an empty property axis: the
    dimension [-1] of its reshape cannot be inferred. *)
Lemma dense_combine_no_properties (n M1 M2 P1 P2 : nat) (arr_1 arr_2 D : ndarray)
      (lam : Z) (cache : cg_cache ndarray) :
  shape arr_1 = [n; M1; P1] -> shape arr_2 = [n; M2; P2] ->
  P1 * P2 = 0 ->
  dict_get triple_eqb (coeffs cache) (infer_l M1, infer_l M2, lam) = Ok D ->
  _dense_combine (NdArray arr_1) arr_2 lam cache
  = Raise (ValueError "cannot reshape array").
Proof.
  intros H1 H2 HP HD.
  unfold _dense_combine.
  rewrite (shape_at_1 _ _ _ _ H1), (shape_at_1 _ _ _ _ H2).
  rewrite (shape_at_2 _ _ _ _ _ H1), (shape_at_2 _ _ _ _ _ H2).
  cbn [bind]. rewrite HD. cbn [bind].
  destruct (getitem_spec arr_1 [All; NewAxis; NewAxis; All; All] [n; 1; 1; M1; P1])
    as (a & -> & _ & Ha_sh & _); [now rewrite H1|].
  destruct (getitem_spec arr_2 [All; All; All; NewAxis; NewAxis] [n; M2; P2; 1; 1])
    as (b & -> & _ & Hb_sh & _); [now rewrite H2|].
  cbn [bind].
  destruct (mul_spec a b [n; M2; P2; M1; P1]) as (ab & -> & _ & Hab_sh & _).
  { rewrite Ha_sh, Hb_sh. unfold broadcast_shapes. cbn [rev app broadcast_rev].
    bcast_dims. reflexivity. }
  cbn [bind].
  destruct (swapaxes_spec ab 1 4) as (sw & -> & _ & _ & _);
    [unfold ndim; rewrite Hab_sh; simpl; lia ..|].
  cbn [bind].
  change [(-1)%Z; Z.of_nat (P1 * P2); Z.of_nat (M1 * M2)]
    with (map Z.of_nat [] ++ (-1)%Z :: map Z.of_nat [P1 * P2; M1 * M2]).
  rewrite reshape_infer_empty; [reflexivity | lia |].
  cbn [app size fold_right]. rewrite HP. reflexivity.
Qed.

(** The sparse strategy rejects inputs whose sample counts differ. *)
Lemma sparse_combine_sample_mismatch
      (n1 n2 : nat) (sh1 sh2 : list nat) (arr_1 arr_2 : ndarray) (lam : Z)
      (cache : cg_cache sparse_table) (return_empty_array : bool) :
  shape arr_1 = n1 :: sh1 -> shape arr_2 = n2 :: sh2 -> n1 <> n2 ->
  _sparse_combine (NdArray arr_1) arr_2 lam cache return_empty_array
  = Raise AssertionError.
Proof.
  intros H1 H2 Hne. unfold _sparse_combine.
  rewrite (shape_at_0 _ _ _ H1), (shape_at_0 _ _ _ H2). cbn [bind].
  apply Nat.eqb_neq in Hne. rewrite Hne. reflexivity.
Qed.

(** The dense strategy has no such check.  Sample counts that differ and
    are both different from one make its elementwise product fail. *)
Lemma dense_combine_sample_mismatch
      (n1 n2 M1 M2 P1 P2 : nat) (arr_1 arr_2 D : ndarray) (lam : Z)
      (cache : cg_cache ndarray) :
  shape arr_1 = [n1; M1; P1] -> shape arr_2 = [n2; M2; P2] ->
  n1 <> n2 -> n1 <> 1 -> n2 <> 1 ->
  dict_get triple_eqb (coeffs cache) (infer_l M1, infer_l M2, lam) = Ok D ->
  _dense_combine (NdArray arr_1) arr_2 lam cache
  = Raise (ValueError "operands could not be broadcast together").
Proof.
  intros H1 H2 Hne Hn1 Hn2 HD.
  unfold _dense_combine.
  rewrite (shape_at_1 _ _ _ _ H1), (shape_at_1 _ _ _ _ H2).
  cbn [bind]. rewrite HD. cbn [bind].
  destruct (getitem_spec arr_1 [All; NewAxis; NewAxis; All; All] [n1; 1; 1; M1; P1])
    as (a & -> & _ & Ha_sh & _); [now rewrite H1|].
  destruct (getitem_spec arr_2 [All; All; All; NewAxis; NewAxis] [n2; M2; P2; 1; 1])
    as (b & -> & _ & Hb_sh & _); [now rewrite H2|].
  cbn [bind]. unfold mul. rewrite Ha_sh, Hb_sh.
  unfold broadcast_shapes. cbn [rev app broadcast_rev].
  rewrite !broadcast_dim_1_r, !broadcast_dim_1_l. cbn [bind].
  unfold broadcast_dim.
  apply Nat.eqb_neq in Hne, Hn1, Hn2. rewrite Hne, Hn1, Hn2. reflexivity.
Qed.

(** C6. Inputs whose sample counts differ must be rejected by both
    strategies.  The dense strategy does not do so: one sample against two
    samples is broadcast.  On these inputs the sparse strategy fails on its
    assertion, while the dense strategy returns an array with two
    samples. *)
Theorem dense_combine_broadcasts_samples :
  shape Examples.one_sample = [1; 1; 1]
  /\ shape Examples.two_samples = [2; 1; 1]
  /\ _sparse_combine (NdArray Examples.one_sample) Examples.two_samples 0
                     Examples.sparse_000 false
     = Raise AssertionError
  /\ _dense_combine (NdArray Examples.one_sample) Examples.two_samples 0
                    Examples.dense_000
     = Ok (Some (mk_ndarray [2; 1; 1] [10; 15]%R)).
Proof.
  split; [reflexivity|]. split; [reflexivity|]. split; [reflexivity|].
  eq_arrays.
Qed.

(** C7. A coefficient source without an entry for the inferred triple
    [(l1, l2, lam)] makes both strategies fail with a [KeyError]: the dense
    strategy on every pair of three-dimensional arrays, the sparse strategy
    (which first checks the sample counts and allocates its output) on every
    pair with equal sample counts and [lam >= 0]. *)
Theorem missing_coefficients_key_error
        (n1 n2 M1 M2 P1 P2 : nat) (arr_1 arr_2 : ndarray) (lam : Z) :
  shape arr_1 = [n1; M1; P1] ->
  shape arr_2 = [n2; M2; P2] ->
  (forall cache : cg_cache sparse_table,
      ~ In (infer_l M1, infer_l M2, lam) (dict_keys (coeffs cache)) ->
      n1 = n2 -> (0 <= lam)%Z ->
      _sparse_combine (NdArray arr_1) arr_2 lam cache false = Raise KeyError)
  /\ (forall cache : cg_cache ndarray,
         ~ In (infer_l M1, infer_l M2, lam) (dict_keys (coeffs cache)) ->
         _dense_combine (NdArray arr_1) arr_2 lam cache = Raise KeyError).
Proof.
  intros H1 H2. split.
  - intros cache Hno Hn Hlam. subst n2. unfold _sparse_combine.
    rewrite (shape_at_0 _ _ _ H1), (shape_at_0 _ _ _ H2).
    rewrite (shape_at_1 _ _ _ _ H1), (shape_at_1 _ _ _ _ H2).
    rewrite (shape_at_2 _ _ _ _ _ H1), (shape_at_2 _ _ _ _ _ H2).
    cbn [bind]. rewrite Nat.eqb_refl. cbn [assert bind].
    replace (2 * lam + 1)%Z with (Z.of_nat (Z.to_nat (2 * lam + 1))) by lia.
    change [Z.of_nat n1; Z.of_nat (Z.to_nat (2 * lam + 1)); Z.of_nat (P1 * P2)]
      with (map Z.of_nat [n1; Z.to_nat (2 * lam + 1); P1 * P2]).
    destruct (zeros_spec [n1; Z.to_nat (2 * lam + 1); P1 * P2]) as (z & -> & _).
    cbn [bind]. now rewrite (dict_get_not_in_keys _ _ Hno).
  - intros cache Hno. unfold _dense_combine.
    rewrite (shape_at_1 _ _ _ _ H1), (shape_at_1 _ _ _ _ H2).
    cbn [bind]. now rewrite (dict_get_not_in_keys _ _ Hno).
Qed.

Lemma missing_coefficients_key_error_witness :
  _sparse_combine (NdArray Examples.arr_1) Examples.arr_2 1
                  Examples.no_sparse false = Raise KeyError
  /\ _dense_combine (NdArray Examples.arr_1) Examples.arr_2 1
                    Examples.no_dense = Raise KeyError.
Proof.
  destruct (missing_coefficients_key_error 2 2 3 1 2 1
              Examples.arr_1 Examples.arr_2 1 eq_refl eq_refl)
    as (Hsparse & Hdense).
  split.
  - apply (Hsparse Examples.no_sparse); [simpl; tauto | reflexivity | lia].
  - apply (Hdense Examples.no_dense). simpl. tauto.
Defined.

(** C10. When [arr_1] is a torch tensor, both strategies return [None]:
    the branch computes nothing and raises nothing. *)
Theorem torch_branch_returns_none
        (t arr_2 : ndarray) (lam : Z)
        (sparse_cache : cg_cache sparse_table) (dense_cache : cg_cache ndarray)
        (return_empty_array : bool) :
  _sparse_combine (TorchTensor t) arr_2 lam sparse_cache return_empty_array
  = Ok None
  /\ _dense_combine (TorchTensor t) arr_2 lam dense_cache = Ok None.
Proof. split; reflexivity. Qed.

(** ** The dense strategy on an empty property axis *)

(** C1. The two strategies must return equal arrays on the same inputs.
    They do not when an input has no property: with coefficients available
    to both, the sparse strategy returns the array without elements of shape
    [2, 3, 0], while the dense strategy returns nothing and fails in its
    reshape, whose dimension [-1] cannot be inferred. *)
Theorem sparse_dense_diverge_without_properties :
  shape MoreExamples.no_property = [2; 3; 0]
  /\ shape Examples.arr_2 = [2; 1; 1]
  /\ dict_get triple_eqb (coeffs Examples.sparse_cache) (1, 0, 1)%Z
     = Ok Examples.sparse_110
  /\ dict_get triple_eqb (coeffs Examples.dense_cache) (1, 0, 1)%Z
     = Ok Examples.dense_110
  /\ _sparse_combine (NdArray MoreExamples.no_property) Examples.arr_2 1
                     Examples.sparse_cache false
     = Ok (Some (mk_ndarray [2; 3; 0] []))
  /\ _dense_combine (NdArray MoreExamples.no_property) Examples.arr_2 1
                    Examples.dense_cache
     = Raise (ValueError "cannot reshape array").
Proof.
  split; [reflexivity|]. split; [reflexivity|]. split; [reflexivity|].
  split; [reflexivity|]. split; reflexivity.
Qed.

(** C5. Both strategies must return an array of shape
    [n, 2 lam + 1, P1 * P2].  The dense strategy does not when the second
    input has no property: the sparse strategy returns an array of shape
    [2, 3, 0] in both of its modes, the dense strategy returns no array. *)
Theorem dense_combine_breaks_shape_contract :
  shape Examples.arr_1 = [2; 3; 2]
  /\ shape MoreExamples.scalar_without_property = [2; 1; 0]
  /\ (exists out,
        _sparse_combine (NdArray Examples.arr_1) MoreExamples.scalar_without_property
                        1 Examples.sparse_cache false
        = Ok (Some out)
        /\ shape out = [2; 3; 0])
  /\ (exists out,
        _sparse_combine (NdArray Examples.arr_1) MoreExamples.scalar_without_property
                        1 Examples.sparse_cache true
        = Ok (Some out)
        /\ shape out = [2; 3; 0])
  /\ _dense_combine (NdArray Examples.arr_1) MoreExamples.scalar_without_property
                    1 Examples.dense_cache
     = Raise (ValueError "cannot reshape array").
Proof.
  split; [reflexivity|]. split; [reflexivity|].
  split; [eexists; split; [vm_compute; reflexivity|reflexivity]|].
  split; [eexists; split; [vm_compute; reflexivity|reflexivity]|].
  reflexivity.
Qed.

(** ** Blocks and their constructor *)

Lemma shape_matches_eq (values : ndarray) (samples : Labels.t)
      (components : list Labels.t) (properties : Labels.t) :
  TensorBlock.shape_matches values samples components properties = true
  <-> shape values
      = Labels.len samples :: map Labels.len components ++ [Labels.len properties].
Proof.
  unfold TensorBlock.shape_matches.
  destruct (list_eq_dec Nat.eq_dec (shape values)
              (Labels.len samples :: map Labels.len components
                 ++ [Labels.len properties])); split; auto; discriminate.
Qed.

(** The invariant of a block. *)
Lemma block_shape (b : TensorBlock.t) :
  shape (TensorBlock.values b)
  = Labels.len (TensorBlock.samples b)
      :: map Labels.len (TensorBlock.components b)
      ++ [Labels.len (TensorBlock.properties b)].
Proof. apply shape_matches_eq. exact (TensorBlock.shape_ok b). Qed.

Lemma block_shape_3 (b : TensorBlock.t) (N M P : nat) :
  shape (TensorBlock.values b) = [N; M; P] ->
  Labels.len (TensorBlock.samples b) = N
  /\ Labels.len (TensorBlock.properties b) = P.
Proof.
  intros H. rewrite block_shape in H. injection H as Hs Hrest.
  split; [exact Hs|].
  change [M; P] with ([M] ++ [P]) in Hrest.
  apply app_inj_tail in Hrest as [_ Hp]. exact Hp.
Qed.

Lemma gradient_shape_4 (g : TensorBlock.t) (G X M P : nat)
      (component : Labels.t) (others : list Labels.t) :
  shape (TensorBlock.values g) = [G; X; M; P] ->
  TensorBlock.components g = component :: others ->
  Labels.len (TensorBlock.samples g) = G
  /\ Labels.len component = X
  /\ Labels.len (TensorBlock.properties g) = P.
Proof.
  intros H Hc. rewrite block_shape, Hc in H. cbn [map app] in H.
  injection H as Hs Hx Hrest.
  split; [exact Hs|]. split; [exact Hx|].
  change [M; P] with ([M] ++ [P]) in Hrest.
  apply app_inj_tail in Hrest as [_ Hp]. exact Hp.
Qed.

(** The constructor returns the block it is asked for when the shape of the
    values matches the labels, and fails otherwise. *)
Lemma new_spec (values : ndarray) (samples : Labels.t)
      (components : list Labels.t) (properties : Labels.t) :
  shape values
  = Labels.len samples :: map Labels.len components ++ [Labels.len properties] ->
  exists b,
    TensorBlock.new values samples components properties = Ok b
    /\ TensorBlock.values b = values
    /\ TensorBlock.samples b = samples
    /\ TensorBlock.components b = components
    /\ TensorBlock.properties b = properties
    /\ TensorBlock.gradients b = [].
Proof.
  intros H. apply shape_matches_eq in H. unfold TensorBlock.new.
  destruct (bool_dec (TensorBlock.shape_matches values samples components properties)
                     true) as [ok|no]; [|contradiction].
  eexists. split; [reflexivity|]. repeat split.
Qed.

Lemma new_ok (values : ndarray) (samples : Labels.t)
      (components : list Labels.t) (properties : Labels.t) (b : TensorBlock.t) :
  TensorBlock.new values samples components properties = Ok b ->
  TensorBlock.values b = values
  /\ TensorBlock.samples b = samples
  /\ TensorBlock.components b = components
  /\ TensorBlock.properties b = properties
  /\ TensorBlock.gradients b = [].
Proof.
  unfold TensorBlock.new.
  destruct (bool_dec (TensorBlock.shape_matches values samples components properties)
                     true) as [ok|no]; [|discriminate].
  intros H. injection H as <-. repeat split.
Qed.

Lemma new_fails (values : ndarray) (samples : Labels.t)
      (components : list Labels.t) (properties : Labels.t) :
  shape values
  <> Labels.len samples :: map Labels.len components ++ [Labels.len properties] ->
  TensorBlock.new values samples components properties
  = Raise (EquistoreError "the shape of the values does not match the labels").
Proof.
  intros H. unfold TensorBlock.new.
  destruct (bool_dec (TensorBlock.shape_matches values samples components properties)
                     true) as [ok|no]; [|reflexivity].
  exfalso. apply H. apply shape_matches_eq. exact ok.
Qed.

(** ** [power_spectrum.py]: the invariant block *)

Lemma broadcast_rev_same (sh : list nat) : broadcast_rev sh sh = Ok sh.
Proof.
  induction sh as [|d sh IH]; [reflexivity|].
  cbn [broadcast_rev]. rewrite broadcast_dim_same, IH. reflexivity.
Qed.

Lemma broadcast_shapes_same (sh : list nat) : broadcast_shapes sh sh = Ok sh.
Proof.
  unfold broadcast_shapes. rewrite broadcast_rev_same. cbn [bind].
  now rewrite rev_involutive.
Qed.

Lemma inv_sqrt_factor_nonneg (ell : Z) :
  (0 <= ell)%Z ->
  PowerSpectrum.inv_sqrt_factor ell = Ok (1 / sqrt (IZR (2 * ell + 1)))%R.
Proof.
  intros H. unfold PowerSpectrum.inv_sqrt_factor.
  replace (2 * ell + 1 <? 0)%Z with false by (symmetry; apply Z.ltb_ge; lia).
  reflexivity.
Qed.

Lemma product_rows_length (rows_1 rows_2 : list (list Z)) :
  length (PowerSpectrum.product_rows rows_1 rows_2)
  = length rows_1 * length rows_2.
Proof.
  unfold PowerSpectrum.product_rows.
  induction rows_1 as [|r rows_1 IH]; simpl; [reflexivity|].
  now rewrite length_app, length_map, IH.
Qed.

Lemma product_rows_nth (rows_1 rows_2 : list (list Z)) (i j : nat) :
  i < length rows_1 -> j < length rows_2 ->
  nth (i * length rows_2 + j) (PowerSpectrum.product_rows rows_1 rows_2) []
  = nth i rows_1 [] ++ nth j rows_2 [].
Proof.
  unfold PowerSpectrum.product_rows. revert i.
  induction rows_1 as [|r rows_1 IH]; intros i Hi Hj; simpl in Hi; [lia|].
  cbn [flat_map]. destruct i as [|i].
  - rewrite app_nth1 by (rewrite length_map; simpl; lia). simpl.
    rewrite (nth_indep _ [] (r ++ [])) by (rewrite length_map; lia).
    now rewrite (map_nth (fun properties_2 => r ++ properties_2)).
  - rewrite app_nth2 by (rewrite length_map; simpl; lia).
    rewrite length_map.
    replace (S i * length rows_2 + j - length rows_2)
      with (i * length rows_2 + j) by (simpl; lia).
    apply IH; [lia|assumption].
Qed.

Lemma product_rows_in (rows_1 rows_2 : list (list Z)) (r : list Z) :
  In r (PowerSpectrum.product_rows rows_1 rows_2)
  <-> exists r1 r2, In r1 rows_1 /\ In r2 rows_2 /\ r = r1 ++ r2.
Proof.
  unfold PowerSpectrum.product_rows. rewrite in_flat_map. split.
  - intros (r1 & H1 & H). apply in_map_iff in H as (r2 & <- & H2). eauto.
  - intros (r1 & r2 & H1 & H2 & ->). exists r1. split; [assumption|].
    apply in_map_iff. eauto.
Qed.

Lemma invariant_block_spec (N M P1 P2 : nat) (factor : R)
      (block_1 block_2 : TensorBlock.t) :
  shape (TensorBlock.values block_1) = [N; M; P1] ->
  shape (TensorBlock.values block_2) = [N; M; P2] ->
  Labels.eqb (TensorBlock.samples block_1) (TensorBlock.samples block_2) = true ->
  0 < N ->
  exists new_block,
    PowerSpectrum.invariant_block factor block_1 block_2 = Ok new_block
    /\ TensorBlock.samples new_block = TensorBlock.samples block_1
    /\ TensorBlock.components new_block = []
    /\ TensorBlock.properties new_block
       = Labels.mk ["species_neighbor_1"; "n1"; "species_neighbor_2"; "n2"]%string
           (PowerSpectrum.product_rows
              (Labels.values (TensorBlock.properties block_1))
              (Labels.values (TensorBlock.properties block_2)))
    /\ TensorBlock.gradients new_block = []
    /\ wf (TensorBlock.values new_block)
    /\ shape (TensorBlock.values new_block) = [N; P1 * P2]
    /\ forall s p1 p2, s < N -> p1 < P1 -> p2 < P2 ->
         item (TensorBlock.values new_block) [s; p1 * P2 + p2]
         = (factor * sum_upto M (fun m =>
                       item (TensorBlock.values block_1) [s; m; p1]
                       * item (TensorBlock.values block_2) [s; m; p2]))%R.
Proof.
  intros H1 H2 Hs HN. unfold PowerSpectrum.invariant_block.
  rewrite Hs. cbn [assert bind].
  destruct (swapaxes_spec (TensorBlock.values block_1) 1 2)
    as (v1 & -> & _ & Hv1_sh & Hv1_it); [unfold ndim; rewrite H1; simpl; lia ..|].
  rewrite H1 in Hv1_sh, Hv1_it.
  change (swap 1 2 [N; M; P1]) with [N; P1; M] in Hv1_sh, Hv1_it.
  cbn [bind].
  destruct (matmul_spec v1 (TensorBlock.values block_2) M P1 P2 [N] [N] [N])
    as (m & -> & Hm_wf & Hm_sh & Hm_it);
    [now rewrite Hv1_sh | now rewrite H2 | reflexivity || apply broadcast_rev_same |].
  cbn [rev app length] in Hm_sh, Hm_it. cbn [bind].
  rewrite (shape_at_0 (scalar_mul factor m) N [P1; P2]) by exact Hm_sh.
  cbn [bind].
  change [Z.of_nat N; (-1)%Z] with (map Z.of_nat [N] ++ (-1)%Z :: map Z.of_nat []).
  assert (Htot : size (shape (scalar_mul factor m)) = (P1 * P2) * size ([N] ++ [])).
  { cbn [shape scalar_mul]. rewrite Hm_sh. cbn [app size fold_right]. ring. }
  rewrite reshape_infer; rewrite ?Htot;
    [ | lia | cbn [app size fold_right]; lia | apply Nat.Div0.mod_mul ].
  rewrite Nat.div_mul by (cbn [app size fold_right]; lia).
  cbn [bind app].
  destruct (block_shape_3 block_1 N M P1 H1) as (Hlen_s & Hlen_1).
  destruct (block_shape_3 block_2 N M P2 H2) as (_ & Hlen_2).
  match goal with
  | |- exists b, TensorBlock.new ?v ?sa ?c ?p = _ /\ _ =>
      destruct (new_spec v sa c p) as (new_block & -> & Hv & Hsa & Hc & Hp & Hg)
  end.
  { cbn [shape map app]. rewrite Hlen_s. unfold Labels.len in *.
    cbn [Labels.values]. rewrite product_rows_length.
    now rewrite Hlen_1, Hlen_2. }
  exists new_block. split; [reflexivity|].
  rewrite Hv, Hsa, Hc, Hp, Hg.
  split; [reflexivity|]. split; [reflexivity|]. split; [reflexivity|].
  split; [reflexivity|].
  split; [|split; [reflexivity|]].
  - unfold wf. cbn [shape data scalar_mul]. rewrite length_map, Hm_wf, Hm_sh.
    cbn [size fold_right]. ring.
  - intros s p1 p2 Hs' Hp1 Hp2.
    rewrite (item_reshape_eq (scalar_mul factor m) _ [s; p1; p2]).
    2:{ cbn [shape scalar_mul]. rewrite Hm_sh. cbn [ravel size fold_right]. ring. }
    rewrite item_scalar_mul. f_equal.
    rewrite Hm_it by in_range_tac.
    cbn [firstn nth bcast_index length skipn combine map Nat.sub fst snd app].
    rewrite !bcoord_lt by lia.
    apply sum_upto_ext. intros t Ht.
    rewrite Hv1_it by in_range_tac. reflexivity.
Qed.

(** Without samples the invariant block is not built: the dimension [-1] of
    [data.reshape(data.shape[0], -1)] cannot be inferred. *)
Lemma invariant_block_no_samples (M P1 P2 : nat) (factor : R)
      (block_1 block_2 : TensorBlock.t) :
  shape (TensorBlock.values block_1) = [0; M; P1] ->
  shape (TensorBlock.values block_2) = [0; M; P2] ->
  Labels.eqb (TensorBlock.samples block_1) (TensorBlock.samples block_2) = true ->
  PowerSpectrum.invariant_block factor block_1 block_2
  = Raise (ValueError "cannot reshape array").
Proof.
  intros H1 H2 Hs. unfold PowerSpectrum.invariant_block.
  rewrite Hs. cbn [assert bind].
  destruct (swapaxes_spec (TensorBlock.values block_1) 1 2)
    as (v1 & -> & _ & Hv1_sh & _); [unfold ndim; rewrite H1; simpl; lia ..|].
  rewrite H1 in Hv1_sh. change (swap 1 2 [0; M; P1]) with [0; P1; M] in Hv1_sh.
  cbn [bind].
  destruct (matmul_spec v1 (TensorBlock.values block_2) M P1 P2 [0] [0] [0])
    as (m & -> & _ & Hm_sh & _);
    [now rewrite Hv1_sh | now rewrite H2 | reflexivity |].
  cbn [rev app length] in Hm_sh. cbn [bind].
  rewrite (shape_at_0 (scalar_mul factor m) 0 [P1; P2]) by exact Hm_sh.
  cbn [bind].
  change [Z.of_nat 0; (-1)%Z] with (map Z.of_nat [0] ++ (-1)%Z :: map Z.of_nat []).
  rewrite reshape_infer_empty; [reflexivity | lia | reflexivity].
Qed.

Lemma bind_ok {A B : Type} (c : result A) (k : A -> result B) (b : B) :
  bind c k = Ok b -> exists a, c = Ok a /\ k a = Ok b.
Proof. destruct c as [a|e]; simpl; [eauto|discriminate]. Qed.

Lemma for_each_invariant {A S : Type} (P : S -> Prop)
      (body : A -> S -> result S) (xs : list A) :
  (forall x s s', body x s = Ok s' -> P s -> P s') ->
  forall s s', for_each xs body s = Ok s' -> P s -> P s'.
Proof.
  intros Hbody. induction xs as [|x xs IH]; intros s s' H HP; simpl in H.
  - now injection H as <-.
  - apply bind_ok in H as (s1 & H1 & H2). eauto.
Qed.

Lemma add_gradient_ok (b g out : TensorBlock.t) (parameter : string) :
  TensorBlock.add_gradient b parameter g = Ok out ->
  out = TensorBlock.with_gradients b (TensorBlock.gradients b ++ [(parameter, g)]).
Proof.
  unfold TensorBlock.add_gradient.
  destruct (dict_get String.eqb (TensorBlock.gradients b) parameter);
    [discriminate|]. now intros [= <-].
Qed.

(** The gradient step only adds a gradient to the new block. *)
Lemma positions_gradients_keeps (new_block block_1 block_2 out : TensorBlock.t)
      (factor : R) :
  PowerSpectrum._positions_gradients new_block block_1 block_2 factor = Ok out ->
  TensorBlock.values out = TensorBlock.values new_block
  /\ TensorBlock.samples out = TensorBlock.samples new_block
  /\ TensorBlock.components out = TensorBlock.components new_block
  /\ TensorBlock.properties out = TensorBlock.properties new_block.
Proof.
  unfold PowerSpectrum._positions_gradients. intros H.
  apply bind_ok in H as (g1 & _ & H).
  apply bind_ok in H as (g2 & _ & H).
  apply bind_ok in H as ([gs gv] & _ & H).
  apply bind_ok in H as (comp & _ & H).
  apply bind_ok in H as (gradient & _ & H).
  apply add_gradient_ok in H. subst out. auto.
Qed.

Lemma combine_blocks_keeps (factor : R)
      (block_1 block_2 new_block out : TensorBlock.t) :
  PowerSpectrum.invariant_block factor block_1 block_2 = Ok new_block ->
  PowerSpectrum.combine_blocks factor block_1 block_2 = Ok out ->
  TensorBlock.values out = TensorBlock.values new_block
  /\ TensorBlock.samples out = TensorBlock.samples new_block
  /\ TensorBlock.components out = TensorBlock.components new_block
  /\ TensorBlock.properties out = TensorBlock.properties new_block.
Proof.
  intros Hnb H. unfold PowerSpectrum.combine_blocks in H.
  rewrite Hnb in H. cbn [bind] in H.
  set (P := fun b : TensorBlock.t =>
              TensorBlock.values b = TensorBlock.values new_block
              /\ TensorBlock.samples b = TensorBlock.samples new_block
              /\ TensorBlock.components b = TensorBlock.components new_block
              /\ TensorBlock.properties b = TensorBlock.properties new_block).
  apply (for_each_invariant P _ _) in H; [exact H| |unfold P; auto].
  intros parameter s s' Hstep (Hv & Hs & Hc & Hp).
  destruct (String.eqb parameter "positions").
  - apply positions_gradients_keeps in Hstep as (Hv' & Hs' & Hc' & Hp').
    unfold P. repeat split; congruence.
  - injection Hstep as <-. unfold P. auto.
Qed.

(** ** Theorems on the invariant block *)

(** C4. For a pair of blocks of the channel [ell] with the same samples
    (at least one sample: numpy cannot infer the [-1] of
    [data.reshape(data.shape[0], -1)] on an empty array), the values of the
    output block are, at [(sample, p1 * P2 + p2)],
    [1 / sqrt(2 ell + 1)] times the sum over [m] of
    [arr_1[sample, m, p1] * arr_2[sample, m, p2]]. *)
Theorem power_spectrum_values
        (N M P1 P2 : nat) (ell : Z) (block_1 block_2 : TensorBlock.t) :
  shape (TensorBlock.values block_1) = [N; M; P1] ->
  shape (TensorBlock.values block_2) = [N; M; P2] ->
  Labels.eqb (TensorBlock.samples block_1) (TensorBlock.samples block_2) = true ->
  0 < N -> (0 <= ell)%Z ->
  exists factor new_block,
    PowerSpectrum.inv_sqrt_factor ell = Ok factor
    /\ factor = (1 / sqrt (IZR (2 * ell + 1)))%R
    /\ PowerSpectrum.invariant_block factor block_1 block_2 = Ok new_block
    /\ shape (TensorBlock.values new_block) = [N; P1 * P2]
    /\ (forall s p1 p2, s < N -> p1 < P1 -> p2 < P2 ->
          item (TensorBlock.values new_block) [s; p1 * P2 + p2]
          = (1 / sqrt (IZR (2 * ell + 1))
             * sum_upto M (fun m =>
                 item (TensorBlock.values block_1) [s; m; p1]
                 * item (TensorBlock.values block_2) [s; m; p2]))%R)
    /\ (forall out,
          PowerSpectrum.combine_blocks factor block_1 block_2 = Ok out ->
          TensorBlock.values out = TensorBlock.values new_block)
    /\ (TensorBlock.gradients_list block_1 = [] ->
        PowerSpectrum.combine_blocks factor block_1 block_2 = Ok new_block).
Proof.
  intros H1 H2 Hs HN Hell.
  destruct (invariant_block_spec N M P1 P2 (1 / sqrt (IZR (2 * ell + 1)))%R
              block_1 block_2 H1 H2 Hs HN)
    as (new_block & Hnb & _ & _ & _ & _ & _ & Hsh & Hit).
  eexists. eexists.
  split; [apply inv_sqrt_factor_nonneg; assumption|].
  split; [reflexivity|]. split; [exact Hnb|].
  split; [exact Hsh|]. split; [exact Hit|]. split.
  - intros out Hout. now apply (combine_blocks_keeps _ _ _ _ _ Hnb Hout).
  - intros Hnil. unfold PowerSpectrum.combine_blocks.
    rewrite Hnb, Hnil. reflexivity.
Qed.

(** C9. For a pair of blocks that [compute] combines, the properties of the
    output block are the rows [r1 ++ r2] for [r1] a property row of
    [block_1] (outer loop) and [r2] a property row of [block_2] (inner
    loop), in row-major order. *)
Theorem power_spectrum_properties
        (N M P1 P2 : nat) (factor : R) (block_1 block_2 : TensorBlock.t) :
  shape (TensorBlock.values block_1) = [N; M; P1] ->
  shape (TensorBlock.values block_2) = [N; M; P2] ->
  Labels.eqb (TensorBlock.samples block_1) (TensorBlock.samples block_2) = true ->
  0 < N ->
  let rows_1 := Labels.values (TensorBlock.properties block_1) in
  let rows_2 := Labels.values (TensorBlock.properties block_2) in
  exists new_block,
    PowerSpectrum.invariant_block factor block_1 block_2 = Ok new_block
    /\ Labels.names (TensorBlock.properties new_block)
       = ["species_neighbor_1"; "n1"; "species_neighbor_2"; "n2"]%string
    /\ Labels.values (TensorBlock.properties new_block)
       = flat_map (fun r1 => map (fun r2 => r1 ++ r2) rows_2) rows_1
    /\ Labels.len (TensorBlock.properties new_block)
       = length rows_1 * length rows_2
    /\ (forall i j, i < length rows_1 -> j < length rows_2 ->
          nth (i * length rows_2 + j)
              (Labels.values (TensorBlock.properties new_block)) []
          = nth i rows_1 [] ++ nth j rows_2 [])
    /\ (forall r, In r (Labels.values (TensorBlock.properties new_block))
                  <-> exists r1 r2, In r1 rows_1 /\ In r2 rows_2 /\ r = r1 ++ r2)
    /\ (forall out,
          PowerSpectrum.combine_blocks factor block_1 block_2 = Ok out ->
          TensorBlock.properties out = TensorBlock.properties new_block).
Proof.
  intros H1 H2 Hs HN rows_1 rows_2.
  destruct (invariant_block_spec N M P1 P2 factor block_1 block_2 H1 H2 Hs HN)
    as (new_block & Hnb & _ & _ & Hp & _).
  exists new_block. split; [exact Hnb|]. rewrite Hp.
  cbn [Labels.names Labels.values Labels.len].
  split; [reflexivity|]. split; [reflexivity|].
  split; [apply product_rows_length|].
  split; [apply product_rows_nth|].
  split; [apply product_rows_in|].
  intros out Hout. rewrite <- Hp. now apply (combine_blocks_keeps _ _ _ _ _ Hnb Hout).
Qed.

(** ** Theorems on construction *)

(** C8. Two calculators whose ['max_angular'] differ are rejected by
    [__init__] with a [ValueError] (for two supported calculators, the one
    on ['max_angular']), so that no object exists on which [compute] could
    be called; and [compute] does not look at the hyper-parameters at all:
    its result is the same whatever they are. *)
Theorem max_angular_mismatch_rejected
        (Systems : Type)
        (calculator_1 calculator_2 : PowerSpectrum.Calculator Systems)
        (max_angular_1 max_angular_2 : Z) :
  dict_get String.eqb (PowerSpectrum.parameters calculator_1) "max_angular"%string
  = Ok max_angular_1 ->
  dict_get String.eqb (PowerSpectrum.parameters calculator_2) "max_angular"%string
  = Ok max_angular_2 ->
  max_angular_1 <> max_angular_2 ->
  (exists msg,
      PowerSpectrum.__init__ calculator_1 (Some calculator_2)
      = Raise (ValueError msg))
  /\ (PowerSpectrum.is_supported (PowerSpectrum.c_name calculator_1) = true ->
      PowerSpectrum.is_supported (PowerSpectrum.c_name calculator_2) = true ->
      PowerSpectrum.__init__ calculator_1 (Some calculator_2)
      = Raise (ValueError "'max_angular' of both calculators must be the same!"))
  /\ (forall keys_to_properties parameters_1 parameters_2
             systems gradients use_native_system,
         PowerSpectrum.compute keys_to_properties
           (PowerSpectrum.mk (with_parameters calculator_1 parameters_1)
                             (Some (with_parameters calculator_2 parameters_2)))
           systems gradients use_native_system
         = PowerSpectrum.compute keys_to_properties
             (PowerSpectrum.mk calculator_1 (Some calculator_2))
             systems gradients use_native_system).
Proof.
  intros Hp1 Hp2 Hne.
  assert (Hmax : forall self,
             (max_angular_1 <- dict_get String.eqb
                                 (PowerSpectrum.parameters calculator_1) "max_angular"%string ;;
              max_angular_2 <- dict_get String.eqb
                                 (PowerSpectrum.parameters calculator_2) "max_angular"%string ;;
              if negb (max_angular_1 =? max_angular_2)%Z
              then Raise (ValueError "'max_angular' of both calculators must be the same!")
              else Ok self)
             = (Raise (ValueError "'max_angular' of both calculators must be the same!")
                : result (PowerSpectrum.t Systems))).
  { intros self. rewrite Hp1, Hp2. cbn [bind].
    apply Z.eqb_neq in Hne. now rewrite Hne. }
  split; [|split].
  - unfold PowerSpectrum.__init__.
    destruct (negb (PowerSpectrum.is_supported (PowerSpectrum.c_name calculator_1)));
      [eauto|].
    destruct (negb (PowerSpectrum.is_supported (PowerSpectrum.c_name calculator_2)));
      [eauto|].
    rewrite Hmax. eauto.
  - intros Hs1 Hs2. unfold PowerSpectrum.__init__.
    rewrite Hs1, Hs2. cbn [negb]. apply Hmax.
  - reflexivity.
Qed.

(** ** Indexing with integer arrays *)

Lemma bcast_index_same (sh idx : list nat) :
  in_range sh idx -> bcast_index sh idx = idx.
Proof.
  intros H. unfold bcast_index.
  rewrite (in_range_length _ _ H), Nat.sub_diag. cbn [skipn].
  induction H as [|i d idx sh Hid _ IH]; [reflexivity|].
  cbn [combine map fst snd]. now rewrite bcoord_lt, IH.
Qed.

Lemma normalize_all_in_range (idxs : list Z) (d : nat) :
  Forall (fun i => 0 <= i < Z.of_nat d)%Z idxs ->
  normalize_all idxs d = Ok (map Z.to_nat idxs).
Proof.
  induction 1 as [|i idxs Hi _ IH]; [reflexivity|].
  cbn [normalize_all map]. rewrite normalize_index_in_range by assumption.
  cbn [bind]. now rewrite IH.
Qed.

Lemma normalize_all_of_nat (ks : list nat) (d : nat) :
  Forall (fun k => k < d) ks -> normalize_all (map Z.of_nat ks) d = Ok ks.
Proof.
  intros H. rewrite normalize_all_in_range.
  - now rewrite map_to_nat_of_nat.
  - apply Forall_map. eapply Forall_impl; [|exact H]. simpl. lia.
Qed.

Lemma take_spec (a : ndarray) (d : nat) (sh : list nat) (idxs : list Z)
      (ks : list nat) :
  shape a = d :: sh -> normalize_all idxs d = Ok ks ->
  exists c, take a idxs = Ok c /\ wf c /\ shape c = length ks :: sh
            /\ forall j rest, in_range (length ks :: sh) (j :: rest) ->
                 item c (j :: rest) = item a (nth j ks 0 :: rest).
Proof.
  intros Hs Hn. unfold take. rewrite Hs, Hn. cbn [bind].
  eexists. split; [reflexivity|]. split; [apply wf_tabulate|].
  split; [reflexivity|]. intros j rest H. now rewrite item_tabulate.
Qed.

Lemma position_some {A : Type} (eqb : A -> A -> bool) (x d : A) (l : list A) (j : nat) :
  (forall y, eqb y x = true -> y = x) ->
  Labels.position eqb x l = Some j -> j < length l /\ nth j l d = x.
Proof.
  intros Heq. revert j. induction l as [|y l IH]; intros j H; simpl in H.
  - discriminate.
  - destruct (eqb y x) eqn:E.
    + injection H as <-. split; [simpl; lia|]. simpl. auto.
    + destruct (Labels.position eqb x l) as [j'|]; [|discriminate].
      injection H as <-. destruct (IH j' eq_refl) as [Hlt Hnth].
      split; [simpl; lia|exact Hnth].
Qed.

Lemma position_none {A : Type} (eqb : A -> A -> bool) (x : A) (l : list A) :
  (forall y, y = x -> eqb y x = true) ->
  Labels.position eqb x l = None -> ~ In x l.
Proof.
  intros Heq. induction l as [|y l IH]; intros H; simpl in *; [tauto|].
  destruct (eqb y x) eqn:E; [discriminate|].
  destruct (Labels.position eqb x l); [discriminate|].
  intros [->|Hin]; [|now apply IH].
  rewrite Heq in E by reflexivity. discriminate.
Qed.

Lemma position_in {A : Type} (eqb : A -> A -> bool) (x : A) (l : list A) :
  (forall y, y = x -> eqb y x = true) ->
  In x l -> exists j, Labels.position eqb x l = Some j.
Proof.
  intros Heq Hin. destruct (Labels.position eqb x l) as [j|] eqn:E; [eauto|].
  now apply position_none in E.
Qed.

Lemma put_rows_fold (a rows : ndarray) (ks : list nat) (u : nat) (rest : list nat) :
  NoDup ks -> in_range (shape a) (u :: rest) ->
  forall start acc,
    item (fold_left
            (fun acc jk =>
               tabulate (shape a) (fun src =>
                 if hd 0 src =? snd jk then item rows (fst jk :: tl src)
                 else item acc src))
            (combine (seq start (length ks)) ks) acc) (u :: rest)
    = match Labels.position Nat.eqb u ks with
      | Some j => item rows (start + j :: rest)
      | None => item acc (u :: rest)
      end.
Proof.
  intros Hnd Hr. induction Hnd as [|k ks Hnotin Hnd IH]; intros start acc.
  - reflexivity.
  - cbn [length seq combine fold_left Labels.position].
    rewrite IH. destruct (k =? u) eqn:E.
    + apply Nat.eqb_eq in E. subst k.
      destruct (Labels.position Nat.eqb u ks) as [j|] eqn:Ep.
      * apply (position_some Nat.eqb u 0) in Ep as [Hj Hn];
          [|intros y Hy; now apply Nat.eqb_eq].
        exfalso. apply Hnotin. rewrite <- Hn. now apply nth_In.
      * rewrite item_tabulate by assumption. cbn [hd tl snd fst].
        rewrite Nat.eqb_refl, Nat.add_0_r. reflexivity.
    + destruct (Labels.position Nat.eqb u ks) as [j|]; cbn [option_map].
      * f_equal. f_equal. lia.
      * rewrite item_tabulate by assumption. cbn [hd tl snd fst].
        rewrite Nat.eqb_sym, E. reflexivity.
Qed.

Lemma put_rows_spec (a rows : ndarray) (ks : list nat) (u : nat) (rest : list nat) :
  NoDup ks -> in_range (shape a) (u :: rest) ->
  item (put_rows a ks rows) (u :: rest)
  = match Labels.position Nat.eqb u ks with
    | Some j => item rows (j :: rest)
    | None => item a (u :: rest)
    end.
Proof.
  intros Hnd Hr. unfold put_rows. now rewrite (put_rows_fold a rows ks u rest Hnd Hr).
Qed.

Lemma put_rows_wf (a rows : ndarray) (ks : list nat) :
  wf a -> wf (put_rows a ks rows) /\ shape (put_rows a ks rows) = shape a.
Proof.
  intros Hwf. unfold put_rows.
  generalize (combine (seq 0 (length ks)) ks) as jks. intros jks.
  assert (H : forall acc, wf acc /\ shape acc = shape a ->
            wf (fold_left
                  (fun acc jk =>
                     tabulate (shape a) (fun src =>
                       if hd 0 src =? snd jk then item rows (fst jk :: tl src)
                       else item acc src)) jks acc)
            /\ shape (fold_left
                  (fun acc jk =>
                     tabulate (shape a) (fun src =>
                       if hd 0 src =? snd jk then item rows (fst jk :: tl src)
                       else item acc src)) jks acc) = shape a).
  { induction jks as [|jk jks IH]; intros acc Hacc; [exact Hacc|].
    cbn [fold_left]. apply IH. split; [apply wf_tabulate|reflexivity]. }
  apply H. auto.
Qed.

Lemma iadd_take_spec (a v : ndarray) (d : nat) (sh : list nat) (ks : list nat) :
  wf a -> shape a = d :: sh -> shape v = length ks :: sh ->
  Forall (fun k => k < d) ks -> NoDup ks ->
  exists c, iadd_take a (map Z.of_nat ks) v = Ok c /\ wf c /\ shape c = d :: sh
            /\ forall u rest, in_range (d :: sh) (u :: rest) ->
                 item c (u :: rest)
                 = match Labels.position Nat.eqb u ks with
                   | Some j => (item a (u :: rest) + item v (j :: rest))%R
                   | None => item a (u :: rest)
                   end.
Proof.
  intros Hwf Ha Hv Hks Hnd. unfold iadd_take.
  pose proof (normalize_all_of_nat ks d Hks) as Hn.
  destruct (take_spec a d sh (map Z.of_nat ks) ks Ha Hn)
    as (rows & -> & _ & Hr_sh & Hr_it).
  cbn [bind].
  destruct (add_spec rows v (length ks :: sh)) as (sum & -> & _ & Hs_sh & Hs_it).
  { rewrite Hr_sh, Hv. apply broadcast_shapes_same. }
  cbn [bind]. rewrite Hs_sh, Hr_sh.
  destruct (list_eq_dec Nat.eq_dec (length ks :: sh) (length ks :: sh)) as [_|Hne];
    [|contradiction].
  rewrite Ha. cbn [hd]. rewrite Hn. cbn [bind].
  destruct (put_rows_wf a sum ks Hwf) as [Hwf' Hsh'].
  eexists. split; [reflexivity|]. split; [assumption|].
  split; [congruence|].
  intros u rest Hur.
  rewrite put_rows_spec by (rewrite ?Ha; assumption).
  destruct (Labels.position Nat.eqb u ks) as [j|] eqn:Ep; [|reflexivity].
  apply (position_some Nat.eqb u 0) in Ep as [Hj Hnth];
    [|intros y Hy; now apply Nat.eqb_eq].
  assert (Hjr : in_range (length ks :: sh) (j :: rest)).
  { inversion Hur; subst. constructor; assumption. }
  rewrite Hs_it by assumption.
  rewrite Hr_sh, Hv, !bcast_index_same by assumption.
  rewrite Hr_it by assumption. now rewrite Hnth.
Qed.

(** ** The union of two label sets *)

Lemma row_eqb_eq (r r' : list Z) : Labels.row_eqb r r' = true <-> r = r'.
Proof.
  unfold Labels.row_eqb. destruct (list_eq_dec Z.eq_dec r r'); split;
    intros; congruence.
Qed.

Lemma names_eqb_eq (n n' : list string) : Labels.names_eqb n n' = true <-> n = n'.
Proof.
  unfold Labels.names_eqb. destruct (list_eq_dec string_dec n n'); split;
    intros; congruence.
Qed.

Lemma dedup_fold (rows acc : list (list Z)) :
  NoDup acc ->
  NoDup (fold_left
           (fun u r => if existsb (Labels.row_eqb r) u then u else u ++ [r])
           rows acc)
  /\ forall r,
       In r (fold_left
               (fun u r => if existsb (Labels.row_eqb r) u then u else u ++ [r])
               rows acc)
       <-> In r acc \/ In r rows.
Proof.
  revert acc. induction rows as [|x rows IH]; intros acc Hnd; cbn [fold_left].
  - split; [assumption|]. intros r. simpl. tauto.
  - destruct (existsb (Labels.row_eqb x) acc) eqn:E.
    + destruct (IH acc Hnd) as [H1 H2]. split; [assumption|].
      intros r. rewrite H2. simpl.
      apply existsb_exists in E as (y & Hy & Hxy). apply row_eqb_eq in Hxy. subst y.
      intuition (subst; auto).
    + assert (Hnotin : ~ In x acc).
      { intros Hin. apply not_true_iff_false in E. apply E.
        apply existsb_exists. exists x. split; [assumption|now apply row_eqb_eq]. }
      assert (Hnd' : NoDup (acc ++ [x])).
      { apply NoDup_app; [assumption | repeat constructor; simpl; tauto |].
        intros y Hy [<-|[]]. contradiction. }
      destruct (IH (acc ++ [x]) Hnd') as [H1 H2]. split; [assumption|].
      intros r. rewrite H2, in_app_iff. simpl. tauto.
Qed.

Lemma dedup_NoDup (rows : list (list Z)) : NoDup (Labels.dedup rows).
Proof. apply dedup_fold. constructor. Qed.

Lemma dedup_In (rows : list (list Z)) (r : list Z) :
  In r (Labels.dedup rows) <-> In r rows.
Proof.
  unfold Labels.dedup. destruct (dedup_fold rows [] (NoDup_nil _)) as [_ H].
  rewrite H. simpl. tauto.
Qed.

(** The position in [u] of each row of [rows], as natural numbers. *)
Lemma positions_in_found (u rows : list (list Z)) :
  (forall r, In r rows -> In r u) ->
  NoDup u -> NoDup rows ->
  exists ks,
    Labels.positions_in u rows = map Z.of_nat ks
    /\ length ks = length rows
    /\ Forall (fun k => k < length u) ks
    /\ NoDup ks
    /\ forall k, k < length u ->
         Labels.position Nat.eqb k ks
         = Labels.position Labels.row_eqb (nth k u []) rows.
Proof.
  intros Hin Hndu Hnd. induction rows as [|r rows IH].
  - exists []. repeat split; constructor.
  - inversion Hnd as [|? ? Hnotin Hnd']; subst.
    destruct (IH (fun r' H => Hin r' (or_intror H)) Hnd')
      as (ks & Hks & Hlen & Hlt & Hndk & Hpos).
    destruct (position_in Labels.row_eqb r u) as [j Hj];
      [intros y ->; now apply row_eqb_eq | apply Hin; now left |].
    pose proof (position_some Labels.row_eqb r [] u j
                  (fun y Hy => proj1 (row_eqb_eq y r) Hy) Hj) as [Hjlt Hjn].
    exists (j :: ks). cbn [Labels.positions_in map length].
    rewrite Hj. fold (Labels.positions_in u rows). rewrite Hks.
    split; [reflexivity|]. split; [congruence|].
    split; [constructor; assumption|].
    assert (Heq : forall k, k < length u ->
                    (j =? k) = Labels.row_eqb r (nth k u [])).
    { intros k Hk. destruct (j =? k) eqn:E.
      - apply Nat.eqb_eq in E. subst k. symmetry. apply row_eqb_eq. auto.
      - symmetry. apply not_true_iff_false. intros Hr. apply row_eqb_eq in Hr.
        apply Nat.eqb_neq in E. apply E.
        apply (proj1 (NoDup_nth u []) Hndu); [assumption..|congruence]. }
    split.
    + constructor; [|assumption]. intros Hjin.
      apply (In_nth _ _ 0) in Hjin as (i & Hi & Hnth).
      (* the row at position [i] of [rows] would be [r] *)
      assert (Hp : Labels.position Nat.eqb j ks
                   = Labels.position Labels.row_eqb (nth j u []) rows)
        by (apply Hpos; assumption).
      rewrite Hjn in Hp.
      destruct (position_in Nat.eqb j ks) as [i' Hi'];
        [intros y ->; apply Nat.eqb_refl | rewrite <- Hnth; now apply nth_In |].
      rewrite Hi' in Hp. symmetry in Hp.
      apply (position_some Labels.row_eqb r [] rows i') in Hp as [Hlt' Hn'];
        [|intros y Hy; now apply row_eqb_eq].
      apply Hnotin. rewrite <- Hn'. now apply nth_In.
    + intros k Hk. cbn [Labels.position].
      rewrite (Heq k Hk), (Hpos k Hk). reflexivity.
Qed.

Lemma union_and_mapping_spec (s1 s2 : Labels.t) :
  Labels.names s1 = Labels.names s2 ->
  NoDup (Labels.values s1) -> NoDup (Labels.values s2) ->
  let u := Labels.dedup (Labels.values s1 ++ Labels.values s2) in
  exists ks1 ks2,
    Labels.union_and_mapping s1 s2
    = Ok (Labels.mk (Labels.names s1) u, map Z.of_nat ks1, map Z.of_nat ks2)
    /\ length ks1 = length (Labels.values s1)
    /\ length ks2 = length (Labels.values s2)
    /\ Forall (fun k => k < length u) ks1
    /\ Forall (fun k => k < length u) ks2
    /\ NoDup ks1 /\ NoDup ks2
    /\ forall k, k < length u ->
         Labels.position Nat.eqb k ks1
         = Labels.position Labels.row_eqb (nth k u []) (Labels.values s1)
         /\ Labels.position Nat.eqb k ks2
            = Labels.position Labels.row_eqb (nth k u []) (Labels.values s2).
Proof.
  intros Hn Hnd1 Hnd2 u.
  destruct (positions_in_found u (Labels.values s1)) as (ks1 & E1 & L1 & B1 & N1 & P1);
    [intros r Hr; apply dedup_In, in_or_app; now left
    | apply dedup_NoDup | assumption |].
  destruct (positions_in_found u (Labels.values s2)) as (ks2 & E2 & L2 & B2 & N2 & P2);
    [intros r Hr; apply dedup_In, in_or_app; now right
    | apply dedup_NoDup | assumption |].
  exists ks1, ks2. unfold Labels.union_and_mapping.
  apply names_eqb_eq in Hn. rewrite Hn. fold u. rewrite E1, E2.
  split; [reflexivity|].
  do 6 (split; [assumption|]).
  intros k Hk. split; [apply P1 | apply P2]; assumption.
Qed.

(** ** [power_spectrum.py]: the gradients *)

Lemma column_length (l : Labels.t) (name : string) (col : list Z) :
  Labels.column l name = Ok col -> length col = Labels.len l.
Proof.
  unfold Labels.column, Labels.len.
  destruct (Labels.position String.eqb name (Labels.names l)); [|discriminate].
  intros [= <-]. apply length_map.
Qed.

Lemma positions_gradients_spec
      (N M P1 P2 G1 G2 : nat) (factor : R)
      (new_block block_1 block_2 gradient_1 gradient_2 : TensorBlock.t)
      (sample_1 sample_2 : list Z) (component : Labels.t) (others : list Labels.t) :
  TensorBlock.gradient block_1 "positions" = Ok gradient_1 ->
  TensorBlock.gradient block_2 "positions" = Ok gradient_2 ->
  shape (TensorBlock.values block_1) = [N; M; P1] ->
  shape (TensorBlock.values block_2) = [N; M; P2] ->
  shape (TensorBlock.values gradient_1) = [G1; 3; M; P1] ->
  shape (TensorBlock.values gradient_2) = [G2; 3; M; P2] ->
  Labels.len (TensorBlock.samples gradient_1) = G1 ->
  Labels.len (TensorBlock.samples gradient_2) = G2 ->
  0 < G1 -> 0 < G2 ->
  Labels.names (TensorBlock.samples gradient_1)
  = Labels.names (TensorBlock.samples gradient_2) ->
  NoDup (Labels.values (TensorBlock.samples gradient_1)) ->
  NoDup (Labels.values (TensorBlock.samples gradient_2)) ->
  Labels.column (TensorBlock.samples gradient_1) "sample" = Ok sample_1 ->
  Labels.column (TensorBlock.samples gradient_2) "sample" = Ok sample_2 ->
  Forall (fun s => 0 <= s < Z.of_nat N)%Z sample_1 ->
  Forall (fun s => 0 <= s < Z.of_nat N)%Z sample_2 ->
  TensorBlock.components gradient_1 = component :: others ->
  Labels.len (TensorBlock.properties new_block) = P1 * P2 ->
  TensorBlock.gradients new_block = [] ->
  let rows_1 := Labels.values (TensorBlock.samples gradient_1) in
  let rows_2 := Labels.values (TensorBlock.samples gradient_2) in
  let union := Labels.dedup (rows_1 ++ rows_2) in
  exists gradient,
    PowerSpectrum._positions_gradients new_block block_1 block_2 factor
    = Ok (TensorBlock.with_gradients new_block [("positions"%string, gradient)])
    /\ TensorBlock.samples gradient
       = Labels.mk (Labels.names (TensorBlock.samples gradient_1)) union
    /\ TensorBlock.components gradient = [component]
    /\ TensorBlock.properties gradient = TensorBlock.properties new_block
    /\ wf (TensorBlock.values gradient)
    /\ shape (TensorBlock.values gradient) = [length union; 3; P1 * P2]
    /\ forall u x p1 p2, u < length union -> x < 3 -> p1 < P1 -> p2 < P2 ->
         item (TensorBlock.values gradient) [u; x; p1 * P2 + p2]
         = (term_at rows_1 (nth u union [])
              (fun g => gradient_term_1 factor M (TensorBlock.values gradient_1)
                          (TensorBlock.values block_2) sample_1 g x p1 p2)
            + term_at rows_2 (nth u union [])
                (fun g => gradient_term_2 factor M (TensorBlock.values block_1)
                            (TensorBlock.values gradient_2) sample_2 g x p1 p2))%R.
Proof.
  intros Hg1 Hg2 Hv1 Hv2 Hgv1 Hgv2 HG1 HG2 HG1pos HG2pos Hnames Hnd1 Hnd2
         Hcol1 Hcol2 Hs1 Hs2 Hcomp Hprops Hnograd rows_1 rows_2 union.
  unfold PowerSpectrum._positions_gradients.
  rewrite Hg1, Hg2. cbn [bind]. rewrite HG1, HG2, Hprops.
  replace (G1 =? 0) with false by (symmetry; apply Nat.eqb_neq; lia).
  replace (G2 =? 0) with false by (symmetry; apply Nat.eqb_neq; lia).
  cbn [orb].
  destruct (union_and_mapping_spec _ _ Hnames Hnd1 Hnd2)
    as (ks1 & ks2 & -> & L1 & L2 & B1 & B2 & N1 & N2 & Hpos).
  fold rows_1 rows_2 union in L1, L2, B1, B2, Hpos |- *.
  cbn [bind Labels.values].
  (* the zero array *)
  change [Z.of_nat (length union); 3%Z; Z.of_nat (P1 * P2)]
    with (map Z.of_nat [length union; 3; P1 * P2]).
  destruct (zeros_spec [length union; 3; P1 * P2]) as (z & -> & Hz_wf & Hz_sh & Hz_it).
  cbn [bind].
  assert (Hl1 : length rows_1 = G1) by exact HG1.
  assert (Hl2 : length rows_2 = G2) by exact HG2.
  pose proof (column_length _ _ _ Hcol1) as Lc1. rewrite HG1 in Lc1.
  pose proof (column_length _ _ _ Hcol2) as Lc2. rewrite HG2 in Lc2.
  (* first term: d arr_1 . arr_2 *)
  destruct (swapaxes_spec (TensorBlock.values gradient_1) 2 3)
    as (g1 & -> & _ & Hg1_sh & Hg1_it); [unfold ndim; rewrite Hgv1; simpl; lia ..|].
  rewrite Hgv1 in Hg1_sh, Hg1_it.
  change (swap 2 3 [G1; 3; M; P1]) with [G1; 3; P1; M] in Hg1_sh, Hg1_it.
  cbn [bind]. rewrite Hcol1. cbn [bind].
  destruct (take_spec (TensorBlock.values block_2) N [M; P2] sample_1
              (map Z.to_nat sample_1) Hv2 (normalize_all_in_range _ _ Hs1))
    as (b2 & -> & _ & Hb2_sh & Hb2_it).
  rewrite length_map, Lc1 in Hb2_sh, Hb2_it. cbn [bind].
  destruct (getitem_spec b2 [All; NewAxis] [G1; 1; M; P2])
    as (b2' & -> & _ & Hb2'_sh & Hb2'_it); [now rewrite Hb2_sh|].
  rewrite Hb2_sh in Hb2'_it. cbn [bind].
  destruct (matmul_spec g1 b2' M P1 P2 [3; G1] [1; G1] [3; G1])
    as (m1 & -> & Hm1_wf & Hm1_sh & Hm1_it);
    [now rewrite Hg1_sh | now rewrite Hb2'_sh
    | cbn [broadcast_rev]; bcast_dims; reflexivity |].
  cbn [rev app length] in Hm1_sh, Hm1_it. cbn [bind].
  destruct (take_spec z (length union) [3; P1 * P2] (map Z.of_nat ks1) ks1
              Hz_sh (normalize_all_of_nat _ _ B1)) as (t1 & -> & _).
  cbn [bind]. rewrite Hl1.
  change [Z.of_nat G1; 3%Z; (-1)%Z]
    with (map Z.of_nat [G1; 3] ++ (-1)%Z :: map Z.of_nat []).
  assert (Htot1 : size (shape (scalar_mul factor m1)) = (P1 * P2) * size ([G1; 3] ++ [])).
  { cbn [shape scalar_mul]. rewrite Hm1_sh. cbn [app size fold_right]. ring. }
  rewrite reshape_infer; rewrite ?Htot1;
    [ | lia | cbn [app size fold_right]; lia | apply Nat.Div0.mod_mul ].
  rewrite Nat.div_mul by (cbn [app size fold_right]; lia).
  cbn [bind app].
  destruct (iadd_take_spec z (mk_ndarray [G1; 3; P1 * P2] (data (scalar_mul factor m1)))
              (length union) [3; P1 * P2] ks1 Hz_wf Hz_sh)
    as (gv1 & -> & Hgv1_wf & Hgv1_sh & Hgv1_it);
    [cbn [shape]; congruence | assumption | assumption |].
  cbn [bind].
  (* second term: arr_1 . d arr_2 *)
  rewrite Hcol2. cbn [bind].
  destruct (take_spec (TensorBlock.values block_1) N [M; P1] sample_2
              (map Z.to_nat sample_2) Hv1 (normalize_all_in_range _ _ Hs2))
    as (b1 & -> & _ & Hb1_sh & Hb1_it).
  rewrite length_map, Lc2 in Hb1_sh, Hb1_it. cbn [bind].
  destruct (getitem_spec b1 [All; NewAxis] [G2; 1; M; P1])
    as (b1' & -> & _ & Hb1'_sh & Hb1'_it); [now rewrite Hb1_sh|].
  rewrite Hb1_sh in Hb1'_it. cbn [bind].
  destruct (swapaxes_spec b1' 2 3)
    as (b1s & -> & _ & Hb1s_sh & Hb1s_it); [unfold ndim; rewrite Hb1'_sh; simpl; lia ..|].
  rewrite Hb1'_sh in Hb1s_sh, Hb1s_it.
  change (swap 2 3 [G2; 1; M; P1]) with [G2; 1; P1; M] in Hb1s_sh, Hb1s_it.
  cbn [bind].
  destruct (matmul_spec b1s (TensorBlock.values gradient_2) M P1 P2 [1; G2] [3; G2] [3; G2])
    as (m2 & -> & Hm2_wf & Hm2_sh & Hm2_it);
    [now rewrite Hb1s_sh | now rewrite Hgv2
    | cbn [broadcast_rev]; bcast_dims; reflexivity |].
  cbn [rev app length] in Hm2_sh, Hm2_it. cbn [bind].
  destruct (take_spec gv1 (length union) [3; P1 * P2] (map Z.of_nat ks2) ks2
              Hgv1_sh (normalize_all_of_nat _ _ B2)) as (t2 & -> & _).
  cbn [bind]. rewrite Hl2.
  change [Z.of_nat G2; 3%Z; (-1)%Z]
    with (map Z.of_nat [G2; 3] ++ (-1)%Z :: map Z.of_nat []).
  assert (Htot2 : size (shape (scalar_mul factor m2)) = (P1 * P2) * size ([G2; 3] ++ [])).
  { cbn [shape scalar_mul]. rewrite Hm2_sh. cbn [app size fold_right]. ring. }
  rewrite reshape_infer; rewrite ?Htot2;
    [ | lia | cbn [app size fold_right]; lia | apply Nat.Div0.mod_mul ].
  rewrite Nat.div_mul by (cbn [app size fold_right]; lia).
  cbn [bind app].
  destruct (iadd_take_spec gv1 (mk_ndarray [G2; 3; P1 * P2] (data (scalar_mul factor m2)))
              (length union) [3; P1 * P2] ks2 Hgv1_wf Hgv1_sh)
    as (gv2 & -> & Hgv2_wf & Hgv2_sh & Hgv2_it);
    [cbn [shape]; congruence | assumption | assumption |].
  cbn [bind].
  (* the gradient block *)
  rewrite Hcomp.
  change (list_get (component :: others) 0) with (list_get (component :: others) (Z.of_nat 0)).
  rewrite (list_get_of_nat (component :: others) 0 component) by reflexivity.
  cbn [bind].
  destruct (gradient_shape_4 gradient_1 G1 3 M P1 component others Hgv1 Hcomp)
    as (_ & Hdirections & _).
  match goal with
  | |- exists b, bind (TensorBlock.new ?v ?sa ?c ?p) _ = _ /\ _ =>
      destruct (new_spec v sa c p)
        as (gradient & -> & Hgr_v & Hgr_s & Hgr_c & Hgr_p & _)
  end.
  { rewrite Hgv2_sh. cbn [map app]. rewrite Hdirections, Hprops. reflexivity. }
  cbn [bind]. unfold TensorBlock.add_gradient. rewrite Hnograd. cbn [dict_get app].
  exists gradient. rewrite Hgr_v, Hgr_s, Hgr_c, Hgr_p.
  split; [reflexivity|]. split; [reflexivity|]. split; [reflexivity|].
  split; [reflexivity|]. split; [assumption|]. split; [assumption|].
  intros u x p1 p2 Hu Hx Hp1 Hp2.
  assert (Hpq : p1 * P2 + p2 < P1 * P2) by nia.
  destruct (Hpos u Hu) as [Hpos1 Hpos2].
  rewrite Hgv2_it, Hgv1_it by in_range_tac.
  rewrite Hz_it by in_range_tac.
  rewrite Hpos1, Hpos2. unfold term_at.
  assert (T1 : forall j, j < G1 ->
             item (mk_ndarray [G1; 3; P1 * P2] (data (scalar_mul factor m1)))
                  [j; x; p1 * P2 + p2]
             = gradient_term_1 factor M (TensorBlock.values gradient_1)
                 (TensorBlock.values block_2) sample_1 j x p1 p2).
  { intros j Hj.
    rewrite (item_reshape_eq (scalar_mul factor m1) _ [j; x; p1; p2]).
    2:{ cbn [shape scalar_mul]. rewrite Hm1_sh. cbn [ravel size fold_right]. ring. }
    rewrite item_scalar_mul. unfold gradient_term_1. f_equal.
    rewrite Hm1_it by in_range_tac.
    cbn [firstn nth bcast_index length skipn combine map Nat.sub fst snd app Nat.eqb].
    rewrite !bcoord_lt by lia.
    apply sum_upto_ext. intros t Ht.
    rewrite Hg1_it by in_range_tac.
    change (swap 2 3 [j; x; p1; t]) with [j; x; t; p1]. f_equal.
    rewrite Hb2'_it by in_range_tac. cbn [index_source hd tl].
    rewrite Hb2_it by in_range_tac.
    unfold sample_of. change 0 with (Z.to_nat 0) at 1.
    now rewrite (map_nth Z.to_nat). }
  assert (T2 : forall j, j < G2 ->
             item (mk_ndarray [G2; 3; P1 * P2] (data (scalar_mul factor m2)))
                  [j; x; p1 * P2 + p2]
             = gradient_term_2 factor M (TensorBlock.values block_1)
                 (TensorBlock.values gradient_2) sample_2 j x p1 p2).
  { intros j Hj.
    rewrite (item_reshape_eq (scalar_mul factor m2) _ [j; x; p1; p2]).
    2:{ cbn [shape scalar_mul]. rewrite Hm2_sh. cbn [ravel size fold_right]. ring. }
    rewrite item_scalar_mul. unfold gradient_term_2. f_equal.
    rewrite Hm2_it by in_range_tac.
    cbn [firstn nth bcast_index length skipn combine map Nat.sub fst snd app Nat.eqb].
    rewrite !bcoord_lt by lia.
    apply sum_upto_ext. intros t Ht. f_equal.
    rewrite Hb1s_it by in_range_tac.
    change (swap 2 3 [j; 0; p1; t]) with [j; 0; t; p1].
    rewrite Hb1'_it by in_range_tac. cbn [index_source hd tl].
    rewrite Hb1_it by in_range_tac.
    unfold sample_of. change 0 with (Z.to_nat 0) at 1.
    now rewrite (map_nth Z.to_nat). }
  assert (B : forall rows j,
             Labels.position Labels.row_eqb (nth u union []) rows = Some j ->
             j < length rows).
  { intros rows j Hj.
    apply (position_some Labels.row_eqb _ [] rows j) in Hj; [tauto|].
    intros y Hy. now apply row_eqb_eq. }
  destruct (Labels.position Labels.row_eqb (nth u union []) rows_2) as [j2|] eqn:E2;
    destruct (Labels.position Labels.row_eqb (nth u union []) rows_1) as [j1|] eqn:E1;
    rewrite ?T1 by (rewrite <- Hl1; now apply B);
    rewrite ?T2 by (rewrite <- Hl2; now apply B);
    ring.
Qed.

(** One of the two gradients without samples: the outcome is that of
    attaching a gradient built from no term at all. *)
Lemma positions_gradients_empty_spec
      (factor : R) (new_block block_1 block_2 gradient_1 gradient_2 : TensorBlock.t)
      (component : Labels.t) (others : list Labels.t) :
  TensorBlock.gradient block_1 "positions" = Ok gradient_1 ->
  TensorBlock.gradient block_2 "positions" = Ok gradient_2 ->
  Labels.len (TensorBlock.samples gradient_1) = 0
  \/ Labels.len (TensorBlock.samples gradient_2) = 0 ->
  TensorBlock.components gradient_1 = component :: others ->
  PowerSpectrum._positions_gradients new_block block_1 block_2 factor
  = (gradient <-
       TensorBlock.new
         (mk_ndarray [0; 1; Labels.len (TensorBlock.properties new_block)] [])
         (Labels.empty ["sample"; "structure"; "atom"]%string)
         [component] (TensorBlock.properties new_block) ;;
     TensorBlock.add_gradient new_block "positions" gradient).
Proof.
  intros Hg1 Hg2 Hempty Hcomp.
  unfold PowerSpectrum._positions_gradients.
  rewrite Hg1, Hg2. cbn [bind].
  assert (Hif : (Labels.len (TensorBlock.samples gradient_1) =? 0)
                || (Labels.len (TensorBlock.samples gradient_2) =? 0) = true).
  { apply orb_true_iff. destruct Hempty as [H|H]; [left|right];
      now apply Nat.eqb_eq. }
  rewrite Hif.
  change [0%Z; 1%Z; Z.of_nat (Labels.len (TensorBlock.properties new_block))]
    with (map Z.of_nat [0; 1; Labels.len (TensorBlock.properties new_block)]).
  rewrite reshape_given by reflexivity.
  cbn [bind data]. rewrite Hcomp.
  change (list_get (component :: others) 0) with (list_get (component :: others) (Z.of_nat 0)).
  rewrite (list_get_of_nat (component :: others) 0 component) by reflexivity.
  reflexivity.
Qed.

Lemma bind_ret {A : Type} (c : result A) : bind c Ok = c.
Proof. now destruct c. Qed.

Lemma bind_ext {A B : Type} (c : result A) (k k' : A -> result B) :
  (forall a, k a = k' a) -> bind c k = bind c k'.
Proof. intros H. destruct c; simpl; auto. Qed.

Lemma gradient_in_list (b g : TensorBlock.t) (parameter : string) :
  TensorBlock.gradient b parameter = Ok g ->
  In parameter (TensorBlock.gradients_list b).
Proof.
  unfold TensorBlock.gradient, TensorBlock.gradients_list.
  induction (TensorBlock.gradients b) as [|[name g'] l IH]; simpl; [discriminate|].
  destruct (String.eqb name parameter) eqn:E.
  - apply String.eqb_eq in E. auto.
  - auto.
Qed.

(** A loop over the gradients that acts on ["positions"] only runs its body
    once when ["positions"] is among them. *)
Lemma for_each_positions {S : Type} (step : S -> result S) (names : list string) :
  NoDup names ->
  forall s,
    for_each names
      (fun parameter s => if String.eqb parameter "positions" then step s else Ok s) s
    = if existsb (fun parameter => String.eqb parameter "positions") names
      then step s else Ok s.
Proof.
  induction 1 as [|name names Hnotin Hnd IH]; intros s; [reflexivity|].
  cbn [for_each existsb]. destruct (String.eqb name "positions") eqn:E.
  - apply String.eqb_eq in E. subst name. cbn [orb].
    assert (Hno : existsb (fun parameter => String.eqb parameter "positions") names = false).
    { apply not_true_iff_false. intros Hex.
      apply existsb_exists in Hex as (x & Hx & Hxe).
      apply String.eqb_eq in Hxe. subst x. contradiction. }
    transitivity (bind (step s) Ok); [|apply bind_ret].
    apply bind_ext. intros s'. now rewrite IH, Hno.
  - cbn [bind orb]. apply IH.
Qed.

Lemma combine_blocks_positions (factor : R)
      (block_1 block_2 gradient_1 new_block : TensorBlock.t) :
  TensorBlock.gradient block_1 "positions" = Ok gradient_1 ->
  NoDup (TensorBlock.gradients_list block_1) ->
  PowerSpectrum.invariant_block factor block_1 block_2 = Ok new_block ->
  PowerSpectrum.combine_blocks factor block_1 block_2
  = PowerSpectrum._positions_gradients new_block block_1 block_2 factor.
Proof.
  intros Hg Hnd Hnb. unfold PowerSpectrum.combine_blocks.
  rewrite Hnb. cbn [bind].
  rewrite (for_each_positions
             (fun new_block =>
                PowerSpectrum._positions_gradients new_block block_1 block_2 factor)
             _ Hnd).
  replace (existsb (fun parameter => String.eqb parameter "positions")
                   (TensorBlock.gradients_list block_1)) with true; [reflexivity|].
  symmetry. apply existsb_exists. exists "positions"%string.
  split; [exact (gradient_in_list _ _ _ Hg)|reflexivity].
Qed.

Lemma sample_count_positive (N G : nat) (column : list Z) :
  length column = G -> 0 < G ->
  Forall (fun s => 0 <= s < Z.of_nat N)%Z column -> 0 < N.
Proof.
  intros HG Hpos H. destruct H as [|s column Hs _]; simpl in HG; lia.
Qed.

(** ** Theorems on the gradients *)

(** C2. For a pair of blocks that [compute] combines, both with a
    ["positions"] gradient with samples, the output block gets a
    ["positions"] gradient over the union of the two sets of gradient
    samples: its value at the row [u] of the union, direction [x] and
    properties [(p1, p2)] is the sum of the two terms of the product rule,
    [factor * sum_m d arr_1[g1, x, m, p1] * arr_2[sample(g1), m, p2]] where
    [g1] is the row of the first gradient that the union row comes from
    (nothing if there is none), and
    [factor * sum_m arr_1[sample(g2), m, p1] * d arr_2[g2, x, m, p2]]
    likewise for the second gradient; [factor = 1 / sqrt(2 ell + 1)] is the
    factor of the values. *)
Theorem positions_gradient_product_rule
        (N M P1 P2 G1 G2 : nat) (ell : Z) (factor : R)
        (block_1 block_2 gradient_1 gradient_2 : TensorBlock.t)
        (sample_1 sample_2 : list Z)
        (component : Labels.t) (others : list Labels.t) :
  PowerSpectrum.inv_sqrt_factor ell = Ok factor ->
  (* the two blocks *)
  shape (TensorBlock.values block_1) = [N; M; P1] ->
  shape (TensorBlock.values block_2) = [N; M; P2] ->
  Labels.eqb (TensorBlock.samples block_1) (TensorBlock.samples block_2) = true ->
  Labels.len (TensorBlock.properties block_1) = P1 ->
  Labels.len (TensorBlock.properties block_2) = P2 ->
  (* their gradients *)
  TensorBlock.gradient block_1 "positions" = Ok gradient_1 ->
  TensorBlock.gradient block_2 "positions" = Ok gradient_2 ->
  NoDup (TensorBlock.gradients_list block_1) ->
  shape (TensorBlock.values gradient_1) = [G1; 3; M; P1] ->
  shape (TensorBlock.values gradient_2) = [G2; 3; M; P2] ->
  TensorBlock.components gradient_1 = component :: others ->
  (* the gradient samples: not empty, distinct rows, same names, each row
     refers to a sample of the blocks *)
  Labels.len (TensorBlock.samples gradient_1) = G1 ->
  Labels.len (TensorBlock.samples gradient_2) = G2 ->
  0 < G1 -> 0 < G2 ->
  Labels.names (TensorBlock.samples gradient_1)
  = Labels.names (TensorBlock.samples gradient_2) ->
  NoDup (Labels.values (TensorBlock.samples gradient_1)) ->
  NoDup (Labels.values (TensorBlock.samples gradient_2)) ->
  Labels.column (TensorBlock.samples gradient_1) "sample" = Ok sample_1 ->
  Labels.column (TensorBlock.samples gradient_2) "sample" = Ok sample_2 ->
  Forall (fun s => 0 <= s < Z.of_nat N)%Z sample_1 ->
  Forall (fun s => 0 <= s < Z.of_nat N)%Z sample_2 ->
  let rows_1 := Labels.values (TensorBlock.samples gradient_1) in
  let rows_2 := Labels.values (TensorBlock.samples gradient_2) in
  let union := Labels.dedup (rows_1 ++ rows_2) in
  exists out gradient,
    factor = (1 / sqrt (IZR (2 * ell + 1)))%R
    /\ PowerSpectrum.combine_blocks factor block_1 block_2 = Ok out
    /\ TensorBlock.gradients out = [("positions"%string, gradient)]
    /\ TensorBlock.samples gradient
       = Labels.mk (Labels.names (TensorBlock.samples gradient_1)) union
    /\ TensorBlock.properties gradient = TensorBlock.properties out
    /\ shape (TensorBlock.values gradient) = [length union; 3; P1 * P2]
    /\ (forall u x p1 p2, u < length union -> x < 3 -> p1 < P1 -> p2 < P2 ->
          item (TensorBlock.values gradient) [u; x; p1 * P2 + p2]
          = (term_at rows_1 (nth u union [])
               (fun g => gradient_term_1 factor M (TensorBlock.values gradient_1)
                           (TensorBlock.values block_2) sample_1 g x p1 p2)
             + term_at rows_2 (nth u union [])
                 (fun g => gradient_term_2 factor M (TensorBlock.values block_1)
                             (TensorBlock.values gradient_2) sample_2 g x p1 p2))%R)
    /\ (forall s p1 p2, s < N -> p1 < P1 -> p2 < P2 ->
          item (TensorBlock.values out) [s; p1 * P2 + p2]
          = (factor * sum_upto M (fun m =>
                        item (TensorBlock.values block_1) [s; m; p1]
                        * item (TensorBlock.values block_2) [s; m; p2]))%R).
Proof.
  intros Hfactor Hv1 Hv2 Hsame Hp1 Hp2 Hg1 Hg2 Hndg Hgv1 Hgv2 Hcomp HG1 HG2 HG1pos
         HG2pos Hnames Hnd1 Hnd2 Hcol1 Hcol2 Hs1 Hs2 rows_1 rows_2 union.
  assert (Hf : factor = (1 / sqrt (IZR (2 * ell + 1)))%R).
  { unfold PowerSpectrum.inv_sqrt_factor in Hfactor.
    destruct (2 * ell + 1 <? 0)%Z; [discriminate|]. now injection Hfactor. }
  assert (HN : 0 < N).
  { apply (sample_count_positive N G1 sample_1); try assumption.
    rewrite (column_length _ _ _ Hcol1). exact HG1. }
  destruct (invariant_block_spec N M P1 P2 factor block_1 block_2 Hv1 Hv2 Hsame HN)
    as (new_block & Hnb & _ & _ & Hnp & Hng & _ & _ & Hvit).
  rewrite (combine_blocks_positions factor block_1 block_2 gradient_1 _ Hg1 Hndg Hnb).
  destruct (positions_gradients_spec N M P1 P2 G1 G2 factor new_block block_1 block_2
              gradient_1 gradient_2 sample_1 sample_2 component others
              Hg1 Hg2 Hv1 Hv2 Hgv1 Hgv2
              HG1 HG2 HG1pos HG2pos Hnames Hnd1 Hnd2 Hcol1 Hcol2 Hs1 Hs2 Hcomp)
    as (gradient & Hpg & Hgs & _ & Hgp & _ & Hsh & Hit).
  { rewrite Hnp. unfold Labels.len. cbn [Labels.values].
    rewrite product_rows_length. unfold Labels.len in Hp1, Hp2. congruence. }
  { exact Hng. }
  eexists. exists gradient. split; [exact Hf|]. split; [exact Hpg|].
  cbn [TensorBlock.with_gradients TensorBlock.gradients TensorBlock.properties
       TensorBlock.values].
  split; [reflexivity|]. split; [exact Hgs|]. split; [exact Hgp|].
  split; [exact Hsh|]. split; [exact Hit|exact Hvit].
Qed.


(** ** The theorems at concrete inputs *)

Ltac distinct_rows := solve [repeat constructor; simpl; intuition discriminate].

(** Discharge the hypotheses of [H] one by one, at a concrete input. *)
Ltac discharge H :=
  repeat match type of H with
         | ?P -> _ =>
             let p := fresh "p" in
             assert (p : P)
               by first [ reflexivity | lia | distinct_rows
                        | solve [repeat constructor; lia] ];
             specialize (H p); clear p
         end.

Lemma positions_gradient_product_rule_witness :
  exists out gradient,
    PowerSpectrum.combine_blocks (1 / sqrt 3)%R
                                 ExampleBlocks.block_1 ExampleBlocks.block_2
    = Ok out
    /\ TensorBlock.gradients out = [("positions"%string, gradient)]
    /\ TensorBlock.samples gradient
       = Labels.mk ExampleBlocks.gradient_names [[0; 0; 0]; [1; 0; 1]; [0; 0; 1]]%Z
    /\ shape (TensorBlock.values gradient) = [3; 3; 2].
Proof.
  pose proof (positions_gradient_product_rule 2 3 2 1 2 2 1 (1 / sqrt 3)%R
                ExampleBlocks.block_1 ExampleBlocks.block_2
                ExampleBlocks.gradient_1 ExampleBlocks.gradient_2
                [0; 1]%Z [0; 0]%Z
                ExampleBlocks.direction [ExampleBlocks.components_m]) as H.
  discharge H.
  destruct H as (out & gradient & _ & Hout & Hgrad & Hsamples & _ & Hshape & _).
  exists out, gradient.
  split; [exact Hout|]. split; [exact Hgrad|]. split; [exact Hsamples|exact Hshape].
Defined.

Example positions_gradient_example :
  exists out gradient,
    PowerSpectrum.combine_blocks 1%R ExampleBlocks.block_1 ExampleBlocks.block_2
    = Ok out
    /\ TensorBlock.gradients out = [("positions"%string, gradient)]
    /\ TensorBlock.values out = mk_ndarray [2; 2] [11; 14; 20; 22]%R
    /\ TensorBlock.values gradient
       = mk_ndarray [3; 3; 2]
           [16; 14; 3; 9; 10; 11;   2; 1; 1; 1; 2; 2;   8; 10; 1; 2; 11; 14]%R.
Proof.
  eexists. eexists. split; [vm_compute; reflexivity|].
  split; [reflexivity|]. split; eq_ndarray.
Qed.



Lemma power_spectrum_values_witness :
  exists factor new_block,
    PowerSpectrum.inv_sqrt_factor 1 = Ok factor
    /\ factor = (1 / sqrt 3)%R
    /\ PowerSpectrum.invariant_block factor ExampleBlocks.plain_1 ExampleBlocks.plain_2
       = Ok new_block
    /\ shape (TensorBlock.values new_block) = [2; 2]
    /\ PowerSpectrum.combine_blocks factor ExampleBlocks.plain_1 ExampleBlocks.plain_2
       = Ok new_block.
Proof.
  pose proof (power_spectrum_values 2 3 2 1 1
                ExampleBlocks.plain_1 ExampleBlocks.plain_2) as H.
  discharge H.
  destruct H as (factor & new_block & Hf & Hfv & Hnb & Hsh & _ & _ & Hcb).
  exists factor, new_block.
  split; [exact Hf|]. split; [exact Hfv|]. split; [exact Hnb|].
  split; [exact Hsh|]. apply Hcb. reflexivity.
Defined.

Example power_spectrum_values_example :
  exists new_block,
    PowerSpectrum.invariant_block 1%R ExampleBlocks.plain_1 ExampleBlocks.plain_2
    = Ok new_block
    /\ TensorBlock.values new_block = mk_ndarray [2; 2] [11; 14; 20; 22]%R.
Proof.
  eexists. split; [vm_compute; reflexivity|]. eq_ndarray.
Qed.

Lemma power_spectrum_properties_witness :
  exists new_block,
    PowerSpectrum.invariant_block 1%R ExampleBlocks.plain_1 ExampleBlocks.plain_2
    = Ok new_block
    /\ Labels.names (TensorBlock.properties new_block)
       = ["species_neighbor_1"; "n1"; "species_neighbor_2"; "n2"]%string
    /\ Labels.values (TensorBlock.properties new_block)
       = [[1; 0; 8; 0]; [1; 1; 8; 0]]%Z.
Proof.
  pose proof (power_spectrum_properties 2 3 2 1 1%R
                ExampleBlocks.plain_1 ExampleBlocks.plain_2) as H.
  discharge H.
  destruct H as (new_block & Hnb & Hnames & Hvalues & _).
  exists new_block.
  split; [exact Hnb|]. split; [exact Hnames|exact Hvalues].
Defined.

Lemma max_angular_mismatch_rejected_witness :
  PowerSpectrum.__init__ ExampleCalculators.short_range
                         (Some ExampleCalculators.long_range)
  = Raise (ValueError "'max_angular' of both calculators must be the same!")
  /\ PowerSpectrum.compute ExampleCalculators.keys_to_properties
       (PowerSpectrum.mk
          (with_parameters ExampleCalculators.short_range [("max_angular"%string, 3%Z)])
          (Some (with_parameters ExampleCalculators.long_range [("max_angular"%string, 3%Z)])))
       tt None true
     = PowerSpectrum.compute ExampleCalculators.keys_to_properties
         (PowerSpectrum.mk ExampleCalculators.short_range
                           (Some ExampleCalculators.long_range))
         tt None true.
Proof.
  destruct (max_angular_mismatch_rejected unit
              ExampleCalculators.short_range ExampleCalculators.long_range 2 3
              eq_refl eq_refl ltac:(lia))
    as (_ & Hinit & Hcompute).
  split.
  - apply Hinit; reflexivity.
  - apply Hcompute.
Defined.

(** * Further properties of the two combination strategies *)

Lemma normalize_index_ok (i : Z) (n : nat) :
  index_ok i n ->
  normalize_index i n = Ok (wrap_index i n) /\ wrap_index i n < n.
Proof.
  unfold index_ok, wrap_index, normalize_index. intros H.
  destruct ((0 <=? i)%Z && (i <? Z.of_nat n)%Z) eqn:E1.
  - apply andb_prop in E1 as [H1 H2].
    apply Z.leb_le in H1. apply Z.ltb_lt in H2. split; [reflexivity|lia].
  - destruct ((- Z.of_nat n <=? i)%Z && (i <? 0)%Z) eqn:E2.
    + apply andb_prop in E2 as [H1 H2].
      apply Z.leb_le in H1. apply Z.ltb_lt in H2. split; [reflexivity|lia].
    + exfalso.
      apply andb_false_iff in E1. apply andb_false_iff in E2.
      rewrite Z.leb_gt, Z.ltb_ge in E1. rewrite Z.leb_gt, Z.ltb_ge in E2. lia.
Qed.

Lemma normalize_index_not_ok (i : Z) (n : nat) :
  ~ index_ok i n -> normalize_index i n = Raise IndexError.
Proof.
  unfold index_ok, normalize_index. intros H.
  destruct ((0 <=? i)%Z && (i <? Z.of_nat n)%Z) eqn:E1.
  - apply andb_prop in E1 as [H1 H2].
    apply Z.leb_le in H1. apply Z.ltb_lt in H2. lia.
  - destruct ((- Z.of_nat n <=? i)%Z && (i <? 0)%Z) eqn:E2; [|reflexivity].
    apply andb_prop in E2 as [H1 H2].
    apply Z.leb_le in H1. apply Z.ltb_lt in H2. lia.
Qed.

Lemma index_ok_dec (i : Z) (n : nat) : {index_ok i n} + {~ index_ok i n}.
Proof.
  unfold index_ok.
  destruct (Z_le_dec (- Z.of_nat n) i); [|right; lia].
  destruct (Z_lt_dec i (Z.of_nat n)); [left; lia|right; lia].
Qed.

Lemma sparse_step_wrapped_spec (n M1 M2 P1 P2 L : nat) (arr_1 arr_2 : ndarray)
      (S : sparse_table) (m1 m2 mu : Z) (c : R) (arr_out : ndarray) :
  shape arr_1 = [n; M1; P1] -> shape arr_2 = [n; M2; P2] ->
  shape arr_out = [n; L; P1 * P2] ->
  index_ok m1 M1 -> index_ok m2 M2 -> index_ok mu L ->
  dict_get triple_eqb S (m1, m2, mu) = Ok c ->
  exists out',
    sparse_step arr_1 arr_2 S n P1 P2 (m1, m2, mu) arr_out = Ok out'
    /\ wf out'
    /\ shape out' = [n; L; P1 * P2]
    /\ forall i k p q, i < n -> k < L -> p < P1 -> q < P2 ->
         item out' [i; k; p * P2 + q]
         = (item arr_out [i; k; (p * P2 + q)%nat]
            + (if k =? wrap_index mu L
               then item arr_1 [i; wrap_index m1 M1; p]
                    * item arr_2 [i; wrap_index m2 M2; q] * c
               else 0))%R.
Proof.
  intros H1 H2 Ho Hm1 Hm2 Hmu Hc.
  destruct (normalize_index_ok _ _ Hm1) as [N1 B1].
  destruct (normalize_index_ok _ _ Hm2) as [N2 B2].
  destruct (normalize_index_ok _ _ Hmu) as [N3 B3].
  unfold sparse_step.
  destruct (getitem_spec arr_out [All; At mu; All] [n; P1 * P2])
    as (view & -> & _ & _ & _).
  { rewrite Ho. cbn [index_shape]. rewrite N3. reflexivity. }
  cbn [bind].
  destruct (getitem_spec arr_1 [All; At m1; All; NewAxis] [n; P1; 1])
    as (a & -> & _ & Ha_sh & Ha_it).
  { rewrite H1. cbn [index_shape]. rewrite N1. reflexivity. }
  destruct (getitem_spec arr_2 [All; At m2; NewAxis; All] [n; 1; P2])
    as (b & -> & _ & Hb_sh & Hb_it).
  { rewrite H2. cbn [index_shape]. rewrite N2. reflexivity. }
  cbn [bind].
  destruct (mul_spec a b [n; P1; P2]) as (ab & -> & Hab_wf & Hab_sh & Hab_it).
  { rewrite Ha_sh, Hb_sh. unfold broadcast_shapes. cbn [rev app broadcast_rev].
    bcast_dims. reflexivity. }
  cbn [bind]. rewrite Hc. cbn [bind].
  change [Z.of_nat n; Z.of_nat (P1 * P2)] with (map Z.of_nat [n; P1 * P2]).
  rewrite reshape_given.
  2:{ cbn [shape mul_scalar]. rewrite Hab_sh. cbn [size fold_right]. ring. }
  cbn [bind].
  destruct (iadd_at_spec arr_out
              (mk_ndarray [n; P1 * P2] (data (mul_scalar ab c)))
              [All; At mu; All] [n; P1 * P2])
    as (out' & -> & Hwf & Hsh & Hit).
  { rewrite Ho. cbn [index_shape]. rewrite N3. reflexivity. }
  { cbn [shape]. unfold broadcast_shapes. cbn [rev app broadcast_rev].
    bcast_dims. reflexivity. }
  exists out'. split; [reflexivity|]. split; [assumption|].
  split; [congruence|].
  intros i k p q Hi Hk Hp Hq.
  assert (Hpq : p * P2 + q < P1 * P2) by nia.
  rewrite Hit by (rewrite Ho; in_range_tac).
  rewrite Ho. cbn [index_view hd tl option_map].
  rewrite N3.
  destruct (k =? wrap_index mu L); cbn [option_map]; [|ring].
  f_equal.
  cbn [shape bcast_index length skipn combine map Nat.sub fst snd].
  rewrite !bcoord_lt by lia.
  rewrite (item_reshape_eq (mul_scalar ab c) _ [i; p; q]).
  2:{ cbn [shape mul_scalar]. rewrite Hab_sh. cbn [ravel size fold_right]. ring. }
  rewrite item_mul_scalar. f_equal.
  rewrite Hab_it by in_range_tac.
  rewrite Ha_sh, Hb_sh.
  cbn [bcast_index length skipn combine map Nat.sub fst snd Nat.eqb].
  rewrite !bcoord_lt by lia.
  rewrite Ha_it, Hb_it by in_range_tac.
  rewrite H1, H2. cbn [index_source hd tl].
  rewrite N1, N2.
  reflexivity.
Qed.

Lemma sparse_step_index_error (n M1 M2 P1 P2 L : nat) (arr_1 arr_2 : ndarray)
      (S : sparse_table) (key : triple) (arr_out : ndarray) :
  shape arr_1 = [n; M1; P1] -> shape arr_2 = [n; M2; P2] ->
  shape arr_out = [n; L; P1 * P2] ->
  ~ key_ok M1 M2 L key ->
  sparse_step arr_1 arr_2 S n P1 P2 key arr_out = Raise IndexError.
Proof.
  intros H1 H2 Ho Hbad. destruct key as [[m1 m2] mu].
  unfold key_ok in Hbad. unfold sparse_step.
  destruct (index_ok_dec mu L) as [Hmu|Hmu].
  2:{ unfold getitem. rewrite Ho. cbn [index_shape].
      rewrite (normalize_index_not_ok _ _ Hmu). reflexivity. }
  destruct (normalize_index_ok _ _ Hmu) as [N3 _].
  destruct (getitem_spec arr_out [All; At mu; All] [n; P1 * P2])
    as (view & -> & _ & _ & _).
  { rewrite Ho. cbn [index_shape]. rewrite N3. reflexivity. }
  cbn [bind].
  destruct (index_ok_dec m1 M1) as [Hm1|Hm1].
  2:{ unfold getitem. rewrite H1. cbn [index_shape].
      rewrite (normalize_index_not_ok _ _ Hm1). reflexivity. }
  destruct (normalize_index_ok _ _ Hm1) as [N1 _].
  destruct (getitem_spec arr_1 [All; At m1; All; NewAxis] [n; P1; 1])
    as (a & -> & _ & _ & _).
  { rewrite H1. cbn [index_shape]. rewrite N1. reflexivity. }
  cbn [bind].
  destruct (index_ok_dec m2 M2) as [Hm2|Hm2]; [tauto|].
  unfold getitem. rewrite H2. cbn [index_shape].
  rewrite (normalize_index_not_ok _ _ Hm2). reflexivity.
Qed.

Lemma key_ok_dec (M1 M2 L : nat) (k : triple) :
  {key_ok M1 M2 L k} + {~ key_ok M1 M2 L k}.
Proof.
  destruct k as [[m1 m2] mu]. unfold key_ok.
  destruct (index_ok_dec m1 M1); [|right; tauto].
  destruct (index_ok_dec m2 M2); [|right; tauto].
  destruct (index_ok_dec mu L); [left; tauto|right; tauto].
Qed.

Lemma sparse_loop_wrapped_spec (n M1 M2 P1 P2 L : nat) (arr_1 arr_2 : ndarray)
      (S : sparse_table) (ks : list triple) :
  shape arr_1 = [n; M1; P1] -> shape arr_2 = [n; M2; P2] ->
  Forall (key_ok M1 M2 L) ks ->
  (forall k, In k ks -> In k (dict_keys S)) ->
  forall arr_out,
    shape arr_out = [n; L; P1 * P2] -> wf arr_out ->
    exists out',
      for_each ks (sparse_step arr_1 arr_2 S n P1 P2) arr_out = Ok out'
      /\ wf out'
      /\ shape out' = [n; L; P1 * P2]
      /\ forall i mu p q, i < n -> mu < L -> p < P1 -> q < P2 ->
           item out' [i; mu; p * P2 + q]
           = (item arr_out [i; mu; (p * P2 + q)%nat]
              + sum_list (map (sparse_term_wrapped M1 M2 L arr_1 arr_2 S i mu p q) ks))%R.
Proof.
  intros H1 H2 Hks. induction Hks as [|[[m1 m2] mu'] ks Hk Hks IH];
    intros Hin arr_out Ho Hwf.
  - exists arr_out. split; [reflexivity|]. split; [assumption|].
    split; [assumption|]. intros. simpl. ring.
  - destruct Hk as (Hm1 & Hm2 & Hmu).
    destruct (dict_get_in_keys S (m1, m2, mu')) as [c Hc]; [apply Hin; now left|].
    destruct (sparse_step_wrapped_spec n M1 M2 P1 P2 L arr_1 arr_2 S m1 m2 mu' c
                arr_out H1 H2 Ho Hm1 Hm2 Hmu Hc) as (o1 & Hstep & Hwf1 & Hsh1 & Hit1).
    destruct (IH (fun k Hk => Hin k (or_intror Hk)) o1 Hsh1 Hwf1)
      as (out' & Hrest & Hwf' & Hsh' & Hit').
    exists out'. split; [cbn [for_each]; rewrite Hstep; exact Hrest|].
    split; [assumption|]. split; [assumption|].
    intros i mu p q Hi Hmu' Hp Hq.
    rewrite Hit', Hit1 by assumption.
    cbn [map]. rewrite sum_list_cons. unfold sparse_term_wrapped at 2, coeff.
    rewrite Hc. ring.
Qed.

Lemma sparse_loop_index_error (n M1 M2 P1 P2 L : nat) (arr_1 arr_2 : ndarray)
      (S : sparse_table) (ks : list triple) :
  shape arr_1 = [n; M1; P1] -> shape arr_2 = [n; M2; P2] ->
  Exists (fun k => ~ key_ok M1 M2 L k) ks ->
  (forall k, In k ks -> In k (dict_keys S)) ->
  forall arr_out,
    shape arr_out = [n; L; P1 * P2] -> wf arr_out ->
    for_each ks (sparse_step arr_1 arr_2 S n P1 P2) arr_out = Raise IndexError.
Proof.
  intros H1 H2. induction ks as [|k ks IH]; intros Hex Hin arr_out Ho Hwf.
  - inversion Hex.
  - cbn [for_each]. destruct (key_ok_dec M1 M2 L k) as [Hok|Hbad].
    + destruct k as [[m1 m2] mu']. destruct Hok as (Hm1 & Hm2 & Hmu).
      destruct (dict_get_in_keys S (m1, m2, mu')) as [c Hc]; [apply Hin; now left|].
      destruct (sparse_step_wrapped_spec n M1 M2 P1 P2 L arr_1 arr_2 S m1 m2 mu' c
                  arr_out H1 H2 Ho Hm1 Hm2 Hmu Hc) as (o1 & -> & Hwf1 & Hsh1 & _).
      cbn [bind]. apply IH; try assumption.
      * inversion Hex as [? ? Hk|? ? Hk]; subst; [|assumption].
        exfalso. apply Hk. exact (conj Hm1 (conj Hm2 Hmu)).
      * intros k' Hk'. apply Hin. now right.
    + now rewrite (sparse_step_index_error n M1 M2 P1 P2 L arr_1 arr_2 S k arr_out).
Qed.

Lemma zeros_of_nat (sh : list nat) : zeros (map Z.of_nat sh) = Ok (zero_array sh).
Proof.
  unfold zeros.
  assert (H : forallb (fun d => 0 <=? d)%Z (map Z.of_nat sh) = true).
  { apply forallb_forall. intros d Hd. apply in_map_iff in Hd as (k & <- & _).
    apply Z.leb_le. lia. }
  rewrite H, map_to_nat_of_nat. unfold tabulate, zero_array. do 2 f_equal.
  generalize (size sh) as s. intros s.
  generalize 0 as start. induction s as [|s IH]; intros start; [reflexivity|].
  cbn [seq map repeat]. now rewrite IH.
Qed.

Lemma zero_array_spec (sh : list nat) :
  wf (zero_array sh) /\ shape (zero_array sh) = sh
  /\ forall idx, item (zero_array sh) idx = 0%R.
Proof.
  split; [|split].
  - unfold wf, zero_array; simpl. apply repeat_length.
  - reflexivity.
  - intros idx. unfold item, zero_array; simpl.
    generalize (ravel sh idx) as k. generalize (size sh) as s.
    induction s as [|s IH]; intros [|k]; simpl; auto.
Qed.

(** The beginning of [_sparse_combine], up to the allocation of the
    output. *)
Lemma sparse_combine_prelude (n M1 M2 P1 P2 L : nat) (arr_1 arr_2 : ndarray)
      (lam : Z) (cache : cg_cache sparse_table) (flag : bool) :
  shape arr_1 = [n; M1; P1] -> shape arr_2 = [n; M2; P2] ->
  (2 * lam + 1)%Z = Z.of_nat L ->
  _sparse_combine (NdArray arr_1) arr_2 lam cache flag
  = if flag then Ok (Some (zero_array [n; L; P1 * P2]))
    else
      cg_coeffs <- dict_get triple_eqb (coeffs cache) (infer_l M1, infer_l M2, lam) ;;
      arr_out <- for_each (dict_keys cg_coeffs)
                   (sparse_step arr_1 arr_2 cg_coeffs n P1 P2)
                   (zero_array [n; L; P1 * P2]) ;;
      Ok (Some arr_out).
Proof.
  intros H1 H2 Hlam.
  unfold _sparse_combine.
  rewrite (shape_at_0 _ _ _ H1), (shape_at_0 _ _ _ H2).
  rewrite (shape_at_1 _ _ _ _ H1), (shape_at_1 _ _ _ _ H2).
  rewrite (shape_at_2 _ _ _ _ _ H1), (shape_at_2 _ _ _ _ _ H2).
  cbn [bind]. rewrite Nat.eqb_refl. cbn [assert bind].
  rewrite Hlam.
  change [Z.of_nat n; Z.of_nat L; Z.of_nat (P1 * P2)]
    with (map Z.of_nat [n; L; P1 * P2]).
  rewrite zeros_of_nat. reflexivity.
Qed.

Lemma reshape_infer_indivisible (a : ndarray) (pre post : list nat) (u : Z) :
  (u < 0)%Z ->
  size (shape a) mod size (pre ++ post) <> 0 ->
  reshape a (map Z.of_nat pre ++ u :: map Z.of_nat post)
  = Raise (ValueError "cannot reshape array").
Proof.
  intros Hu Hm. unfold reshape.
  rewrite !filter_app. simpl.
  replace (u <? 0)%Z with true by (symmetry; apply Z.ltb_lt; lia).
  replace (0 <=? u)%Z with false by (symmetry; apply Z.leb_gt; lia).
  rewrite !filter_neg_of_nat, !filter_nonneg_of_nat. simpl.
  rewrite <- map_app, map_to_nat_of_nat.
  destruct (size (pre ++ post) =? 0); [reflexivity|].
  replace (size (shape a) mod size (pre ++ post) =? 0) with false
    by (symmetry; apply Nat.eqb_neq; assumption).
  reflexivity.
Qed.

Lemma broadcast_coord_lt (a b n i : nat) :
  broadcast_dim a b = Ok n -> i < n ->
  (if a =? 1 then 0 else i) < a /\ (if b =? 1 then 0 else i) < b.
Proof.
  unfold broadcast_dim. intros H Hi. revert H.
  destruct (a =? b) eqn:Eab; [apply Nat.eqb_eq in Eab | apply Nat.eqb_neq in Eab];
    (destruct (a =? 1) eqn:Ea; [apply Nat.eqb_eq in Ea | apply Nat.eqb_neq in Ea]);
    (destruct (b =? 1) eqn:Eb; [apply Nat.eqb_eq in Eb | apply Nat.eqb_neq in Eb]);
    intros H; try discriminate; injection H as H; lia.
Qed.

(** X1. What the sparse strategy computes: for inputs of shapes
    [n, M1, P1] and [n, M2, P2] and a table whose keys are accepted as
    indices on the component axes, the output has shape [n, L, P1 * P2]
    (with [L = 2 lam + 1]) and its element [(i, mu, p * P2 + q)] is the sum,
    over the keys [(m1, m2, mu')] that address [mu], of
    [arr_1[i, m1, p] * arr_2[i, m2, q] * coefficient]; a negative entry of a
    key counts from the end of its axis. *)
Theorem sparse_combine_elements
        (n M1 M2 P1 P2 L : nat) (arr_1 arr_2 : ndarray) (lam : Z)
        (cache : cg_cache sparse_table) (S : sparse_table) :
  shape arr_1 = [n; M1; P1] -> shape arr_2 = [n; M2; P2] ->
  (2 * lam + 1)%Z = Z.of_nat L ->
  dict_get triple_eqb (coeffs cache) (infer_l M1, infer_l M2, lam) = Ok S ->
  Forall (key_ok M1 M2 L) (dict_keys S) ->
  exists out,
    _sparse_combine (NdArray arr_1) arr_2 lam cache false = Ok (Some out)
    /\ shape out = [n; L; P1 * P2]
    /\ forall i mu p q, i < n -> mu < L -> p < P1 -> q < P2 ->
         item out [i; mu; p * P2 + q]
         = sum_list (map (sparse_term_wrapped M1 M2 L arr_1 arr_2 S i mu p q)
                         (dict_keys S)).
Proof.
  intros H1 H2 Hlam HS Hks.
  rewrite (sparse_combine_prelude n M1 M2 P1 P2 L arr_1 arr_2 lam cache false H1 H2 Hlam).
  rewrite HS. cbn [bind].
  destruct (zero_array_spec [n; L; P1 * P2]) as (Hz_wf & Hz_sh & Hz_it).
  destruct (sparse_loop_wrapped_spec n M1 M2 P1 P2 L arr_1 arr_2 S (dict_keys S)
              H1 H2 Hks (fun k Hk => Hk) _ Hz_sh Hz_wf)
    as (out & -> & Hwf & Hsh & Hit).
  exists out. split; [reflexivity|]. split; [assumption|].
  intros i mu p q Hi Hmu Hp Hq.
  rewrite Hit by assumption. rewrite Hz_it. ring.
Qed.

Lemma sparse_combine_elements_witness :
  exists out,
    _sparse_combine (NdArray Examples.arr_1) Examples.arr_2 1
                    MoreExamples.sparse_cache_negative false = Ok (Some out)
    /\ shape out = [2; 3; 2].
Proof.
  destruct (sparse_combine_elements 2 3 1 2 1 3 Examples.arr_1 Examples.arr_2 1
              MoreExamples.sparse_cache_negative MoreExamples.sparse_110_negative
              eq_refl eq_refl eq_refl eq_refl)
    as (out & Hout & Hsh & _).
  - simpl. repeat (apply Forall_cons || apply Forall_nil); unfold key_ok, index_ok; lia.
  - exists out. split; assumption.
Defined.

(** The table keyed from the end of the axes gives what the table keyed
    from their start gives. *)
Example sparse_combine_negative_keys_example :
  _sparse_combine (NdArray Examples.arr_1) Examples.arr_2 1
                  MoreExamples.sparse_cache_negative false
  = Ok (Some (mk_ndarray [2; 3; 2] [2; 4; 6; 8; 10; 12; 21; 24; 27; 30; 33; 36]%R)).
Proof. eq_arrays. Qed.

(** X2. A key of the sparse table that is not accepted as an index on the
    component axes (beyond the end, or before the start even when counted
    from the end) makes the sparse strategy fail with [IndexError],
    wherever the key stands in the table. *)
Theorem sparse_combine_index_error
        (n M1 M2 P1 P2 L : nat) (arr_1 arr_2 : ndarray) (lam : Z)
        (cache : cg_cache sparse_table) (S : sparse_table) :
  shape arr_1 = [n; M1; P1] -> shape arr_2 = [n; M2; P2] ->
  (2 * lam + 1)%Z = Z.of_nat L ->
  dict_get triple_eqb (coeffs cache) (infer_l M1, infer_l M2, lam) = Ok S ->
  Exists (fun k => ~ key_ok M1 M2 L k) (dict_keys S) ->
  _sparse_combine (NdArray arr_1) arr_2 lam cache false = Raise IndexError.
Proof.
  intros H1 H2 Hlam HS Hex.
  rewrite (sparse_combine_prelude n M1 M2 P1 P2 L arr_1 arr_2 lam cache false H1 H2 Hlam).
  rewrite HS. cbn [bind].
  destruct (zero_array_spec [n; L; P1 * P2]) as (Hz_wf & Hz_sh & _).
  now rewrite (sparse_loop_index_error n M1 M2 P1 P2 L arr_1 arr_2 S (dict_keys S)
                 H1 H2 Hex (fun k Hk => Hk) _ Hz_sh Hz_wf).
Qed.

Lemma sparse_combine_index_error_witness :
  _sparse_combine (NdArray Examples.arr_1) Examples.arr_2 1
                  MoreExamples.sparse_cache_beyond false = Raise IndexError.
Proof.
  apply (sparse_combine_index_error 2 3 1 2 1 3 Examples.arr_1 Examples.arr_2 1
           MoreExamples.sparse_cache_beyond MoreExamples.sparse_110_beyond
           eq_refl eq_refl eq_refl eq_refl).
  simpl. apply Exists_cons_tl. apply Exists_cons_hd.
  unfold key_ok, index_ok. lia.
Defined.

(** X3. The empty mode of the sparse strategy returns the array of zeros of
    shape [n, L, P1 * P2] whatever the coefficient source holds, also when
    it has no entry for the channel; the normal mode returns the same array
    for a table without coefficients. *)
Theorem sparse_combine_empty_mode
        (n M1 M2 P1 P2 L : nat) (arr_1 arr_2 : ndarray) (lam : Z) :
  shape arr_1 = [n; M1; P1] -> shape arr_2 = [n; M2; P2] ->
  (2 * lam + 1)%Z = Z.of_nat L ->
  (forall cache : cg_cache sparse_table,
      _sparse_combine (NdArray arr_1) arr_2 lam cache true
      = Ok (Some (zero_array [n; L; P1 * P2])))
  /\ (forall cache : cg_cache sparse_table,
         dict_get triple_eqb (coeffs cache) (infer_l M1, infer_l M2, lam) = Ok [] ->
         _sparse_combine (NdArray arr_1) arr_2 lam cache false
         = Ok (Some (zero_array [n; L; P1 * P2]))).
Proof.
  intros H1 H2 Hlam. split.
  - intros cache.
    now rewrite (sparse_combine_prelude n M1 M2 P1 P2 L arr_1 arr_2 lam cache true
                   H1 H2 Hlam).
  - intros cache HS.
    rewrite (sparse_combine_prelude n M1 M2 P1 P2 L arr_1 arr_2 lam cache false
               H1 H2 Hlam).
    rewrite HS. reflexivity.
Qed.

Lemma sparse_combine_empty_mode_witness :
  _sparse_combine (NdArray Examples.arr_1) Examples.arr_2 1 Examples.no_sparse true
  = Ok (Some (zero_array [2; 3; 2]))
  /\ _sparse_combine (NdArray Examples.arr_1) Examples.arr_2 1
                     MoreExamples.sparse_cache_no_coefficient false
     = Ok (Some (zero_array [2; 3; 2])).
Proof.
  destruct (sparse_combine_empty_mode 2 3 1 2 1 3 Examples.arr_1 Examples.arr_2 1
              eq_refl eq_refl eq_refl) as (Hempty & Hnone).
  split.
  - apply Hempty.
  - apply Hnone. reflexivity.
Defined.

(** X4. A negative channel [lam] makes the sparse strategy fail with the
    [ValueError] of [np.zeros] on a negative dimension, in both modes and
    before the coefficient source is looked at. *)
Theorem sparse_combine_negative_channel
        (n M1 M2 P1 P2 : nat) (arr_1 arr_2 : ndarray) (lam : Z)
        (cache : cg_cache sparse_table) (return_empty_array : bool) :
  shape arr_1 = [n; M1; P1] -> shape arr_2 = [n; M2; P2] ->
  (lam < 0)%Z ->
  _sparse_combine (NdArray arr_1) arr_2 lam cache return_empty_array
  = Raise (ValueError "negative dimensions are not allowed").
Proof.
  intros H1 H2 Hlam. unfold _sparse_combine.
  rewrite (shape_at_0 _ _ _ H1), (shape_at_0 _ _ _ H2).
  rewrite (shape_at_1 _ _ _ _ H1), (shape_at_1 _ _ _ _ H2).
  rewrite (shape_at_2 _ _ _ _ _ H1), (shape_at_2 _ _ _ _ _ H2).
  cbn [bind]. rewrite Nat.eqb_refl. cbn [assert bind].
  unfold zeros. cbn [forallb].
  replace (0 <=? 2 * lam + 1)%Z with false by (symmetry; apply Z.leb_gt; lia).
  rewrite andb_false_r. reflexivity.
Qed.

Lemma sparse_combine_negative_channel_witness :
  _sparse_combine (NdArray Examples.arr_1) Examples.arr_2 (-1)
                  Examples.sparse_cache true
  = Raise (ValueError "negative dimensions are not allowed").
Proof.
  apply (sparse_combine_negative_channel 2 3 1 2 1 Examples.arr_1 Examples.arr_2
           (-1) Examples.sparse_cache true eq_refl eq_refl).
  lia.
Defined.

(** X5. What the dense strategy computes on non-empty component and
    property axes: for inputs of shapes [n1, M1, P1] and [n2, M2, P2] with
    [M1, M2, P1, P2 > 0] whose sample counts broadcast to [n] ([n1 = n2 = n],
    or one of them is one and [n] is the other), and a table with
    [M1 * M2 * L] elements ([L = 2 lam + 1 > 0]), the output has shape
    [n, L, P1 * P2] and its element [(i, mu, p * P2 + q)] is the sum over
    [m1] and [m2] of [arr_1[i, m1, p] * arr_2[i, m2, q] * table[m1, m2, mu]],
    a single sample being used for every [i]. *)
Theorem dense_combine_elements
        (n1 n2 n M1 M2 P1 P2 L : nat) (arr_1 arr_2 D : ndarray)
        (lam : Z) (cache : cg_cache ndarray) :
  shape arr_1 = [n1; M1; P1] -> shape arr_2 = [n2; M2; P2] ->
  broadcast_dim n1 n2 = Ok n ->
  0 < M1 -> 0 < M2 -> 0 < P1 -> 0 < P2 -> 0 < L ->
  (2 * lam + 1)%Z = Z.of_nat L ->
  dict_get triple_eqb (coeffs cache) (infer_l M1, infer_l M2, lam) = Ok D ->
  size (shape D) = M1 * M2 * L ->
  exists out,
    _dense_combine (NdArray arr_1) arr_2 lam cache = Ok (Some out)
    /\ shape out = [n; L; P1 * P2]
    /\ forall i mu p q, i < n -> mu < L -> p < P1 -> q < P2 ->
         item out [i; mu; p * P2 + q]
         = sum_upto M1 (fun m1 => sum_upto M2 (fun m2 =>
             (item arr_1 [(if n1 =? 1 then 0 else i)%nat; m1; p]
              * item arr_2 [(if n2 =? 1 then 0 else i)%nat; m2; q]
              * nth ((m1 * M2 + m2) * L + mu) (data D) 0)%R)).
Proof.
  intros H1 H2 Hn HM1 HM2 HP1 HP2 HL Hlam HD HsD.
  unfold _dense_combine.
  rewrite (shape_at_1 _ _ _ _ H1), (shape_at_1 _ _ _ _ H2).
  rewrite (shape_at_2 _ _ _ _ _ H1), (shape_at_2 _ _ _ _ _ H2).
  cbn [bind]. rewrite HD. cbn [bind].
  destruct (getitem_spec arr_1 [All; NewAxis; NewAxis; All; All] [n1; 1; 1; M1; P1])
    as (a & -> & _ & Ha_sh & Ha_it); [now rewrite H1|].
  destruct (getitem_spec arr_2 [All; All; All; NewAxis; NewAxis] [n2; M2; P2; 1; 1])
    as (b & -> & _ & Hb_sh & Hb_it); [now rewrite H2|].
  cbn [bind].
  destruct (mul_spec a b [n; M2; P2; M1; P1]) as (ab & -> & _ & Hab_sh & Hab_it).
  { rewrite Ha_sh, Hb_sh. unfold broadcast_shapes. cbn [rev app broadcast_rev].
    rewrite !broadcast_dim_1_r, !broadcast_dim_1_l, Hn. reflexivity. }
  cbn [bind].
  destruct (swapaxes_spec ab 1 4) as (sw & -> & _ & Hsw_sh & Hsw_it);
    [unfold ndim; rewrite Hab_sh; simpl; lia ..|].
  rewrite Hab_sh in Hsw_sh, Hsw_it.
  change (swap 1 4 [n; M2; P2; M1; P1]) with [n; P1; P2; M1; M2] in Hsw_sh, Hsw_it.
  cbn [bind].
  change [(-1)%Z; Z.of_nat (P1 * P2); Z.of_nat (M1 * M2)]
    with (map Z.of_nat [] ++ (-1)%Z :: map Z.of_nat [P1 * P2; M1 * M2]).
  assert (Htot : size (shape sw) = n * size [P1 * P2; M1 * M2]).
  { rewrite Hsw_sh. cbn [size fold_right]. ring. }
  rewrite reshape_infer; cbn [app]; rewrite ?Htot;
    [ | lia | cbn [size fold_right]; nia | apply Nat.Div0.mod_mul ].
  rewrite Nat.div_mul by (cbn [size fold_right]; nia).
  cbn [bind].
  rewrite Hlam.
  change [(-1)%Z; Z.of_nat L]
    with (map Z.of_nat [] ++ (-1)%Z :: map Z.of_nat [L]).
  assert (HtotD : size (shape D) = (M1 * M2) * size [L]).
  { rewrite HsD. cbn [size fold_right]. ring. }
  rewrite reshape_infer; cbn [app]; rewrite ?HtotD;
    [ | lia | cbn [size fold_right]; nia | apply Nat.Div0.mod_mul ].
  rewrite Nat.div_mul by (cbn [size fold_right]; nia).
  cbn [bind].
  destruct (matmul_spec (mk_ndarray [n; P1 * P2; M1 * M2] (data sw))
                        (mk_ndarray [M1 * M2; L] (data D))
                        (M1 * M2) (P1 * P2) L [n] [] [n])
    as (mm & -> & _ & Hmm_sh & Hmm_it); [reflexivity ..|].
  cbn [rev app length] in Hmm_sh, Hmm_it.
  cbn [bind].
  destruct (swapaxes_spec mm 1 2) as (out & -> & Hout_wf & Hout_sh & Hout_it);
    [unfold ndim; rewrite Hmm_sh; simpl; lia ..|].
  rewrite Hmm_sh in Hout_sh, Hout_it.
  change (swap 1 2 [n; P1 * P2; L]) with [n; L; P1 * P2] in Hout_sh, Hout_it.
  cbn [bind].
  exists out. split; [reflexivity|]. split; [assumption|].
  intros i mu p q Hi Hmu Hp Hq.
  assert (Hpq : p * P2 + q < P1 * P2) by nia.
  destruct (broadcast_coord_lt n1 n2 n i Hn Hi) as [Hi1 Hi2].
  rewrite Hout_it by in_range_tac.
  change (swap 1 2 [i; mu; p * P2 + q]) with [i; p * P2 + q; mu].
  rewrite Hmm_it by in_range_tac.
  cbn [firstn nth bcast_index length skipn combine map Nat.sub fst snd app].
  rewrite sum_upto_flatten.
  apply sum_upto_ext. intros m1 Hm1. apply sum_upto_ext. intros m2 Hm2.
  rewrite (bcoord_lt n i) by lia.
  rewrite (item_reshape_eq sw _ [i; p; q; m1; m2]).
  2:{ rewrite Hsw_sh. cbn [ravel size fold_right]. ring. }
  rewrite Hsw_it by in_range_tac.
  change (swap 1 4 [i; p; q; m1; m2]) with [i; m2; q; m1; p].
  rewrite Hab_it by in_range_tac.
  rewrite Ha_sh, Hb_sh.
  cbn [bcast_index length skipn combine map Nat.sub fst snd Nat.eqb].
  rewrite (bcoord_lt M1 m1), (bcoord_lt P1 p), (bcoord_lt M2 m2), (bcoord_lt P2 q) by lia.
  rewrite Ha_it, Hb_it by in_range_tac.
  rewrite H1, H2. cbn [index_source hd tl].
  f_equal. unfold item. cbn [shape data ravel size fold_right].
  f_equal. ring.
Qed.

Lemma dense_combine_elements_witness :
  exists out,
    _dense_combine (NdArray MoreExamples.single_sample) MoreExamples.three_samples 1
                   Examples.dense_cache = Ok (Some out)
    /\ shape out = [3; 3; 2].
Proof.
  pose proof (dense_combine_elements 1 3 3 3 1 2 1 3
                MoreExamples.single_sample MoreExamples.three_samples
                Examples.dense_110 1 Examples.dense_cache) as H.
  discharge H.
  destruct H as (out & Hout & Hsh & _).
  exists out. split; assumption.
Defined.

(** The single sample of the first input is combined with each of the three
    samples of the second input. *)
Example dense_combine_broadcast_example :
  _dense_combine (NdArray MoreExamples.single_sample) MoreExamples.three_samples 1
                 Examples.dense_cache
  = Ok (Some (mk_ndarray [3; 3; 2]
                [2; 4; 6; 8; 10; 12;  3; 6; 9; 12; 15; 18;  4; 8; 12; 16; 20; 24]%R)).
Proof. eq_arrays. Qed.

(** X6. Inputs whose sample counts differ: the sparse strategy fails on
    its assertion before anything else is looked at (whatever the channel,
    the coefficient source and the mode); the dense strategy, which has no
    such check, fails in its elementwise product with the [ValueError] of
    broadcasting when neither count is one. *)
Theorem sample_count_mismatch
        (n1 n2 M1 M2 P1 P2 : nat) (arr_1 arr_2 : ndarray) :
  shape arr_1 = [n1; M1; P1] -> shape arr_2 = [n2; M2; P2] ->
  n1 <> n2 ->
  (forall (lam : Z) (cache : cg_cache sparse_table) (return_empty_array : bool),
      _sparse_combine (NdArray arr_1) arr_2 lam cache return_empty_array
      = Raise AssertionError)
  /\ (forall (lam : Z) (cache : cg_cache ndarray),
         n1 <> 1 -> n2 <> 1 ->
         In (infer_l M1, infer_l M2, lam) (dict_keys (coeffs cache)) ->
         _dense_combine (NdArray arr_1) arr_2 lam cache
         = Raise (ValueError "operands could not be broadcast together")).
Proof.
  intros H1 H2 Hne. split.
  - intros lam cache flag.
    exact (sparse_combine_sample_mismatch n1 n2 [M1; P1] [M2; P2] arr_1 arr_2
             lam cache flag H1 H2 Hne).
  - intros lam cache Hn1 Hn2 Hin.
    destruct (dict_get_in_keys _ _ Hin) as (D & HD).
    exact (dense_combine_sample_mismatch n1 n2 M1 M2 P1 P2 arr_1 arr_2 D lam cache
             H1 H2 Hne Hn1 Hn2 HD).
Qed.

Lemma sample_count_mismatch_witness :
  _sparse_combine (NdArray Examples.arr_1) MoreExamples.three_samples 1
                  Examples.no_sparse true
  = Raise AssertionError
  /\ _dense_combine (NdArray Examples.arr_1) MoreExamples.three_samples 1
                    Examples.dense_cache
     = Raise (ValueError "operands could not be broadcast together").
Proof.
  destruct (sample_count_mismatch 2 3 3 1 2 1
              Examples.arr_1 MoreExamples.three_samples eq_refl eq_refl)
    as (Hsparse & Hdense); [lia|].
  split.
  - apply Hsparse.
  - apply Hdense; [lia | lia | simpl; tauto].
Defined.

(** X7. On an empty property axis the two strategies part: the sparse
    strategy returns the array without elements of shape [n, L, 0], the
    dense strategy fails with the [ValueError] of a reshape that cannot
    infer its dimension [-1]. *)
Theorem combine_without_properties
        (n M1 M2 P1 P2 L : nat) (arr_1 arr_2 : ndarray) (lam : Z) :
  shape arr_1 = [n; M1; P1] -> shape arr_2 = [n; M2; P2] ->
  P1 * P2 = 0 ->
  (2 * lam + 1)%Z = Z.of_nat L ->
  (forall (cache : cg_cache sparse_table) (S : sparse_table),
      dict_get triple_eqb (coeffs cache) (infer_l M1, infer_l M2, lam) = Ok S ->
      Forall (key_ok M1 M2 L) (dict_keys S) ->
      exists out,
        _sparse_combine (NdArray arr_1) arr_2 lam cache false = Ok (Some out)
        /\ shape out = [n; L; 0] /\ data out = [])
  /\ (forall (cache : cg_cache ndarray) (D : ndarray),
         dict_get triple_eqb (coeffs cache) (infer_l M1, infer_l M2, lam) = Ok D ->
         _dense_combine (NdArray arr_1) arr_2 lam cache
         = Raise (ValueError "cannot reshape array")).
Proof.
  intros H1 H2 HP Hlam. split.
  - intros cache S HS Hks.
    rewrite (sparse_combine_prelude n M1 M2 P1 P2 L arr_1 arr_2 lam cache false
               H1 H2 Hlam).
    rewrite HS. cbn [bind].
    destruct (zero_array_spec [n; L; P1 * P2]) as (Hz_wf & Hz_sh & _).
    destruct (sparse_loop_wrapped_spec n M1 M2 P1 P2 L arr_1 arr_2 S (dict_keys S)
                H1 H2 Hks (fun k Hk => Hk) _ Hz_sh Hz_wf)
      as (out & -> & Hwf & Hsh & _).
    exists out. split; [reflexivity|]. rewrite HP in Hsh. split; [assumption|].
    unfold wf in Hwf. rewrite Hsh in Hwf. cbn [size fold_right] in Hwf.
    apply length_zero_iff_nil. lia.
  - intros cache D HD.
    apply (dense_combine_no_properties n M1 M2 P1 P2 arr_1 arr_2 D lam cache
             H1 H2 HP HD).
Qed.

Lemma combine_without_properties_witness :
  (exists out,
      _sparse_combine (NdArray MoreExamples.no_property) Examples.arr_2 1
                      Examples.sparse_cache false = Ok (Some out)
      /\ shape out = [2; 3; 0] /\ data out = [])
  /\ _dense_combine (NdArray MoreExamples.no_property) Examples.arr_2 1
                    Examples.dense_cache
     = Raise (ValueError "cannot reshape array").
Proof.
  destruct (combine_without_properties 2 3 1 0 1 3
              MoreExamples.no_property Examples.arr_2 1
              eq_refl eq_refl eq_refl eq_refl) as (Hsparse & Hdense).
  split.
  - apply (Hsparse Examples.sparse_cache Examples.sparse_110); [reflexivity|].
    simpl. repeat (apply Forall_cons || apply Forall_nil);
      unfold key_ok, index_ok; lia.
  - apply (Hdense Examples.dense_cache Examples.dense_110). reflexivity.
Defined.

(** X8. A dense table of the wrong size is rejected: when its number of
    elements is not [M1 * M2 * L], the dense strategy fails with a
    [ValueError] (of the reshape of the table, or of the matrix product). *)
Theorem dense_combine_wrong_table_size
        (n M1 M2 P1 P2 L : nat) (arr_1 arr_2 D : ndarray)
        (lam : Z) (cache : cg_cache ndarray) :
  shape arr_1 = [n; M1; P1] -> shape arr_2 = [n; M2; P2] ->
  0 < M1 -> 0 < M2 -> 0 < P1 -> 0 < P2 -> 0 < L ->
  (2 * lam + 1)%Z = Z.of_nat L ->
  dict_get triple_eqb (coeffs cache) (infer_l M1, infer_l M2, lam) = Ok D ->
  size (shape D) <> M1 * M2 * L ->
  exists msg,
    _dense_combine (NdArray arr_1) arr_2 lam cache = Raise (ValueError msg).
Proof.
  intros H1 H2 HM1 HM2 HP1 HP2 HL Hlam HD HsD.
  unfold _dense_combine.
  rewrite (shape_at_1 _ _ _ _ H1), (shape_at_1 _ _ _ _ H2).
  rewrite (shape_at_2 _ _ _ _ _ H1), (shape_at_2 _ _ _ _ _ H2).
  cbn [bind]. rewrite HD. cbn [bind].
  destruct (getitem_spec arr_1 [All; NewAxis; NewAxis; All; All] [n; 1; 1; M1; P1])
    as (a & -> & _ & Ha_sh & _); [now rewrite H1|].
  destruct (getitem_spec arr_2 [All; All; All; NewAxis; NewAxis] [n; M2; P2; 1; 1])
    as (b & -> & _ & Hb_sh & _); [now rewrite H2|].
  cbn [bind].
  destruct (mul_spec a b [n; M2; P2; M1; P1]) as (ab & -> & _ & Hab_sh & _).
  { rewrite Ha_sh, Hb_sh. unfold broadcast_shapes. cbn [rev app broadcast_rev].
    bcast_dims. reflexivity. }
  cbn [bind].
  destruct (swapaxes_spec ab 1 4) as (sw & -> & _ & Hsw_sh & _);
    [unfold ndim; rewrite Hab_sh; simpl; lia ..|].
  rewrite Hab_sh in Hsw_sh.
  change (swap 1 4 [n; M2; P2; M1; P1]) with [n; P1; P2; M1; M2] in Hsw_sh.
  cbn [bind].
  change [(-1)%Z; Z.of_nat (P1 * P2); Z.of_nat (M1 * M2)]
    with (map Z.of_nat [] ++ (-1)%Z :: map Z.of_nat [P1 * P2; M1 * M2]).
  assert (Htot : size (shape sw) = n * size [P1 * P2; M1 * M2]).
  { rewrite Hsw_sh. cbn [size fold_right]. ring. }
  rewrite reshape_infer; cbn [app]; rewrite ?Htot;
    [ | lia | cbn [size fold_right]; nia | apply Nat.Div0.mod_mul ].
  rewrite Nat.div_mul by (cbn [size fold_right]; nia).
  cbn [bind].
  rewrite Hlam.
  change [(-1)%Z; Z.of_nat L]
    with (map Z.of_nat [] ++ (-1)%Z :: map Z.of_nat [L]).
  assert (HsL : size ([] ++ [L]) = L) by (cbn [app size fold_right]; lia).
  destruct (Nat.eq_dec (size (shape D) mod L) 0) as [Hmod|Hmod].
  - rewrite reshape_infer; [ | lia | rewrite HsL; lia | rewrite HsL; assumption ].
    rewrite HsL. cbn [app bind]. unfold matmul. cbn [shape rev app].
    assert (Hk : (M1 * M2 =? size (shape D) / L) = false).
    { apply Nat.eqb_neq. intros Heq. apply HsD.
      pose proof (Nat.div_mod_eq (size (shape D)) L). nia. }
    rewrite Hk. cbn [bind]. eauto.
  - rewrite reshape_infer_indivisible; [ | lia | rewrite HsL; assumption ].
    cbn [bind]. eauto.
Qed.

Lemma dense_combine_wrong_table_size_witness :
  exists msg,
    _dense_combine (NdArray Examples.arr_1) Examples.arr_2 1
                   MoreExamples.dense_cache_too_small = Raise (ValueError msg).
Proof.
  pose proof (dense_combine_wrong_table_size 2 3 1 2 1 3
                Examples.arr_1 Examples.arr_2
                (mk_ndarray [2; 1; 3] [1; 0; 0; 0; 1; 0]%R) 1
                MoreExamples.dense_cache_too_small) as H.
  discharge H.
  exact H.
Defined.

(** * Further properties of the power spectrum *)

Lemma labels_eqb_eq (l l' : Labels.t) : Labels.eqb l l' = true <-> l = l'.
Proof.
  unfold Labels.eqb. destruct l as [n v], l' as [n' v'].
  cbn [Labels.names Labels.values].
  rewrite andb_true_iff, names_eqb_eq.
  destruct (list_eq_dec (list_eq_dec Z.eq_dec) v v') as [->|Hne]; split.
  - intros [-> _]. reflexivity.
  - intros H. injection H as ->. auto.
  - intros [_ H]. discriminate.
  - intros H. injection H as _ H. contradiction.
Qed.

Lemma is_supported_iff (name : string) :
  PowerSpectrum.is_supported name = true <-> supported_name name.
Proof.
  unfold PowerSpectrum.is_supported, PowerSpectrum.supported_calculators,
    supported_name.
  cbn [existsb]. rewrite !orb_true_iff, !String.eqb_eq. intuition discriminate.
Qed.

Lemma string_dict_get_in {V : Type} (d : dict string V) (k : string) :
  In k (dict_keys d) -> exists v, dict_get String.eqb d k = Ok v.
Proof.
  induction d as [|[k' v] d IH]; simpl; [contradiction|].
  intros [->|H].
  - rewrite String.eqb_refl. eauto.
  - destruct (String.eqb k' k); eauto.
Qed.

Lemma string_dict_get_ok {V : Type} (d : dict string V) (k : string) (v : V) :
  dict_get String.eqb d k = Ok v -> In k (dict_keys d).
Proof.
  induction d as [|[k' v'] d IH]; simpl; [discriminate|].
  destruct (String.eqb k' k) eqn:E.
  - apply String.eqb_eq in E. auto.
  - auto.
Qed.

Lemma gradient_found (b : TensorBlock.t) (parameter : string) :
  In parameter (TensorBlock.gradients_list b) ->
  exists g, TensorBlock.gradient b parameter = Ok g.
Proof.
  intros H. unfold TensorBlock.gradient.
  destruct (string_dict_get_in (TensorBlock.gradients b) parameter H) as (g & ->).
  eauto.
Qed.

Lemma gradient_missing (b : TensorBlock.t) (parameter : string) :
  ~ In parameter (TensorBlock.gradients_list b) ->
  TensorBlock.gradient b parameter
  = Raise (EquistoreError "can not find gradients with respect to this parameter").
Proof.
  intros H. unfold TensorBlock.gradient.
  destruct (dict_get String.eqb (TensorBlock.gradients b) parameter) as [g|e] eqn:E;
    [|reflexivity].
  exfalso. apply H. exact (string_dict_get_ok _ _ _ E).
Qed.

Lemma add_gradient_fresh (b g out : TensorBlock.t) (parameter : string) :
  TensorBlock.add_gradient b parameter g = Ok out ->
  ~ In parameter (TensorBlock.gradients_list b).
Proof.
  unfold TensorBlock.add_gradient. intros H Hin.
  destruct (string_dict_get_in (TensorBlock.gradients b) parameter Hin) as (g' & E).
  rewrite E in H. discriminate.
Qed.

Lemma for_each_invariant_in {A S : Type} (P : S -> Prop)
      (body : A -> S -> result S) (xs : list A) :
  (forall x s s', In x xs -> body x s = Ok s' -> P s -> P s') ->
  forall s s', for_each xs body s = Ok s' -> P s -> P s'.
Proof.
  induction xs as [|x xs IH]; intros Hbody s s' H HP; simpl in H.
  - now injection H as <-.
  - apply bind_ok in H as (s1 & H1 & H2).
    apply (IH (fun y t t' Hy => Hbody y t t' (or_intror Hy)) s1 s' H2).
    apply (Hbody x s s1 (or_introl eq_refl) H1 HP).
Qed.

(** A loop that returns has run its body on every element. *)
Lemma for_each_all_ok {A S : Type} (body : A -> S -> result S) (xs : list A) :
  forall s s', for_each xs body s = Ok s' ->
               Forall (fun x => exists s1 s2, body x s1 = Ok s2) xs.
Proof.
  induction xs as [|x xs IH]; intros s s' H; [constructor|].
  simpl in H. apply bind_ok in H as (s1 & H1 & H2).
  constructor; eauto.
Qed.

Lemma inv_sqrt_factor_ok (ell : Z) (factor : R) :
  PowerSpectrum.inv_sqrt_factor ell = Ok factor ->
  (0 <= ell)%Z /\ factor = (1 / sqrt (IZR (2 * ell + 1)))%R.
Proof.
  unfold PowerSpectrum.inv_sqrt_factor.
  destruct (2 * ell + 1 <? 0)%Z eqn:E; [discriminate|].
  apply Z.ltb_ge in E. intros H. injection H as <-. split; [lia|reflexivity].
Qed.

Lemma invariant_block_ok (factor : R) (block_1 block_2 new_block : TensorBlock.t) :
  PowerSpectrum.invariant_block factor block_1 block_2 = Ok new_block ->
  TensorBlock.samples block_1 = TensorBlock.samples block_2
  /\ TensorBlock.samples new_block = TensorBlock.samples block_1
  /\ TensorBlock.components new_block = []
  /\ TensorBlock.properties new_block
     = Labels.mk power_spectrum_property_names
         (PowerSpectrum.product_rows
            (Labels.values (TensorBlock.properties block_1))
            (Labels.values (TensorBlock.properties block_2)))
  /\ TensorBlock.gradients new_block = [].
Proof.
  unfold PowerSpectrum.invariant_block. intros H.
  apply bind_ok in H as (u & Hs & H).
  apply bind_ok in H as (v1 & _ & H).
  apply bind_ok in H as (m & _ & H).
  apply bind_ok in H as (n & _ & H).
  apply bind_ok in H as (values & _ & H).
  apply new_ok in H as (_ & Hsa & Hc & Hp & Hg).
  split; [|repeat split; assumption].
  unfold assert in Hs.
  destruct (Labels.eqb (TensorBlock.samples block_1) (TensorBlock.samples block_2))
    eqn:E; [|discriminate].
  now apply labels_eqb_eq.
Qed.

Lemma positions_gradients_adds (new_block block_1 block_2 out : TensorBlock.t)
      (factor : R) :
  PowerSpectrum._positions_gradients new_block block_1 block_2 factor = Ok out ->
  ~ In "positions"%string (TensorBlock.gradients_list new_block)
  /\ exists g,
      TensorBlock.gradients out
      = TensorBlock.gradients new_block ++ [("positions"%string, g)].
Proof.
  unfold PowerSpectrum._positions_gradients. intros H.
  apply bind_ok in H as (g1 & _ & H).
  apply bind_ok in H as (g2 & _ & H).
  apply bind_ok in H as ([gs gv] & _ & H).
  apply bind_ok in H as (comp & _ & H).
  apply bind_ok in H as (gradient & _ & H).
  split; [exact (add_gradient_fresh _ _ _ _ H)|].
  apply add_gradient_ok in H. subst out.
  cbn [TensorBlock.with_gradients TensorBlock.gradients]. eauto.
Qed.

Lemma gradient_loop_list (step : TensorBlock.t -> result TensorBlock.t)
      (names : list string) :
  (forall s s', step s = Ok s' ->
                ~ In "positions"%string (TensorBlock.gradients_list s)
                /\ exists g, TensorBlock.gradients s'
                             = TensorBlock.gradients s ++ [("positions"%string, g)]) ->
  forall s out,
    for_each names (fun parameter s => if String.eqb parameter "positions"
                                       then step s else Ok s) s = Ok out ->
    TensorBlock.gradients_list out
    = TensorBlock.gradients_list s
        ++ (if existsb is_positions names then ["positions"%string] else [])
    /\ (existsb is_positions names = true ->
        ~ In "positions"%string (TensorBlock.gradients_list s)).
Proof.
  intros Hstep. induction names as [|name names IH]; intros s out H.
  - injection H as <-. cbn [existsb]. rewrite app_nil_r.
    split; [reflexivity|discriminate].
  - cbn [for_each] in H. apply bind_ok in H as (s1 & H1 & H2).
    cbn [existsb]. unfold is_positions at 1 3.
    destruct (IH s1 out H2) as (IHl & IHn).
    destruct (String.eqb name "positions") eqn:E; cbn [orb].
    + destruct (Hstep s s1 H1) as (Hfresh & g & Hg).
      assert (Hs1 : TensorBlock.gradients_list s1
                    = TensorBlock.gradients_list s ++ ["positions"%string]).
      { unfold TensorBlock.gradients_list. rewrite Hg, map_app. reflexivity. }
      destruct (existsb is_positions names) eqn:Ex.
      * exfalso. apply IHn; [reflexivity|]. rewrite Hs1.
        apply in_or_app. right. left. reflexivity.
      * rewrite IHl, Hs1, app_nil_r. split; [reflexivity|]. intros _. exact Hfresh.
    + injection H1 as <-. split; [exact IHl|exact IHn].
Qed.

Lemma sum_upto_nonneg (n : nat) (f : nat -> R) :
  (forall t, t < n -> (0 <= f t)%R) -> (0 <= sum_upto n f)%R.
Proof.
  induction n as [|n IH]; intros H.
  - unfold sum_upto. simpl. lra.
  - rewrite sum_upto_S.
    assert (0 <= sum_upto n f)%R by (apply IH; intros t Ht; apply H; lia).
    assert (0 <= f n)%R by (apply H; lia). lra.
Qed.

Lemma insert_unique_In (x z : Z) (l : list Z) :
  In z (PowerSpectrum.insert_unique x l) <-> z = x \/ In z l.
Proof.
  induction l as [|y l IH]; cbn [PowerSpectrum.insert_unique].
  - simpl. intuition.
  - destruct (x <? y)%Z eqn:E1; [simpl; intuition|].
    destruct (x =? y)%Z eqn:E2.
    + apply Z.eqb_eq in E2. subst y. simpl. intuition.
    + simpl. rewrite IH. intuition.
Qed.

Lemma insert_unique_increasing (x : Z) (l : list Z) :
  increasing l -> increasing (PowerSpectrum.insert_unique x l).
Proof.
  induction l as [|y l IH]; cbn [PowerSpectrum.insert_unique increasing].
  - intros _. split; [constructor|exact I].
  - intros (Hy & Hl).
    destruct (x <? y)%Z eqn:E1.
    + apply Z.ltb_lt in E1. cbn [increasing]. split; [|split; assumption].
      constructor; [assumption|].
      rewrite Forall_forall in *. intros z Hz. specialize (Hy z Hz). lia.
    + destruct (x =? y)%Z eqn:E2; [cbn [increasing]; split; assumption|].
      apply Z.ltb_ge in E1. apply Z.eqb_neq in E2.
      cbn [increasing]. split; [|apply IH; assumption].
      rewrite Forall_forall in *. intros z Hz.
      apply insert_unique_In in Hz as [->|Hz]; [lia|auto].
Qed.

Lemma np_unique_increasing (l : list Z) : increasing (PowerSpectrum.np_unique l).
Proof.
  induction l as [|x l IH]; [exact I|].
  cbn [PowerSpectrum.np_unique fold_right]. now apply insert_unique_increasing.
Qed.

Lemma np_unique_In (l : list Z) (z : Z) :
  In z (PowerSpectrum.np_unique l) <-> In z l.
Proof.
  induction l as [|x l IH]; [reflexivity|].
  cbn [PowerSpectrum.np_unique fold_right].
  rewrite insert_unique_In. fold (PowerSpectrum.np_unique l). rewrite IH.
  simpl. intuition.
Qed.

Lemma gradients_check_raises (gradients : list string) (parameter : string) :
  In parameter gradients -> parameter <> "positions"%string ->
  for_each gradients
    (fun parameter (_ : unit) =>
       if negb (String.eqb parameter "positions")
       then Raise (NotImplementedError
              "PowerSpectrum currently only supports gradients w.r.t. to positions")
       else Ok tt) tt
  = Raise (NotImplementedError
             "PowerSpectrum currently only supports gradients w.r.t. to positions").
Proof.
  intros Hin Hne. induction gradients as [|g gradients IH]; [contradiction|].
  cbn [for_each]. destruct (String.eqb g "positions") eqn:E; cbn [negb bind].
  - apply String.eqb_eq in E. destruct Hin as [->|Hin]; [contradiction|].
    now apply IH.
  - reflexivity.
Qed.

Lemma gradients_check_ok (gradients : list string) (u : unit) :
  for_each gradients
    (fun parameter (_ : unit) =>
       if negb (String.eqb parameter "positions")
       then Raise (NotImplementedError
              "PowerSpectrum currently only supports gradients w.r.t. to positions")
       else Ok tt) tt
  = Ok u ->
  Forall (fun parameter => parameter = "positions"%string) gradients.
Proof.
  induction gradients as [|g gradients IH]; intros H; [constructor|].
  cbn [for_each] in H. destruct (String.eqb g "positions") eqn:E;
    cbn [negb bind] in H; [|discriminate].
  apply String.eqb_eq in E. constructor; auto.
Qed.

(** ** Construction and the gradients that can be requested *)

(** X9. [__init__] returns exactly when the first calculator has one of
    the two supported names and, if there is a second calculator, it has a
    supported name too and both sets of hyper-parameters hold the same value
    for ['max_angular']; the object then stores the two calculators
    unchanged.  A single calculator is never asked for its
    hyper-parameters. *)
Theorem init_accepts (Systems : Type)
        (calculator_1 : PowerSpectrum.Calculator Systems)
        (calculator_2 : option (PowerSpectrum.Calculator Systems))
        (self : PowerSpectrum.t Systems) :
  PowerSpectrum.__init__ calculator_1 calculator_2 = Ok self
  <-> self = PowerSpectrum.mk calculator_1 calculator_2
      /\ supported_name (PowerSpectrum.c_name calculator_1)
      /\ match calculator_2 with
         | None => True
         | Some calculator_2 =>
             supported_name (PowerSpectrum.c_name calculator_2)
             /\ exists max_angular,
                 dict_get String.eqb (PowerSpectrum.parameters calculator_1)
                          "max_angular"%string = Ok max_angular
                 /\ dict_get String.eqb (PowerSpectrum.parameters calculator_2)
                             "max_angular"%string = Ok max_angular
         end.
Proof.
  unfold PowerSpectrum.__init__.
  rewrite <- !is_supported_iff.
  destruct (PowerSpectrum.is_supported (PowerSpectrum.c_name calculator_1));
    cbn [negb]; [|split; [discriminate|intros (_ & H & _); discriminate]].
  destruct calculator_2 as [calculator_2|].
  - rewrite <- is_supported_iff.
    destruct (PowerSpectrum.is_supported (PowerSpectrum.c_name calculator_2));
      cbn [negb]; [|split; [discriminate|intros (_ & _ & H & _); discriminate]].
    destruct (dict_get String.eqb (PowerSpectrum.parameters calculator_1)
                       "max_angular"%string) as [m1|e1]; cbn [bind].
    + destruct (dict_get String.eqb (PowerSpectrum.parameters calculator_2)
                         "max_angular"%string) as [m2|e2]; cbn [bind].
      * destruct (m1 =? m2)%Z eqn:E; cbn [negb].
        -- apply Z.eqb_eq in E. subst m2. split.
           ++ intros H. injection H as <-. repeat split. eauto.
           ++ intros (-> & _). reflexivity.
        -- apply Z.eqb_neq in E. split; [discriminate|].
           intros (_ & _ & _ & m & H1 & H2). congruence.
      * split; [discriminate|]. intros (_ & _ & _ & m & _ & H). discriminate.
    + split; [discriminate|]. intros (_ & _ & _ & m & H & _). discriminate.
  - split.
    + intros H. injection H as <-. auto.
    + intros (-> & _). reflexivity.
Qed.

(** X10. A request for gradients with respect to anything else than
    ["positions"] is refused with [NotImplementedError] before any
    calculator is run: the outcome is the same for every pair of
    calculators, systems and [keys_to_properties]. *)
Theorem other_gradients_not_implemented (Systems : Type)
        (keys_to_properties : TensorMap.t -> TensorMap.keys_to_move -> result TensorMap.t)
        (self : PowerSpectrum.t Systems) (systems : Systems)
        (gradients : list string) (use_native_system : bool) (parameter : string) :
  In parameter gradients -> parameter <> "positions"%string ->
  PowerSpectrum.compute keys_to_properties self systems (Some gradients)
                        use_native_system
  = Raise (NotImplementedError
             "PowerSpectrum currently only supports gradients w.r.t. to positions").
Proof.
  intros Hin Hne. unfold PowerSpectrum.compute.
  rewrite (gradients_check_raises gradients parameter Hin Hne). reflexivity.
Qed.

Lemma other_gradients_not_implemented_witness :
  PowerSpectrum.compute MoreBlocks.keys_to_properties
    (PowerSpectrum.mk MoreBlocks.calculator None) tt
    (Some ["positions"; "cell"]%string) true
  = Raise (NotImplementedError
             "PowerSpectrum currently only supports gradients w.r.t. to positions").
Proof.
  apply (other_gradients_not_implemented unit MoreBlocks.keys_to_properties
           (PowerSpectrum.mk MoreBlocks.calculator None) tt
           ["positions"; "cell"]%string true "cell"%string).
  - simpl. tauto.
  - discriminate.
Defined.

(** ** The factor of a channel *)

(** X11. The factor of the channel [ell] normalises by the number of
    components: for [ell >= 0] it is positive and its square times
    [2 ell + 1] is one; for a negative [ell] the square root fails with the
    [ValueError] of [math.sqrt]. *)
Theorem channel_factor (ell : Z) :
  match PowerSpectrum.inv_sqrt_factor ell with
  | Ok factor =>
      (0 <= ell)%Z /\ (0 < factor)%R
      /\ (factor * factor * IZR (2 * ell + 1) = 1)%R
  | Raise e => (ell < 0)%Z /\ e = ValueError "math domain error"
  end.
Proof.
  unfold PowerSpectrum.inv_sqrt_factor.
  destruct (2 * ell + 1 <? 0)%Z eqn:E.
  - apply Z.ltb_lt in E. split; [lia|reflexivity].
  - apply Z.ltb_ge in E.
    assert (Hpos : (0 < IZR (2 * ell + 1))%R) by (apply IZR_lt; lia).
    assert (Hs : (0 < sqrt (IZR (2 * ell + 1)))%R) by (apply sqrt_lt_R0; exact Hpos).
    split; [lia|]. split.
    + apply Rdiv_lt_0_compat; lra.
    + rewrite <- (sqrt_sqrt (IZR (2 * ell + 1))) at 3 by lra.
      field. lra.
Qed.

(** ** The block built from a pair of blocks *)

(** X12. Combining a block with itself, as [compute] does with a single
    calculator, gives values that are symmetric under the exchange of the
    two properties, with diagonal elements that are not negative (for a
    factor that is not negative). *)
Theorem self_combination_symmetric
        (N M P : nat) (factor : R) (block : TensorBlock.t) :
  shape (TensorBlock.values block) = [N; M; P] ->
  0 < N -> (0 <= factor)%R ->
  exists new_block,
    PowerSpectrum.invariant_block factor block block = Ok new_block
    /\ shape (TensorBlock.values new_block) = [N; P * P]
    /\ (forall s p1 p2, s < N -> p1 < P -> p2 < P ->
          item (TensorBlock.values new_block) [s; p1 * P + p2]
          = item (TensorBlock.values new_block) [s; p2 * P + p1])
    /\ (forall s p, s < N -> p < P ->
          (0 <= item (TensorBlock.values new_block) [s; (p * P + p)%nat])%R).
Proof.
  intros Hsh HN Hf.
  assert (Hs : Labels.eqb (TensorBlock.samples block) (TensorBlock.samples block) = true)
    by (now apply labels_eqb_eq).
  destruct (invariant_block_spec N M P P factor block block Hsh Hsh Hs HN)
    as (new_block & Hnb & _ & _ & _ & _ & _ & Hvsh & Hit).
  exists new_block. split; [exact Hnb|].
  split; [exact Hvsh|]. split.
  - intros s p1 p2 Hs' Hp1 Hp2. rewrite !Hit by assumption.
    f_equal. apply sum_upto_ext. intros m _. apply Rmult_comm.
  - intros s p Hs' Hp. rewrite Hit by assumption.
    apply Rmult_le_pos; [exact Hf|].
    apply sum_upto_nonneg. intros m _.
    replace (item (TensorBlock.values block) [s; m; p]
             * item (TensorBlock.values block) [s; m; p])%R
      with (Rsqr (item (TensorBlock.values block) [s; m; p])) by reflexivity.
    apply Rle_0_sqr.
Qed.

Lemma self_combination_symmetric_witness :
  exists new_block,
    PowerSpectrum.invariant_block 1%R ExampleBlocks.plain_1 ExampleBlocks.plain_1
    = Ok new_block
    /\ shape (TensorBlock.values new_block) = [2; 4]
    /\ item (TensorBlock.values new_block) [0; 1]
       = item (TensorBlock.values new_block) [0; 2].
Proof.
  pose proof (self_combination_symmetric 2 3 2 1%R ExampleBlocks.plain_1) as H.
  discharge H.
  assert (Hf : (0 <= 1)%R) by lra. specialize (H Hf).
  destruct H as (new_block & Hnb & Hsh & Hsym & _).
  exists new_block. split; [exact Hnb|]. split; [exact Hsh|].
  apply (Hsym 0 0 1); lia.
Defined.

(** X13. What a block returned by the loop body looks like: the two input
    blocks had the same samples, which are those of the output; the output
    has no components, the four property names of the power spectrum, and a
    gradient for ["positions"], and nothing else, exactly when [block_1]
    has one. *)
Theorem combine_blocks_structure (factor : R)
        (block_1 block_2 out : TensorBlock.t) :
  PowerSpectrum.combine_blocks factor block_1 block_2 = Ok out ->
  TensorBlock.samples block_1 = TensorBlock.samples block_2
  /\ TensorBlock.samples out = TensorBlock.samples block_1
  /\ TensorBlock.components out = []
  /\ Labels.names (TensorBlock.properties out) = power_spectrum_property_names
  /\ TensorBlock.gradients_list out
     = if existsb is_positions (TensorBlock.gradients_list block_1)
       then ["positions"%string] else [].
Proof.
  intros H. pose proof H as Hloop. unfold PowerSpectrum.combine_blocks in Hloop.
  apply bind_ok in Hloop as (new_block & Hnb & Hloop).
  destruct (combine_blocks_keeps _ _ _ _ _ Hnb H) as (_ & Hs & Hc & Hp).
  destruct (invariant_block_ok _ _ _ _ Hnb) as (Hsame & Hns & Hnc & Hnp & Hng).
  rewrite Hs, Hc, Hp, Hns, Hnc, Hnp. cbn [Labels.names].
  repeat (split; [assumption || reflexivity|]).
  destruct (gradient_loop_list
              (fun new_block =>
                 PowerSpectrum._positions_gradients new_block block_1 block_2 factor)
              (TensorBlock.gradients_list block_1)
              (fun s s' Hstep => positions_gradients_adds _ _ _ _ _ Hstep)
              new_block out Hloop) as (Hlist & _).
  rewrite Hlist. unfold TensorBlock.gradients_list at 1. rewrite Hng. reflexivity.
Qed.

Lemma combine_blocks_structure_witness :
  exists out,
    PowerSpectrum.combine_blocks 1%R ExampleBlocks.block_1 ExampleBlocks.block_2
    = Ok out
    /\ TensorBlock.components out = []
    /\ TensorBlock.gradients_list out = ["positions"%string].
Proof.
  destruct (PowerSpectrum.combine_blocks 1%R ExampleBlocks.block_1
                                         ExampleBlocks.block_2) as [out|e] eqn:E.
  - exists out. split; [reflexivity|].
    destruct (combine_blocks_structure 1%R ExampleBlocks.block_1
                ExampleBlocks.block_2 out E) as (_ & _ & Hc & _ & Hg).
    split; [exact Hc|exact Hg].
  - exfalso. vm_compute in E. discriminate.
Defined.

(** X14. Blocks whose samples differ, in their names or in their rows,
    are rejected with [AssertionError] before any array is touched:
    whatever the values of the two blocks are. *)
Theorem combine_blocks_samples_differ (factor : R)
        (block_1 block_2 : TensorBlock.t) :
  TensorBlock.samples block_1 <> TensorBlock.samples block_2 ->
  PowerSpectrum.combine_blocks factor block_1 block_2 = Raise AssertionError.
Proof.
  intros Hne. unfold PowerSpectrum.combine_blocks, PowerSpectrum.invariant_block.
  destruct (Labels.eqb (TensorBlock.samples block_1) (TensorBlock.samples block_2))
    eqn:E; [|reflexivity].
  apply labels_eqb_eq in E. contradiction.
Qed.

Lemma combine_blocks_samples_differ_witness :
  PowerSpectrum.combine_blocks 1%R ExampleBlocks.plain_1 MoreBlocks.plain_2_elsewhere
  = Raise AssertionError.
Proof.
  apply (combine_blocks_samples_differ 1%R ExampleBlocks.plain_1
                                       MoreBlocks.plain_2_elsewhere).
  discriminate.
Defined.

(** X15. Blocks without any sample cannot be combined: numpy cannot infer
    the dimension [-1] of [data.reshape(data.shape[0], -1)] on an array
    without elements, and the loop body fails with a [ValueError]. *)
Theorem combine_blocks_no_samples (M P1 P2 : nat) (factor : R)
        (block_1 block_2 : TensorBlock.t) :
  shape (TensorBlock.values block_1) = [0; M; P1] ->
  shape (TensorBlock.values block_2) = [0; M; P2] ->
  TensorBlock.samples block_1 = TensorBlock.samples block_2 ->
  PowerSpectrum.combine_blocks factor block_1 block_2
  = Raise (ValueError "cannot reshape array").
Proof.
  intros H1 H2 Hs. apply labels_eqb_eq in Hs.
  unfold PowerSpectrum.combine_blocks.
  now rewrite (invariant_block_no_samples M P1 P2 factor block_1 block_2 H1 H2 Hs).
Qed.

Lemma combine_blocks_no_samples_witness :
  PowerSpectrum.combine_blocks 1%R MoreBlocks.empty_1 MoreBlocks.empty_2
  = Raise (ValueError "cannot reshape array").
Proof.
  apply (combine_blocks_no_samples 3 2 1 1%R MoreBlocks.empty_1 MoreBlocks.empty_2);
    reflexivity.
Defined.

(** X16. The gradients follow the first block only.  If [block_1] carries
    a gradient for ["positions"] and [block_2] does not, the loop body fails
    with the error of [block_2.gradient("positions")], although the values
    of the new block could be computed. *)
Theorem second_gradient_required
        (N M P1 P2 : nat) (factor : R) (block_1 block_2 : TensorBlock.t) :
  shape (TensorBlock.values block_1) = [N; M; P1] ->
  shape (TensorBlock.values block_2) = [N; M; P2] ->
  TensorBlock.samples block_1 = TensorBlock.samples block_2 ->
  0 < N ->
  In "positions"%string (TensorBlock.gradients_list block_1) ->
  ~ In "positions"%string (TensorBlock.gradients_list block_2) ->
  (exists new_block,
      PowerSpectrum.invariant_block factor block_1 block_2 = Ok new_block)
  /\ PowerSpectrum.combine_blocks factor block_1 block_2
     = Raise (EquistoreError "can not find gradients with respect to this parameter").
Proof.
  intros H1 H2 Hs HN Hin Hnot. apply labels_eqb_eq in Hs.
  destruct (invariant_block_spec N M P1 P2 factor block_1 block_2 H1 H2 Hs HN)
    as (new_block & Hnb & _).
  split; [eauto|].
  unfold PowerSpectrum.combine_blocks. rewrite Hnb. cbn [bind].
  generalize new_block as s.
  assert (Hstep : forall s,
             PowerSpectrum._positions_gradients s block_1 block_2 factor
             = Raise (EquistoreError
                        "can not find gradients with respect to this parameter")).
  { intros s. unfold PowerSpectrum._positions_gradients.
    destruct (gradient_found block_1 "positions"%string Hin) as (g1 & ->).
    cbn [bind]. now rewrite (gradient_missing block_2 "positions"%string Hnot). }
  induction (TensorBlock.gradients_list block_1) as [|name names IH];
    [contradiction|].
  intros s. cbn [for_each].
  destruct (String.eqb name "positions") eqn:E.
  - now rewrite Hstep.
  - cbn [bind]. apply IH. destruct Hin as [->|Hin]; [|assumption].
    now rewrite String.eqb_refl in E.
Qed.

Lemma second_gradient_required_witness :
  PowerSpectrum.combine_blocks 1%R ExampleBlocks.block_1 ExampleBlocks.plain_2
  = Raise (EquistoreError "can not find gradients with respect to this parameter").
Proof.
  pose proof (second_gradient_required 2 3 2 1 1%R
                ExampleBlocks.block_1 ExampleBlocks.plain_2) as H.
  discharge H.
  exact (proj2 H).
Defined.

(** ** The whole of [compute] *)

Lemma gradients_check_passes (gradients : list string) :
  Forall (fun parameter => parameter = "positions"%string) gradients ->
  for_each gradients
    (fun parameter (_ : unit) =>
       if negb (String.eqb parameter "positions")
       then Raise (NotImplementedError
              "PowerSpectrum currently only supports gradients w.r.t. to positions")
       else Ok tt) tt
  = Ok tt.
Proof.
  induction 1 as [|g gradients Hg _ IH]; [reflexivity|].
  cbn [for_each]. subst g. cbn [String.eqb Ascii.eqb Bool.eqb negb bind].
  exact IH.
Qed.

Lemma combine_blocks_shape_of_output (factor : R)
      (block_1 block_2 out : TensorBlock.t) :
  PowerSpectrum.combine_blocks factor block_1 block_2 = Ok out ->
  TensorBlock.components out = []
  /\ Labels.names (TensorBlock.properties out) = power_spectrum_property_names.
Proof.
  intros H. pose proof H as Hloop. unfold PowerSpectrum.combine_blocks in Hloop.
  apply bind_ok in Hloop as (new_block & Hnb & _).
  destruct (combine_blocks_keeps _ _ _ _ _ Hnb H) as (_ & _ & Hc & Hp).
  destruct (invariant_block_ok _ _ _ _ Hnb) as (_ & _ & Hnc & Hnp & _).
  rewrite Hc, Hp, Hnc, Hnp. split; reflexivity.
Qed.

(** X17. What [compute] hands to the final [keys_to_properties] when it
    returns: keys named ["l"] and ["species_center"] and blocks in equal
    number; every key is a key of the first expansion (after its neighbor
    species were moved), all of which are pairs with a channel [l >= 0];
    every block is without components and has the four property names of
    the power spectrum.  The requested gradients were ["positions"] only. *)
Theorem compute_output (Systems : Type)
        (keys_to_properties : TensorMap.t -> TensorMap.keys_to_move -> result TensorMap.t)
        (self : PowerSpectrum.t Systems) (systems : Systems)
        (gradients : option (list string)) (use_native_system : bool)
        (output : TensorMap.t) :
  PowerSpectrum.compute keys_to_properties self systems gradients use_native_system
  = Ok output ->
  exists expansion_1 keys blocks,
    PowerSpectrum.spherical_expansion keys_to_properties
      (PowerSpectrum.calculator_1 self) systems gradients use_native_system
    = Ok expansion_1
    /\ keys_to_properties
         (TensorMap.mk (Labels.mk ["l"; "species_center"]%string keys) blocks)
         (TensorMap.ByName "l")
       = Ok output
    /\ length keys = length blocks
    /\ Forall (fun key => In key (item_keys expansion_1)) keys
    /\ Forall (fun key => exists ell species_center,
                   key = [ell; species_center] /\ (0 <= ell)%Z)
              (item_keys expansion_1)
    /\ Forall (fun block =>
                 TensorBlock.components block = []
                 /\ Labels.names (TensorBlock.properties block)
                    = power_spectrum_property_names) blocks
    /\ match gradients with
       | None => True
       | Some gradients =>
           Forall (fun parameter => parameter = "positions"%string) gradients
       end.
Proof.
  intros H. unfold PowerSpectrum.compute in H.
  apply bind_ok in H as (u & Hcheck & H).
  apply bind_ok in H as (expansion_1 & He1 & H).
  apply bind_ok in H as (expansion_2 & _ & H).
  apply bind_ok in H as ([keys blocks] & Hloop & H).
  cbn [fst snd] in H.
  exists expansion_1, keys, blocks.
  split; [exact He1|]. split; [exact H|].
  set (P := fun kb : list (list Z) * list TensorBlock.t =>
              length (fst kb) = length (snd kb)
              /\ Forall (fun key => In key (item_keys expansion_1)) (fst kb)
              /\ Forall (fun block =>
                           TensorBlock.components block = []
                           /\ Labels.names (TensorBlock.properties block)
                              = power_spectrum_property_names) (snd kb)).
  assert (HP : P (keys, blocks)).
  { apply (for_each_invariant_in P _ _) with (s := ([], [])) (2 := Hloop);
      [|unfold P; cbn [fst snd]; auto].
    intros [key block_1] kb kb' Hitem Hbody Hkb.
    destruct key as [|ell [|species_center [|? ?]]]; try discriminate.
    apply bind_ok in Hbody as (factor & _ & Hbody).
    apply bind_ok in Hbody as (blocks_2 & _ & Hbody).
    apply (for_each_invariant P _ _) with (2 := Hbody); [|exact Hkb].
    intros block_2 s s' Hstep (Hlen & Hkeys & Hblocks).
    apply bind_ok in Hstep as (new_block & Hnew & Hstep).
    injection Hstep as <-. unfold P. cbn [fst snd].
    split; [rewrite !length_app; cbn [length]; lia|].
    split.
    - apply Forall_app. split; [assumption|].
      constructor; [|constructor].
      unfold item_keys. apply in_map_iff.
      exists ([ell; species_center], block_1). auto.
    - apply Forall_app. split; [assumption|].
      constructor; [|constructor].
      exact (combine_blocks_shape_of_output _ _ _ _ Hnew). }
  destruct HP as (Hlen & Hkeys & Hblocks). cbn [fst snd] in Hlen, Hkeys, Hblocks.
  split; [exact Hlen|]. split; [exact Hkeys|]. split; [|split; [exact Hblocks|]].
  - apply for_each_all_ok in Hloop.
    unfold item_keys. rewrite Forall_map.
    eapply Forall_impl; [|exact Hloop].
    intros [key block_1] (s1 & s2 & Hbody). cbn [fst].
    destruct key as [|ell [|species_center [|? ?]]]; try discriminate.
    apply bind_ok in Hbody as (factor & Hfactor & _).
    apply inv_sqrt_factor_ok in Hfactor as (Hell & _). eauto.
  - destruct gradients as [gradients|]; [|exact I].
    exact (gradients_check_ok gradients u Hcheck).
Qed.

Lemma compute_output_witness :
  exists output keys blocks,
    PowerSpectrum.compute MoreBlocks.keys_to_properties
      (PowerSpectrum.mk MoreBlocks.calculator None) tt None true
    = Ok output
    /\ MoreBlocks.keys_to_properties
         (TensorMap.mk (Labels.mk ["l"; "species_center"]%string keys) blocks)
         (TensorMap.ByName "l")
       = Ok output
    /\ length keys = length blocks.
Proof.
  destruct (PowerSpectrum.compute MoreBlocks.keys_to_properties
              (PowerSpectrum.mk MoreBlocks.calculator None) tt None true)
    as [output|e] eqn:E.
  - destruct (compute_output unit MoreBlocks.keys_to_properties
                (PowerSpectrum.mk MoreBlocks.calculator None) tt None true output E)
      as (expansion_1 & keys & blocks & _ & Hlast & Hlen & _).
    exists output, keys, blocks. split; [reflexivity|]. split; assumption.
  - exfalso. vm_compute in E. discriminate.
Defined.

(** X18. The neighbor species that [compute] moves from the keys of an
    expansion to its properties are the values of the key column
    ["species_neighbor"], each one once and in increasing order; the
    expansion had the three expected key names and the property name
    ["n"]. *)
Theorem moved_species (Systems : Type)
        (keys_to_properties : TensorMap.t -> TensorMap.keys_to_move -> result TensorMap.t)
        (calculator : PowerSpectrum.Calculator Systems) (systems : Systems)
        (gradients : option (list string)) (use_native_system : bool)
        (output : TensorMap.t) :
  PowerSpectrum.spherical_expansion keys_to_properties calculator systems
                                    gradients use_native_system
  = Ok output ->
  exists expansion species,
    PowerSpectrum.calc_compute calculator systems gradients use_native_system
    = Ok expansion
    /\ Labels.names (TensorMap.keys expansion) = PowerSpectrum.expected_key_names
    /\ TensorMap.property_names expansion = ["n"%string]
    /\ keys_to_properties expansion
         (TensorMap.ByLabels
            (Labels.mk ["species_neighbor"%string] (map (fun v => [v]) species)))
       = Ok output
    /\ increasing species
    /\ forall v, In v species
                 <-> exists key, In key (Labels.values (TensorMap.keys expansion))
                                 /\ nth 2 key 0%Z = v.
Proof.
  intros H. unfold PowerSpectrum.spherical_expansion in H.
  apply bind_ok in H as (expansion & Hrun & H).
  apply bind_ok in H as (u1 & Hnames & H).
  apply bind_ok in H as (u2 & Hprops & H).
  apply bind_ok in H as (column & Hcolumn & H).
  unfold assert in Hnames, Hprops.
  destruct (Labels.names_eqb (Labels.names (TensorMap.keys expansion))
                             PowerSpectrum.expected_key_names) eqn:E1; [|discriminate].
  destruct (Labels.names_eqb (TensorMap.property_names expansion) ["n"%string])
    eqn:E2; [|discriminate].
  apply names_eqb_eq in E1, E2.
  exists expansion, (PowerSpectrum.np_unique column).
  split; [exact Hrun|]. split; [exact E1|]. split; [exact E2|].
  split; [exact H|]. split; [apply np_unique_increasing|].
  intros v. rewrite np_unique_In.
  unfold Labels.column in Hcolumn. rewrite E1 in Hcolumn.
  cbn in Hcolumn. injection Hcolumn as <-.
  rewrite in_map_iff. split; intros (key & Hk1 & Hk2); exists key; auto.
Qed.

Lemma moved_species_witness :
  exists output,
    PowerSpectrum.spherical_expansion MoreBlocks.keys_to_properties
      MoreBlocks.calculator tt None true = Ok output
    /\ MoreBlocks.keys_to_properties MoreBlocks.expansion
         (TensorMap.ByLabels (Labels.mk ["species_neighbor"%string] [[1%Z]]))
       = Ok output.
Proof.
  destruct (PowerSpectrum.spherical_expansion MoreBlocks.keys_to_properties
              MoreBlocks.calculator tt None true) as [output|e] eqn:E.
  - destruct (moved_species unit MoreBlocks.keys_to_properties
                MoreBlocks.calculator tt None true output E)
      as (expansion & species & Hrun & _ & _ & Hlast & _).
    exists output. split; [reflexivity|].
    vm_compute in E. injection E as <-. reflexivity.
  - exfalso. vm_compute in E. discriminate.
Defined.

(** X19. An expansion that does not have the three expected key names, or
    whose blocks do not have the single property name ["n"], stops
    [compute] with [AssertionError] (for accepted gradients), before
    [keys_to_properties] is called. *)
Theorem unexpected_expansion_rejected (Systems : Type)
        (keys_to_properties : TensorMap.t -> TensorMap.keys_to_move -> result TensorMap.t)
        (self : PowerSpectrum.t Systems) (systems : Systems)
        (gradients : option (list string)) (use_native_system : bool)
        (expansion : TensorMap.t) :
  match gradients with
  | None => True
  | Some gradients =>
      Forall (fun parameter => parameter = "positions"%string) gradients
  end ->
  PowerSpectrum.calc_compute (PowerSpectrum.calculator_1 self) systems gradients
                             use_native_system
  = Ok expansion ->
  Labels.names (TensorMap.keys expansion) <> PowerSpectrum.expected_key_names
  \/ TensorMap.property_names expansion <> ["n"%string] ->
  PowerSpectrum.compute keys_to_properties self systems gradients use_native_system
  = Raise AssertionError.
Proof.
  intros Hg Hrun Hbad. unfold PowerSpectrum.compute.
  assert (Hcheck : match gradients with
                   | Some gradients =>
                       for_each gradients
                         (fun parameter (_ : unit) =>
                            if negb (String.eqb parameter "positions")
                            then Raise (NotImplementedError
                                   "PowerSpectrum currently only supports gradients w.r.t. to positions")
                            else Ok tt) tt
                   | None => Ok tt
                   end = Ok tt).
  { destruct gradients as [gradients|]; [|reflexivity].
    now apply gradients_check_passes. }
  rewrite Hcheck. cbn [bind].
  unfold PowerSpectrum.spherical_expansion at 1. rewrite Hrun. cbn [bind].
  destruct (Labels.names_eqb (Labels.names (TensorMap.keys expansion))
                             PowerSpectrum.expected_key_names) eqn:E1;
    [|reflexivity].
  destruct (Labels.names_eqb (TensorMap.property_names expansion) ["n"%string])
    eqn:E2; [|reflexivity].
  apply names_eqb_eq in E1, E2. destruct Hbad; contradiction.
Qed.

Lemma unexpected_expansion_rejected_witness :
  PowerSpectrum.compute MoreBlocks.keys_to_properties
    (PowerSpectrum.mk MoreBlocks.calculator_without_neighbor None) tt
    (Some ["positions"%string]) true
  = Raise AssertionError.
Proof.
  apply (unexpected_expansion_rejected unit MoreBlocks.keys_to_properties
           (PowerSpectrum.mk MoreBlocks.calculator_without_neighbor None) tt
           (Some ["positions"%string]) true MoreBlocks.expansion_without_neighbor).
  - repeat constructor.
  - reflexivity.
  - left. discriminate.
Defined.

(** ** Gradients over shared samples *)

Lemma dedup_append (rows acc : list (list Z)) :
  NoDup (acc ++ rows) ->
  fold_left (fun u r => if existsb (Labels.row_eqb r) u then u else u ++ [r])
            rows acc
  = acc ++ rows.
Proof.
  revert acc. induction rows as [|x rows IH]; intros acc Hnd; cbn [fold_left].
  - now rewrite app_nil_r.
  - assert (Hnotin : ~ In x acc).
    { intros Hin. apply NoDup_remove_2 in Hnd. apply Hnd.
      apply in_or_app. now left. }
    replace (existsb (Labels.row_eqb x) acc) with false.
    + rewrite IH; rewrite <- app_assoc; [reflexivity|exact Hnd].
    + symmetry. apply not_true_iff_false. intros E.
      apply existsb_exists in E as (y & Hy & Hxy).
      apply row_eqb_eq in Hxy. subst y. contradiction.
Qed.

Lemma dedup_present (rows acc : list (list Z)) :
  (forall r, In r rows -> In r acc) ->
  fold_left (fun u r => if existsb (Labels.row_eqb r) u then u else u ++ [r])
            rows acc
  = acc.
Proof.
  induction rows as [|x rows IH]; intros Hin; cbn [fold_left]; [reflexivity|].
  replace (existsb (Labels.row_eqb x) acc) with true.
  - apply IH. intros r Hr. apply Hin. now right.
  - symmetry. apply existsb_exists. exists x.
    split; [apply Hin; now left|now apply row_eqb_eq].
Qed.

Lemma dedup_twice (rows : list (list Z)) :
  NoDup rows -> Labels.dedup (rows ++ rows) = rows.
Proof.
  intros Hnd. unfold Labels.dedup. rewrite fold_left_app.
  rewrite (dedup_append rows []) by exact Hnd. cbn [app].
  now apply dedup_present.
Qed.

Lemma position_nth (rows : list (list Z)) (u : nat) :
  NoDup rows -> u < length rows ->
  Labels.position Labels.row_eqb (nth u rows []) rows = Some u.
Proof.
  intros Hnd. revert u. induction Hnd as [|y rows Hnotin Hnd IH]; intros u Hu;
    cbn [length] in Hu; [lia|].
  destruct u as [|u]; cbn [nth Labels.position].
  - replace (Labels.row_eqb y y) with true by (symmetry; now apply row_eqb_eq).
    reflexivity.
  - replace (Labels.row_eqb y (nth u rows [])) with false.
    + rewrite IH by lia. reflexivity.
    + symmetry. apply not_true_iff_false. intros E. apply row_eqb_eq in E.
      apply Hnotin. rewrite E. apply nth_In. lia.
Qed.

(** X20. When the two ["positions"] gradients are given on the same
    samples, as they are when a block is combined with itself, the gradient
    of the output is given on these samples too, and its value at the row
    [g], direction [x] and properties [(p1, p2)] is the product rule at that
    row: [factor] times the sum over [m] of
    [d arr_1[g, x, m, p1] * arr_2[s, m, p2] + arr_1[s, m, p1] * d arr_2[g, x, m, p2]],
    [s] being the sample the row [g] refers to. *)
Theorem shared_samples_product_rule
        (N M P1 P2 G : nat) (factor : R)
        (block_1 block_2 gradient_1 gradient_2 : TensorBlock.t)
        (sample : list Z) (component : Labels.t) (others : list Labels.t) :
  (* the two blocks *)
  shape (TensorBlock.values block_1) = [N; M; P1] ->
  shape (TensorBlock.values block_2) = [N; M; P2] ->
  TensorBlock.samples block_1 = TensorBlock.samples block_2 ->
  Labels.len (TensorBlock.properties block_1) = P1 ->
  Labels.len (TensorBlock.properties block_2) = P2 ->
  (* their gradients, on the same samples *)
  TensorBlock.gradient block_1 "positions" = Ok gradient_1 ->
  TensorBlock.gradient block_2 "positions" = Ok gradient_2 ->
  NoDup (TensorBlock.gradients_list block_1) ->
  shape (TensorBlock.values gradient_1) = [G; 3; M; P1] ->
  shape (TensorBlock.values gradient_2) = [G; 3; M; P2] ->
  TensorBlock.components gradient_1 = component :: others ->
  TensorBlock.samples gradient_1 = TensorBlock.samples gradient_2 ->
  Labels.len (TensorBlock.samples gradient_1) = G ->
  0 < G ->
  NoDup (Labels.values (TensorBlock.samples gradient_1)) ->
  Labels.column (TensorBlock.samples gradient_1) "sample" = Ok sample ->
  Forall (fun s => 0 <= s < Z.of_nat N)%Z sample ->
  exists out gradient,
    PowerSpectrum.combine_blocks factor block_1 block_2 = Ok out
    /\ TensorBlock.gradients out = [("positions"%string, gradient)]
    /\ TensorBlock.samples gradient = TensorBlock.samples gradient_1
    /\ TensorBlock.components gradient = [component]
    /\ shape (TensorBlock.values gradient) = [G; 3; P1 * P2]
    /\ forall g x p1 p2, g < G -> x < 3 -> p1 < P1 -> p2 < P2 ->
         item (TensorBlock.values gradient) [g; x; p1 * P2 + p2]
         = (factor * sum_upto M (fun m =>
              item (TensorBlock.values gradient_1) [g; x; m; p1]
              * item (TensorBlock.values block_2) [sample_of sample g; m; p2]
              + item (TensorBlock.values block_1) [sample_of sample g; m; p1]
                * item (TensorBlock.values gradient_2) [g; x; m; p2]))%R.
Proof.
  intros Hv1 Hv2 Hsame Hp1 Hp2 Hg1 Hg2 Hndg Hgv1 Hgv2 Hcomp Hshared HG HGpos
         Hnd Hcol Hs.
  apply labels_eqb_eq in Hsame.
  assert (HN : 0 < N).
  { apply (sample_count_positive N G sample); try assumption.
    rewrite (column_length _ _ _ Hcol). exact HG. }
  destruct (invariant_block_spec N M P1 P2 factor block_1 block_2 Hv1 Hv2 Hsame HN)
    as (new_block & Hnb & _ & _ & Hnp & Hng & _).
  rewrite (combine_blocks_positions factor block_1 block_2 gradient_1 _ Hg1 Hndg Hnb).
  assert (HG2 : Labels.len (TensorBlock.samples gradient_2) = G)
    by (now rewrite <- Hshared).
  assert (Hnames : Labels.names (TensorBlock.samples gradient_1)
                   = Labels.names (TensorBlock.samples gradient_2))
    by (now rewrite <- Hshared).
  assert (Hnd2 : NoDup (Labels.values (TensorBlock.samples gradient_2)))
    by (now rewrite <- Hshared).
  assert (Hcol2 : Labels.column (TensorBlock.samples gradient_2) "sample" = Ok sample)
    by (now rewrite <- Hshared).
  destruct (positions_gradients_spec N M P1 P2 G G factor new_block block_1 block_2
              gradient_1 gradient_2 sample sample component others
              Hg1 Hg2 Hv1 Hv2 Hgv1 Hgv2
              HG HG2 HGpos HGpos Hnames Hnd Hnd2 Hcol Hcol2 Hs Hs Hcomp)
    as (gradient & Hpg & Hgs & Hgc & _ & _ & Hsh & Hit).
  { rewrite Hnp. unfold Labels.len. cbn [Labels.values].
    rewrite product_rows_length. unfold Labels.len in Hp1, Hp2. congruence. }
  { exact Hng. }
  rewrite <- Hshared in Hsh, Hit, Hgs.
  rewrite (dedup_twice _ Hnd) in Hsh, Hit, Hgs.
  unfold Labels.len in HG. rewrite HG in Hsh, Hit.
  eexists. exists gradient. split; [exact Hpg|].
  cbn [TensorBlock.with_gradients TensorBlock.gradients].
  split; [reflexivity|].
  split; [rewrite Hgs; now destruct (TensorBlock.samples gradient_1)|].
  split; [exact Hgc|]. split; [exact Hsh|].
  intros g x p1 p2 Hg Hx Hq1 Hq2.
  rewrite Hit by assumption.
  unfold term_at. rewrite (position_nth _ g Hnd) by lia.
  unfold gradient_term_1, gradient_term_2.
  rewrite <- Rmult_plus_distr_l. f_equal.
  symmetry. apply sum_upto_plus.
Qed.

Lemma shared_samples_product_rule_witness :
  exists out gradient,
    PowerSpectrum.combine_blocks 1%R ExampleBlocks.block_1 ExampleBlocks.block_1
    = Ok out
    /\ TensorBlock.gradients out = [("positions"%string, gradient)]
    /\ TensorBlock.samples gradient = TensorBlock.samples ExampleBlocks.gradient_1
    /\ shape (TensorBlock.values gradient) = [2; 3; 4].
Proof.
  pose proof (shared_samples_product_rule 2 3 2 2 2 1%R
                ExampleBlocks.block_1 ExampleBlocks.block_1
                ExampleBlocks.gradient_1 ExampleBlocks.gradient_1
                [0; 1]%Z ExampleBlocks.direction [ExampleBlocks.components_m]) as H.
  discharge H.
  destruct H as (out & gradient & Hout & Hg & Hs & _ & Hsh & _).
  exists out, gradient. repeat split; assumption.
Defined.

(** ** The gradient of the empty branch *)

(** X23. The gradient that the empty branch of [_positions_gradients]
    builds has one direction, [reshape(0, 1, ...)], where the gradients of
    the inputs have three.  When one of the two ["positions"] gradients has
    no sample and the gradient of [block_1] has three directions, the
    constructor of the new gradient rejects the array of shape
    [0, 1, P1 * P2] against the three entries of the direction component,
    and the loop body fails. *)
Theorem empty_gradient_rejected
        (N M P1 P2 G1 : nat) (factor : R)
        (block_1 block_2 gradient_1 gradient_2 : TensorBlock.t) :
  shape (TensorBlock.values block_1) = [N; M; P1] ->
  shape (TensorBlock.values block_2) = [N; M; P2] ->
  TensorBlock.samples block_1 = TensorBlock.samples block_2 ->
  0 < N ->
  TensorBlock.gradient block_1 "positions" = Ok gradient_1 ->
  TensorBlock.gradient block_2 "positions" = Ok gradient_2 ->
  NoDup (TensorBlock.gradients_list block_1) ->
  shape (TensorBlock.values gradient_1) = [G1; 3; M; P1] ->
  Labels.len (TensorBlock.samples gradient_1) = 0
  \/ Labels.len (TensorBlock.samples gradient_2) = 0 ->
  PowerSpectrum.combine_blocks factor block_1 block_2
  = Raise (EquistoreError "the shape of the values does not match the labels").
Proof.
  intros Hv1 Hv2 Hsame HN Hg1 Hg2 Hndg Hgv1 Hempty.
  apply labels_eqb_eq in Hsame.
  destruct (invariant_block_spec N M P1 P2 factor block_1 block_2 Hv1 Hv2 Hsame HN)
    as (new_block & Hnb & _).
  destruct (TensorBlock.components gradient_1) as [|component others] eqn:Hcomp.
  { pose proof (block_shape gradient_1) as Hsh.
    rewrite Hgv1, Hcomp in Hsh. discriminate. }
  destruct (gradient_shape_4 gradient_1 G1 3 M P1 component others Hgv1 Hcomp)
    as (_ & Hdirections & _).
  rewrite (combine_blocks_positions factor block_1 block_2 gradient_1 _ Hg1 Hndg Hnb).
  rewrite (positions_gradients_empty_spec factor new_block block_1 block_2
             gradient_1 gradient_2 component others Hg1 Hg2 Hempty Hcomp).
  rewrite new_fails; [reflexivity|].
  cbn [shape map app]. rewrite Hdirections. discriminate.
Qed.

Lemma empty_gradient_rejected_witness :
  PowerSpectrum.combine_blocks 1%R ExampleBlocks.block_1
                               ExampleBlocks.block_2_empty_gradient
  = Raise (EquistoreError "the shape of the values does not match the labels").
Proof.
  pose proof (empty_gradient_rejected 2 3 2 1 2 1%R
                ExampleBlocks.block_1 ExampleBlocks.block_2_empty_gradient
                ExampleBlocks.gradient_1 ExampleBlocks.gradient_empty) as H.
  discharge H.
  exact H.
Defined.

(** With gradients along a single direction the constructor accepts the
    array of the empty branch, and the block that is returned carries the
    gradient without samples. *)
Example empty_gradient_one_direction_example :
  exists out gradient,
    PowerSpectrum.combine_blocks 1%R MoreBlocks.block_1_one_direction
                                 MoreBlocks.block_2_one_direction
    = Ok out
    /\ TensorBlock.gradients out = [("positions"%string, gradient)]
    /\ TensorBlock.samples gradient
       = Labels.empty ["sample"; "structure"; "atom"]%string
    /\ TensorBlock.components gradient = [MoreBlocks.one_direction]
    /\ TensorBlock.values gradient = mk_ndarray [0; 1; 2] [].
Proof.
  eexists. eexists. split; [vm_compute; reflexivity|].
  repeat split.
Qed.
